(** * Webhook processor: admission-controlled queue, dispatch loop,
      retrying processor and worker pool

    A shallow embedding of [src/services/queue.js], [src/services/processor.js]
    and [src/services/workerPool.js], and of the route that feeds the queue
    ([src/server.js], [src/middleware/rateLimit.js],
    [src/middleware/validateJson.js], [src/routes/webhook.js],
    [src/middleware/errorHandler.js]).  The JavaScript objects are mutable and
    run on one cooperative thread; the embedding threads one [world] record
    through a small state monad, records every call to the metrics sink, the
    logger and the injected processor in a trace, and cuts asynchronous code at
    its [await] points. *)

From Stdlib Require Import ZArith QArith Qcanon Qround List Lia.
From stdpp Require Import base gmap sets list strings.

Local Open Scope Z_scope.

(** ** Values, queue entries and observable events *)

(** The items handed to [enqueue]: any JavaScript value.  The transport layer
    passes parsed JSON bodies, the tests pass strings. *)
Inductive value : Type :=
  | VNull
  | VUndefined
  | VBool (b : bool)
  | VNumber (n : Z)
  | VString (s : string)
  | VObject (members : object)
with object : Type :=
  | ONil
  | OCons (key : string) (v : value) (rest : object).

(** [item == null] in JavaScript: true of [null] and [undefined] only. *)
Definition loosely_null (v : value) : bool :=
  match v with
  | VNull | VUndefined => true
  | _ => false
  end.

(** [{ item, enqueuedAt }], the object pushed on [this.queue]. *)
Record entry : Type := { item : value; enqueuedAt : Z }.

Inductive level : Type := Debug | Info | Warn | Error.

#[global] Instance level_eq_dec : EqDecision level.
Proof. solve_decision. Defined.

(** One entry per effect the code has on its collaborators. *)
Inductive event : Type :=
  | IncReceived
  | IncProcessed
  | IncTooMany
  | SetQueueLength (n : Z)
  | ObserveQueueTime (ms : Z)
  | ObserveProcessingTime (ms : Z)
  | Log (lvl : level) (msg : string) (subject : option value)
  | ProcessorCall (it : value)
  | SetTimeout (ms : Z)
  | Attempt (it : value) (ok : bool)
  | DrainResolved.

Inductive error : Type :=
  | QueueOverloadedError
  | ProcessingFailed.

(** Result of a call that may throw (or of a promise that may reject). *)
Inductive outcome (A : Type) : Type :=
  | Returned (a : A)
  | Thrown (e : error).
Arguments Returned {A} a.
Arguments Thrown {A} e.

(** ** Pending promises *)

(** What is chained on the promise returned by [processItem]:
    the dispatch loop chains [.catch(() => {}).finally(() => {...})], whose
    closure holds the token [id]; a worker loop awaits it inside [try]/[catch]. *)
Inductive reaction : Type :=
  | ReleaseToken (id : Qc)
  | ResumeWorker (i : nat).

(** State of the promise returned by an asynchronous [processItem] call. *)
Inductive phase : Type := Awaiting | Fulfilled | Rejected.

Record invocation : Type := {
  inv_item : value;
  inv_startTime : Z;
  inv_then : reaction;
  inv_phase : phase
}.

(** Where a [workerLoop] coroutine stands. *)
Inductive worker : Type :=
  | WSleeping     (* inside [await sleep(100)] *)
  | WProcessing   (* inside [await this.queue.processItem(item)] *)
  | WExited.      (* left the [while] loop *)

(** The two functions the property [queue.processNext] can hold. *)
Inductive method : Type :=
  | PrototypeProcessNext   (* [WebhookQueue.prototype.processNext] *)
  | NoOp.                  (* [() => {}] *)

(** Fields of a [WorkerPool] instance.  Worker coroutines are never forgotten
    by the runtime, so [wp_coroutines] keeps all of them; the JavaScript array
    [this.workers] is the part from index [wp_base] on. *)
Record WorkerPool_obj : Type := {
  wp_concurrency : Z;
  wp_running : bool;
  wp_coroutines : list worker;
  wp_base : nat;
  wp_originalProcessNext : option method;
  wp_joins : list (nat * nat)  (* pending [await Promise.all(this.workers)] *)
}.

(** What the process reads from outside: the clock and the random generator
    (the [n]-th reading of either) and the two limits of [src/config.js]. *)
Record environment : Type := {
  clock : nat → Z;
  random : nat → Qc;
  CONCURRENCY : Z;
  OVERLOAD_THRESHOLD : Z
}.

(** ** The world: one queue, at most one pool, the pending promises *)

Record world : Type := {
  env : environment;
  reads : nat;
  (* fields of the WebhookQueue instance *)
  queue : list entry;
  processing : gset Qc;
  concurrency : Z;
  threshold : Z;
  processNext_slot : method;
  (* the WorkerPool instance, once constructed *)
  pool : option WorkerPool_obj;
  (* pending promises and timers *)
  invocations : list invocation;
  pollers : list bool;
  (* everything reported to metrics, logger and processor so far *)
  trace : list event
}.

Definition set_reads (n : nat) (w : world) : world :=
  {| env := env w; reads := n; queue := queue w; processing := processing w;
     concurrency := concurrency w; threshold := threshold w;
     processNext_slot := processNext_slot w; pool := pool w;
     invocations := invocations w; pollers := pollers w; trace := trace w |}.

Definition set_queue (q : list entry) (w : world) : world :=
  {| env := env w; reads := reads w; queue := q; processing := processing w;
     concurrency := concurrency w; threshold := threshold w;
     processNext_slot := processNext_slot w; pool := pool w;
     invocations := invocations w; pollers := pollers w; trace := trace w |}.

Definition set_processing (s : gset Qc) (w : world) : world :=
  {| env := env w; reads := reads w; queue := queue w; processing := s;
     concurrency := concurrency w; threshold := threshold w;
     processNext_slot := processNext_slot w; pool := pool w;
     invocations := invocations w; pollers := pollers w; trace := trace w |}.

Definition set_processNext (m : method) (w : world) : world :=
  {| env := env w; reads := reads w; queue := queue w; processing := processing w;
     concurrency := concurrency w; threshold := threshold w;
     processNext_slot := m; pool := pool w;
     invocations := invocations w; pollers := pollers w; trace := trace w |}.

Definition set_pool (p : option WorkerPool_obj) (w : world) : world :=
  {| env := env w; reads := reads w; queue := queue w; processing := processing w;
     concurrency := concurrency w; threshold := threshold w;
     processNext_slot := processNext_slot w; pool := p;
     invocations := invocations w; pollers := pollers w; trace := trace w |}.

Definition update_pool (f : WorkerPool_obj → WorkerPool_obj) (w : world) : world :=
  set_pool (f <$> pool w) w.

Definition set_invocations (l : list invocation) (w : world) : world :=
  {| env := env w; reads := reads w; queue := queue w; processing := processing w;
     concurrency := concurrency w; threshold := threshold w;
     processNext_slot := processNext_slot w; pool := pool w;
     invocations := l; pollers := pollers w; trace := trace w |}.

Definition set_pollers (l : list bool) (w : world) : world :=
  {| env := env w; reads := reads w; queue := queue w; processing := processing w;
     concurrency := concurrency w; threshold := threshold w;
     processNext_slot := processNext_slot w; pool := pool w;
     invocations := invocations w; pollers := l; trace := trace w |}.

Definition set_trace (t : list event) (w : world) : world :=
  {| env := env w; reads := reads w; queue := queue w; processing := processing w;
     concurrency := concurrency w; threshold := threshold w;
     processNext_slot := processNext_slot w; pool := pool w;
     invocations := invocations w; pollers := pollers w; trace := t |}.

(** ** Numbers

    A JavaScript number is an IEEE 754 double.  The sum of two numbers is the
    double nearest to their exact sum, the one with the even significand when
    two are equally near.  Numbers are kept here as rationals; the exponent is
    not bounded, which a sum of a time stamp and a fraction never notices. *)

(** [2 ^ k], for [k] of either sign. *)
Definition pow2 (k : Z) : Q :=
  if (0 <=? k)%Z then inject_Z (2 ^ k) else / inject_Z (2 ^ (- k)).

(** The [k] with [2 ^ k <= x < 2 ^ (k + 1)], for [x] positive. *)
Definition binade (x : Q) : Z :=
  let k := Z.log2 (Qnum x) - Z.log2 (Zpos (Qden x)) in
  if Qle_bool (pow2 k) x then k else k - 1.

(** The nearest integer, the even one of two equally near. *)
Definition nearest_even (m : Q) : Z :=
  let f := Qfloor m in
  match (m - inject_Z f ?= 1 # 2)%Q with
  | Lt => f
  | Gt => f + 1
  | Eq => if Z.even f then f else f + 1
  end.

(** The nearest number with a significand of 53 bits, for [x] positive. *)
Definition round_positive (x : Q) : Q :=
  let ulp := pow2 (binade x - 52) in
  (inject_Z (nearest_even (x / ulp)) * ulp)%Q.

Definition to_double (x : Q) : Q :=
  match Qnum x with
  | Z0 => 0%Q
  | Zpos _ => round_positive x
  | Zneg _ => (- round_positive (- x))%Q
  end.

(** [x + y] on numbers. *)
Definition number_add (x y : Qc) : Qc := Q2Qc (to_double (x + y)%Q).
Arguments number_add : simpl never.

(** ** The state monad *)

Definition M (A : Type) : Type := world → A * world.

#[global] Instance M_ret : MRet M := λ A a w, (a, w).
#[global] Instance M_bind : MBind M := λ A B k m w, let r := m w in k r.1 r.2.

Definition get : M world := λ w, (w, w).
Definition gets {A : Type} (f : world → A) : M A := λ w, (f w, w).
Definition modify (f : world → world) : M unit := λ w, (tt, f w).
Definition emit (e : event) : M unit := modify (λ w, set_trace (trace w ++ [e]) w).

(** [Date.now()] *)
Definition Date_now : M Z :=
  λ w, (clock (env w) (reads w), set_reads (S (reads w)) w).

(** [Math.random()] *)
Definition Math_random : M Qc :=
  λ w, (random (env w) (reads w), set_reads (S (reads w)) w).

(** [src/utils/metrics.js]: each function forwards to one collector. *)
Module metrics.
Definition incReceived : M unit := emit IncReceived.
Definition incProcessed : M unit := emit IncProcessed.
Definition incTooMany : M unit := emit IncTooMany.
Definition setQueueLength (n : Z) : M unit := emit (SetQueueLength n).
Definition observeProcessingTime (ms : Z) : M unit := emit (ObserveProcessingTime ms).
Definition observeQueueTime (ms : Z) : M unit := emit (ObserveQueueTime ms).
End metrics.

Module logger.
Definition debug (msg : string) (subject : option value) : M unit := emit (Log Debug msg subject).
Definition info (msg : string) (subject : option value) : M unit := emit (Log Info msg subject).
Definition warn (msg : string) (subject : option value) : M unit := emit (Log Warn msg subject).
Definition error (msg : string) (subject : option value) : M unit := emit (Log Error msg subject).
End logger.

(** ** [src/services/queue.js]: class [WebhookQueue] *)

Module WebhookQueue.

(** [totalItems()]: [this.queue.length + this.processing.size] *)
Definition totalItems (w : world) : Z :=
  Z.of_nat (length (queue w)) + Z.of_nat (size (processing w)).

(** [dequeue()] *)
Definition dequeue : M value :=
  this ← get;
  match queue this with
  | [] => mret VNull
  | entry :: rest =>
      modify (set_queue rest);;          (* this.queue.shift() *)
      now ← Date_now;
      let delta := now - enqueuedAt entry in
      metrics.observeQueueTime delta;;
      n ← gets totalItems;
      metrics.setQueueLength n;;
      logger.debug "Dequeued item" (Some (item entry));;
      mret (item entry)
  end.

(** [processItem(item)] up to its [await]: the processor is called, and the
    rest of the body waits for the promise it returned.  [next] is what the
    caller chains on the promise [processItem] itself returns. *)
Definition processItem (it : value) (next : reaction) : M unit :=
  startTime ← Date_now;
  emit (ProcessorCall it);;
  modify (λ w, set_invocations
    (invocations w ++
       [{| inv_item := it; inv_startTime := startTime;
           inv_then := next; inv_phase := Awaiting |}]) w).

(** The rest of [processItem], run when the processor's promise settles:
    [ok] tells whether it fulfilled.  Returns the state the promise of
    [processItem] takes. *)
Definition processItem_resume (inv : invocation) (ok : bool) : M phase :=
  if ok then
    now ← Date_now;
    let processingTime := now - inv_startTime inv in
    metrics.incProcessed;;
    metrics.observeProcessingTime processingTime;;
    logger.info "Processed item successfully" (Some (inv_item inv));;
    mret Fulfilled
  else
    logger.error "Error processing item" (Some (inv_item inv));;
    mret Rejected.

(** The condition of the [while] in [_scheduleProcessing]. *)
Definition may_dispatch (w : world) : bool :=
  bool_decide (Z.of_nat (size (processing w)) < concurrency w)
  && bool_decide (0 < Z.of_nat (length (queue w))).

(** The body of the [while] in [_scheduleProcessing]. *)
Definition dispatch_one : M unit :=
  it ← dequeue;
  now ← Date_now;
  r ← Math_random;
  let id := number_add (Q2Qc (inject_Z now)) r in       (* Date.now() + Math.random() *)
  modify (λ w, set_processing ({[ id ]} ∪ processing w) w);;
  n ← gets totalItems;
  metrics.setQueueLength n;;
  processItem it (ReleaseToken id).

(** The [while] loop.  Every turn shifts one entry off [this.queue], so the
    length of the queue on entry bounds the number of turns. *)
Fixpoint dispatch_loop (turns : nat) : M unit :=
  match turns with
  | O => mret tt
  | S turns' =>
      this ← get;
      if may_dispatch this then dispatch_one;; dispatch_loop turns' else mret tt
  end.

(** [_scheduleProcessing()] *)
Definition _scheduleProcessing : M unit :=
  q ← gets queue;
  dispatch_loop (length q).

(** The callback given to [.finally] in [_scheduleProcessing]. *)
Definition on_finally (id : Qc) : M unit :=
  modify (λ w, set_processing (processing w ∖ {[ id ]}) w);;
  n ← gets totalItems;
  metrics.setQueueLength n;;
  _scheduleProcessing.

(** [enqueue(item)] *)
Definition enqueue (it : value) : M (outcome unit) :=
  metrics.incReceived;;
  this ← get;
  if bool_decide (Z.of_nat (length (queue this)) + Z.of_nat (size (processing this)) + 1 >= threshold this)%Z
  then
    logger.warn "Queue overload, request rejected" (Some it);;
    metrics.incTooMany;;
    mret (Thrown QueueOverloadedError)
  else
    now ← Date_now;
    modify (λ w, set_queue (queue w ++ [{| item := it; enqueuedAt := now |}]) w);;
    n ← gets totalItems;
    metrics.setQueueLength n;;
    logger.info "Enqueued item" (Some it);;
    _scheduleProcessing;;
    mret (Returned tt).

(** [processNext()], through the property [queue.processNext] *)
Definition processNext : M unit :=
  this ← get;
  match processNext_slot this with
  | PrototypeProcessNext => _scheduleProcessing
  | NoOp => mret tt
  end.

(** The test in [drain()] and in its interval callback. *)
Definition idle (w : world) : bool :=
  bool_decide (length (queue w) = 0%nat) && bool_decide (size (processing w) = 0%nat).

(** [drain()] up to the promise it returns: resolved at once, or left to an
    interval timer.  [from_shutdown] marks the call made by [shutdown()]. *)
Definition drain (from_shutdown : bool) : M unit :=
  this ← get;
  if idle this then
    emit DrainResolved;;
    if from_shutdown
    then logger.info "All queued items processed, queue shutdown complete" None
    else mret tt
  else
    modify (λ w, set_pollers (pollers w ++ [from_shutdown]) w).

(** The callback of [setInterval(..., 100)] set up by [drain()], for the
    [j]-th pending poller. *)
Definition checkQueue (j : nat) : M unit :=
  this ← get;
  match (pollers this !! j : option bool) with
  | None => mret tt
  | Some from_shutdown =>
      if idle this then
        modify (set_pollers (delete j (pollers this)));;     (* clearInterval(checkQueue) *)
        emit DrainResolved;;
        if from_shutdown
        then logger.info "All queued items processed, queue shutdown complete" None
        else mret tt
      else mret tt
  end.

(** [shutdown()] *)
Definition shutdown : M unit :=
  logger.info "Starting graceful shutdown of queue" None;;
  drain true.

(** [size()]: [this.queue.length + this.processing.size] *)
Definition size (w : world) : Z :=
  Z.of_nat (length (queue w)) + Z.of_nat (base.size (processing w)).

End WebhookQueue.

(** ** [src/services/workerPool.js]: class [WorkerPool] *)

(** The options object of the constructor; [None] is a property left out. *)
Record pool_options : Type := {
  opt_concurrency : option Z;
  opt_disableQueueProcessing : option bool
}.

Module WorkerPool.

Definition set_running (b : bool) (p : WorkerPool_obj) : WorkerPool_obj :=
  {| wp_concurrency := wp_concurrency p; wp_running := b;
     wp_coroutines := wp_coroutines p; wp_base := wp_base p;
     wp_originalProcessNext := wp_originalProcessNext p; wp_joins := wp_joins p |}.

Definition set_coroutines (l : list worker) (p : WorkerPool_obj) : WorkerPool_obj :=
  {| wp_concurrency := wp_concurrency p; wp_running := wp_running p;
     wp_coroutines := l; wp_base := wp_base p;
     wp_originalProcessNext := wp_originalProcessNext p; wp_joins := wp_joins p |}.

Definition set_base (b : nat) (p : WorkerPool_obj) : WorkerPool_obj :=
  {| wp_concurrency := wp_concurrency p; wp_running := wp_running p;
     wp_coroutines := wp_coroutines p; wp_base := b;
     wp_originalProcessNext := wp_originalProcessNext p; wp_joins := wp_joins p |}.

Definition set_joins (l : list (nat * nat)) (p : WorkerPool_obj) : WorkerPool_obj :=
  {| wp_concurrency := wp_concurrency p; wp_running := wp_running p;
     wp_coroutines := wp_coroutines p; wp_base := wp_base p;
     wp_originalProcessNext := wp_originalProcessNext p; wp_joins := l |}.

Definition park (i : nat) (s : worker) : M unit :=
  modify (update_pool (λ p, set_coroutines (<[ i := s ]> (wp_coroutines p)) p)).

(** [constructor(queue, { concurrency, disableQueueProcessing } = {})], for
    [queue] the queue of the world (the [instanceof] test passes). *)
Definition constructor (opts : pool_options) : M unit :=
  this ← get;
  let concurrency := default (CONCURRENCY (env this)) (opt_concurrency opts) in
  let disableQueueProcessing := default true (opt_disableQueueProcessing opts) in
  modify (set_pool (Some
    {| wp_concurrency := concurrency; wp_running := false;
       wp_coroutines := []; wp_base := 0;
       wp_originalProcessNext := None; wp_joins := [] |}));;
  if disableQueueProcessing then
    modify (update_pool (λ p,
      {| wp_concurrency := wp_concurrency p; wp_running := wp_running p;
         wp_coroutines := wp_coroutines p; wp_base := wp_base p;
         wp_originalProcessNext := Some (processNext_slot this);
         wp_joins := wp_joins p |}));;
    modify (set_processNext NoOp);;
    logger.info "Disabled queue's built-in processing in favor of WorkerPool" None
  else mret tt.

(** One trip round the [while] of [workerLoop()], from the test of
    [this.running] to the next [await], for the coroutine numbered [i]. *)
Definition workerLoop (i : nat) : M unit :=
  this ← get;
  match pool this with
  | None => mret tt
  | Some p =>
      if wp_running p then
        it ← WebhookQueue.dequeue;
        if loosely_null it then
          park i WSleeping                                   (* await sleep(100) *)
        else
          WebhookQueue.processItem it (ResumeWorker i);;     (* await this.queue.processItem(item) *)
          park i WProcessing
      else park i WExited
  end.

(** The coroutine [i] once the promise of [processItem] has settled: the
    [catch] clause, then round the loop again. *)
Definition workerLoop_resume (i : nat) (ph : phase) : M unit :=
  match ph with
  | Rejected => logger.error "Error processing item in worker" None
  | _ => mret tt
  end;;
  workerLoop i.

(** [this.workers.push(this.workerLoop())], [n] times. *)
Fixpoint spawn (n : nat) : M unit :=
  match n with
  | O => mret tt
  | S n' =>
      this ← get;
      let i := from_option (λ p, length (wp_coroutines p)) 0%nat (pool this) in
      modify (update_pool (λ p, set_coroutines (wp_coroutines p ++ [WSleeping]) p));;
      workerLoop i;;
      spawn n'
  end.

(** [start()] *)
Definition start : M unit :=
  this ← get;
  match pool this with
  | None => mret tt
  | Some p =>
      if wp_running p then logger.warn "Worker pool is already running" None
      else
        modify (update_pool (set_running true));;
        logger.info "Starting worker pool" None;;
        spawn (Z.to_nat (wp_concurrency p))
  end.

(** [stop()] up to [await Promise.all(this.workers)]: the promises awaited
    are those of the coroutines from [wp_base] to the current end. *)
Definition stop : M unit :=
  this ← get;
  match pool this with
  | None => mret tt
  | Some p =>
      if negb (wp_running p) then mret tt
      else
        logger.info "Stopping worker pool" None;;
        modify (update_pool (set_running false));;
        modify (update_pool (λ p,
          set_joins (wp_joins p ++ [(wp_base p, length (wp_coroutines p))]) p))
  end.

(** Have all coroutines numbered from [lo] up to [hi] left their loop? *)
Definition all_exited (l : list worker) (lo hi : nat) : bool :=
  forallb (λ s, match s with WExited => true | _ => false end)
          (take (hi - lo) (drop lo l)).

(** The rest of [stop()], for the [j]-th pending call, once the promises it
    awaits have all resolved. *)
Definition stop_resume (j : nat) : M unit :=
  this ← get;
  match pool this with
  | None => mret tt
  | Some p =>
      match (wp_joins p !! j : option (nat * nat)) with
      | None => mret tt
      | Some (lo, hi) =>
          if all_exited (wp_coroutines p) lo hi then
            modify (update_pool (λ p, set_joins (delete j (wp_joins p)) p));;
            modify (update_pool (λ p, set_base (length (wp_coroutines p)) p));;  (* this.workers = [] *)
            match wp_originalProcessNext p with
            | Some original =>
                modify (set_processNext original);;
                logger.info "Restored queue's built-in processing" None
            | None => mret tt
            end
          else mret tt
      end
  end.

End WorkerPool.

(** ** [src/services/processor.js] *)

Module processor.

(** [simulateProcessingDelay()], up to the timer it sets.  The product is
    taken exactly; the code rounds it to a number before [Math.floor]. *)
Definition simulateProcessingDelay : M unit :=
  r ← Math_random;
  let delay := (Qfloor (r * Q2Qc (inject_Z 201))%Qc + 100)%Z in
  emit (SetTimeout delay).

(** [attemptProcessing(item)]; the [Attempt] event records the call and how
    its promise settled. *)
Definition attemptProcessing (it : value) : M (outcome value) :=
  r ← Math_random;
  if bool_decide (r < Q2Qc (1 # 10))%Qc then
    logger.warn "Item processing failed" (Some it);;
    emit (Attempt it false);;
    mret (Thrown ProcessingFailed)
  else
    emit (Attempt it true);;
    mret (Returned (VObject (OCons "success" (VBool true) (OCons "item" it ONil)))).

(** [processWithRetry(item)], its awaits run through. *)
Definition processWithRetry (it : value) : M (outcome value) :=
  simulateProcessingDelay;;
  first ← attemptProcessing it;
  match (first : outcome value) with
  | Returned result => mret (Returned result)
  | Thrown _ =>
      logger.info "Retrying item processing" (Some it);;
      simulateProcessingDelay;;
      second ← attemptProcessing it;
      match (second : outcome value) with
      | Returned result => mret (Returned result)
      | Thrown retryError =>
          logger.error "Item processing failed after retry" (Some it);;
          mret (Thrown retryError)
      end
  end.

End processor.

(** ** The process as a whole *)

(** [createWebhookQueue({ processor, metrics, concurrency, threshold })] in a
    fresh process; [None] is an option left to its default from the
    configuration. *)
Definition createWebhookQueue (e : environment) (concurrency threshold : option Z) : world :=
  {| env := e; reads := 0;
     queue := []; processing := ∅;
     concurrency := default (CONCURRENCY e) concurrency;
     threshold := default (OVERLOAD_THRESHOLD e) threshold;
     processNext_slot := PrototypeProcessNext;
     pool := None; invocations := []; pollers := []; trace := [] |}.

(** What can run next on the single thread: a call from outside, or a job the
    event loop has ready.  A world holds one pool: of the calls of
    [new WorkerPool(queue, opts)] in a schedule the first is followed, and a
    later one, which in the code makes a second pool on the same queue, is
    not. *)
Inductive action : Type :=
  | Enqueue (it : value)            (* queue.enqueue(item) *)
  | Dequeue                         (* queue.dequeue(), called from outside *)
  | ProcessNext                     (* queue.processNext() *)
  | Settle (k : nat) (ok : bool)    (* the processor's promise of invocation k settles *)
  | React (k : nat)                 (* what was chained on invocation k runs *)
  | Drain                           (* queue.drain() *)
  | Shutdown                        (* queue.shutdown() *)
  | IntervalTick (j : nat)          (* the interval of the j-th pending drain fires *)
  | PoolNew (opts : pool_options)   (* new WorkerPool(queue, opts) *)
  | PoolStart                       (* workerPool.start() *)
  | PoolStop                        (* workerPool.stop() *)
  | PoolJoined (j : nat)            (* the Promise.all of the j-th pending stop resolves *)
  | WorkerWake (i : nat).           (* sleep(100) of coroutine i is over *)

Definition set_phase (ph : phase) (inv : invocation) : invocation :=
  {| inv_item := inv_item inv; inv_startTime := inv_startTime inv;
     inv_then := inv_then inv; inv_phase := ph |}.

(** The continuation of [processItem] for the [k]-th invocation. *)
Definition settle (k : nat) (ok : bool) : M unit :=
  this ← get;
  match (invocations this !! k : option invocation) with
  | Some inv =>
      match inv_phase inv with
      | Awaiting =>
          ph ← WebhookQueue.processItem_resume inv ok;
          modify (λ w, set_invocations (<[ k := set_phase ph inv ]> (invocations w)) w)
      | _ => mret tt
      end
  | None => mret tt
  end.

(** The reaction chained on the settled promise of the [k]-th invocation. *)
Definition react (k : nat) : M unit :=
  this ← get;
  match (invocations this !! k : option invocation) with
  | Some inv =>
      match inv_phase inv with
      | Awaiting => mret tt
      | ph =>
          modify (set_invocations (delete k (invocations this)));;
          match inv_then inv with
          | ReleaseToken id => WebhookQueue.on_finally id      (* .catch(() => {}).finally(...) *)
          | ResumeWorker i => WorkerPool.workerLoop_resume i ph
          end
      end
  | None => mret tt
  end.

Definition worker_wake (i : nat) : M unit :=
  this ← get;
  match pool this with
  | Some p =>
      match (wp_coroutines p !! i : option worker) with
      | Some WSleeping => WorkerPool.workerLoop i
      | _ => mret tt
      end
  | None => mret tt
  end.

Definition perform (a : action) : M unit :=
  match a with
  | Enqueue it => WebhookQueue.enqueue it;; mret tt
  | Dequeue => WebhookQueue.dequeue;; mret tt
  | ProcessNext => WebhookQueue.processNext
  | Settle k ok => settle k ok
  | React k => react k
  | Drain => WebhookQueue.drain false
  | Shutdown => WebhookQueue.shutdown
  | IntervalTick j => WebhookQueue.checkQueue j
  | PoolNew opts =>
      this ← get;
      match pool this with
      | None => WorkerPool.constructor opts
      | Some _ => mret tt        (* one pool per queue, as in [src/index.js] *)
      end
  | PoolStart => WorkerPool.start
  | PoolStop => WorkerPool.stop
  | PoolJoined j => WorkerPool.stop_resume j
  | WorkerWake i => worker_wake i
  end.

Definition exec (a : action) (w : world) : world := (perform a w).2.

Definition run (acts : list action) (w : world) : world := foldl (λ w a, exec a w) w acts.

(** Schedules in which nothing but the queue's own dispatch loop takes items:
    no worker pool and no call of [dequeue] from outside. *)
Definition internal (a : action) : bool :=
  match a with
  | Enqueue _ | ProcessNext | Settle _ _ | React _ | Drain | Shutdown | IntervalTick _ => true
  | _ => false
  end.

(** Schedules that may resolve a drain promise. *)
Definition drains (a : action) : bool :=
  match a with
  | Drain | Shutdown | IntervalTick _ => true
  | _ => false
  end.

(** ** [src/middleware/rateLimit.js], [src/middleware/validateJson.js] and
       [src/routes/webhook.js]: the route [POST /webhook] *)

(** What the middlewares read of a request: whether [req.is('application/json')]
    is truthy, and [req.body] as the body parser left it. *)
Record request : Type := { is_json : bool; body : value }.

(** [res.status(code).json(payload)] *)
Record response : Type := { status : Z; payload : value }.

(** The server process: the module variable [hitCount] of the rate limiter
    and the default queue of [queue.js], which the route imports. *)
Record server : Type := { hitCount : Z; default_queue : world }.

(** [typeof v] *)
Definition typeof (v : value) : string :=
  match v with
  | VNull => "object"
  | VUndefined => "undefined"
  | VBool _ => "boolean"
  | VNumber _ => "number"
  | VString _ => "string"
  | VObject _ => "object"
  end.

(** [error.message] *)
Definition message (e : error) : string :=
  match e with
  | QueueOverloadedError => "Queue overloaded"
  | ProcessingFailed => "Processing failed"
  end.

Definition json_error (text : string) : value := VObject (OCons "error" (VString text) ONil).

(** [rateLimitMiddleware(req, res, next)]; [config.OVERLOAD_THRESHOLD] is read
    from the environment of the process. *)
Definition rateLimitMiddleware (next : server → response * server) (s : server) :
    response * server :=
  let s := {| hitCount := hitCount s + 1; default_queue := default_queue s |} in
  if bool_decide (hitCount s > OVERLOAD_THRESHOLD (env (default_queue s))) then
    ({| status := 429; payload := json_error "Too Many Requests" |},
     {| hitCount := hitCount s;
        default_queue := (metrics.incTooMany (default_queue s)).2 |})
  else next s.

(** [validateJson(req, res, next)] *)
Definition validateJson (req : request) (next : server → response * server) (s : server) :
    response * server :=
  let isJson := is_json req in
  let hasBodyObject := String.eqb (typeof (body req)) "object" in
  if negb isJson || negb hasBodyObject then
    ({| status := 400; payload := json_error "Invalid JSON payload" |}, s)
  else next s.

(** The handler of [router.post('/', validateJson, ...)]. *)
Definition handler (req : request) (s : server) : response * server :=
  let r := WebhookQueue.enqueue (body req) (default_queue s) in
  let s := {| hitCount := hitCount s; default_queue := r.2 |} in
  match r.1 with
  | Returned _ =>
      ({| status := 202; payload := VObject (OCons "status" (VString "Accepted") ONil) |}, s)
  | Thrown error =>
      if String.eqb (message error) "Queue overloaded"
      then ({| status := 429; payload := json_error "Too Many Requests" |}, s)
      else ({| status := 500; payload := json_error "Internal server error" |}, s)
  end.

(** [app.use('/webhook', rateLimitMiddleware, webhookRouter)], for a [POST]
    of the path [/webhook] that has come as far as this route. *)
Definition post_webhook (req : request) : server → response * server :=
  rateLimitMiddleware (validateJson req (handler req)).

(** What the server process does next: it answers a request, or the event
    loop runs a job of the default queue. *)
Inductive step : Type :=
  | Post (req : request)
  | Job (a : action).

Definition serve (st : step) (s : server) : server :=
  match st with
  | Post req => (post_webhook req s).2
  | Job a => {| hitCount := hitCount s; default_queue := exec a (default_queue s) |}
  end.

Definition serve_all (sts : list step) (s : server) : server := foldl (λ s st, serve st s) s sts.

(** The server process as [src/server.js] and [src/services/queue.js] set it
    up: no request counted yet, and the default queue with the limits of the
    configuration. *)
Definition boot (e : environment) : server :=
  {| hitCount := 0; default_queue := createWebhookQueue e None None |}.

(** A body that passes [validateJson]. *)
Definition valid (req : request) : bool :=
  is_json req && String.eqb (typeof (body req)) "object".

(** ** [src/server.js] and [src/middleware/errorHandler.js]: the application *)

(** A [POST] of the path [/webhook] as it leaves [express.json()], the first
    middleware of the application.  Either the parser has given up on the
    body (it is not JSON text, not an object or an array, or too long) and has
    passed an error on, or it has gone on to the next middleware, with
    [req.body] set if the content type made it read the body. *)
Inductive arrival : Type :=
  | Garbled
  | Parsed (req : request).

(** [errorHandler(err, req, res, next)] *)
Definition errorHandler (s : server) : response * server :=
  ({| status := 500; payload := json_error "Internal Server Error" |},
   {| hitCount := hitCount s;
      default_queue := (logger.error "Unhandled error" None (default_queue s)).2 |}).

(** The middlewares of [src/server.js] in the order in which such a request
    meets them: [express.json()], then the route, and after an error nothing
    but the error handler, which is mounted last. *)
Definition app (a : arrival) (s : server) : response * server :=
  match a with
  | Garbled => errorHandler s
  | Parsed req => post_webhook req s
  end.

(** What the server process does next, the body parser included: a request
    arrives, or the event loop runs a job of the default queue. *)
Inductive turn : Type :=
  | Arrives (a : arrival)
  | Runs (j : action).



(** The requests that come as far as the rate limiter. *)
Definition counted (t : turn) : bool :=
  match t with Arrives (Parsed _) => true | _ => false end.

(** ** Readings of the trace *)

(** The gauge [webhook_queue_length]: the last value set, [0] before any. *)
Definition gauge (t : list event) : Z :=
  foldl (λ g e, match e with SetQueueLength n => n | _ => g end) 0 t.

Definition count_event (p : event → bool) (t : list event) : nat := length (List.filter p t).

Definition is_IncReceived (e : event) : bool := match e with IncReceived => true | _ => false end.
Definition is_IncProcessed (e : event) : bool := match e with IncProcessed => true | _ => false end.
Definition is_IncTooMany (e : event) : bool := match e with IncTooMany => true | _ => false end.
Definition is_Attempt (e : event) : bool := match e with Attempt _ _ => true | _ => false end.
Definition is_SetTimeout (e : event) : bool := match e with SetTimeout _ => true | _ => false end.
Definition is_DrainResolved (e : event) : bool := match e with DrainResolved => true | _ => false end.

(** The item of a log line of the given level and message. *)
Definition logged (lvl : level) (msg : string) (e : event) : option value :=
  match e with
  | Log lvl' msg' (Some it) =>
      if bool_decide (lvl' = lvl) && String.eqb msg' msg then Some it else None
  | _ => None
  end.

(** Items in the order [enqueue] admitted them, [dequeue] handed them out,
    the processor was called with them, and their processing settled
    (successfully or not). *)
Definition admitted (t : list event) : list value := omap (logged Info "Enqueued item") t.
Definition handed_out (t : list event) : list value := omap (logged Debug "Dequeued item") t.
Definition processed (t : list event) : list value :=
  omap (λ e, match e with ProcessorCall it => Some it | _ => None end) t.
Definition settled (t : list event) : list value :=
  omap (λ e, match logged Info "Processed item successfully" e with
             | Some it => Some it
             | None => logged Error "Error processing item" e
             end) t.

(** The increments of the three counters and the resolutions of drain
    promises, in order. *)
Definition is_counter (e : event) : bool :=
  match e with
  | IncReceived | IncProcessed | IncTooMany | DrainResolved => true
  | _ => false
  end.

Definition counters (t : list event) : list event := List.filter is_counter t.

(** Since the trace was [t0], the increments have been [cs]. *)
Definition since (t0 cs : list event) (w : world) : Prop :=
  ∃ d, trace w = t0 ++ d ∧ counters d = cs.

(** Events that move neither the gauge nor the two item logs of the queue. *)
Definition quiet (e : event) : bool :=
  match e with
  | SetQueueLength _ => false
  | Log Info msg (Some _) => negb (String.eqb msg "Enqueued item")
  | Log Debug msg (Some _) => negb (String.eqb msg "Dequeued item")
  | _ => true
  end.

(** Events that are no item log and no call of the processor. *)
Definition inert (e : event) : bool :=
  match e with
  | ProcessorCall _ => false
  | Log _ _ (Some _) => false
  | _ => true
  end.

(** ** Invariants *)

(** [m] keeps [I]. *)
Definition preserves {A : Type} (I : world → Prop) (m : M A) : Prop :=
  ∀ w, I w → I (m w).2.

(** The dispatch loop as a sequence of turns: from [w], turns are taken for as
    long as the condition of the [while] holds, and [w'] is where it stops. *)
Inductive pumps : world → world → Prop :=
  | pumps_done w :
      WebhookQueue.may_dispatch w = false → pumps w w
  | pumps_turn w w' :
      WebhookQueue.may_dispatch w = true →
      pumps (WebhookQueue.dispatch_one w).2 w' → pumps w w'.

(** The invariants of every schedule: the concurrency bound, the capacity
    bound, the depth gauge, and first in, first out. *)
Record invariant (w : world) : Prop := {
  inv_concurrency :
    0 ≤ concurrency w → Z.of_nat (size (processing w)) ≤ concurrency w;
  inv_capacity :
    1 ≤ threshold w →
    Z.of_nat (length (queue w)) + Z.of_nat (size (processing w)) ≤ threshold w - 1;
  inv_gauge :
    gauge (trace w) = WebhookQueue.totalItems w;
  inv_fifo :
    handed_out (trace w) ++ map item (queue w) = admitted (trace w)
}.

(** [processing] is [s]. *)
Definition same_processing (s : gset Qc) (w : world) : Prop := processing w = s.

Definition awaiting (inv : invocation) : bool :=
  match inv_phase inv with Awaiting => true | _ => false end.

(** By whom a pending invocation was started: [true] for the dispatch loop,
    [false] for a worker. *)
Definition started_by_loop (inv : invocation) : bool :=
  match inv_then inv with ReleaseToken _ => true | ResumeWorker _ => false end.

(** With a limit of one and no other consumer, at most one invocation is
    pending, it holds the one token, and items settle in the order in which
    they were taken off the queue. *)
Record serial (w : world) : Prop := {
  serial_limit : concurrency w = 1;
  serial_started : processed (trace w) = handed_out (trace w);
  serial_slot :
    (processing w = ∅ ∧ invocations w = []) ∨
    (∃ inv id, invocations w = [inv] ∧ inv_then inv = ReleaseToken id ∧
               processing w = {[ id ]});
  serial_settled :
    settled (trace w) ++ map inv_item (List.filter awaiting (invocations w)) =
    processed (trace w)
}.

(** The token the dispatch loop draws when the clock is read for the [n]-th
    time: the number [Date.now() + Math.random()]. *)
Definition token_at (e : environment) (n : nat) : Qc :=
  number_add (Q2Qc (inject_Z (clock e n))) (random e (S n)).

(** Whichever of the first [N] readings of the clock are those of a dispatch,
    no two of the tokens drawn are the same number. *)
Definition distinct_tokens (e : environment) (N : nat) : Prop :=
  ∀ n m, (n < N)%nat → (m < N)%nat → token_at e n = token_at e m → n = m.

(** With the dispatch loop as the only consumer: every pending invocation
    holds a token of its own, [processing] is the set of those tokens, the
    processor has been called with exactly the items handed out, and each item
    it was called with has settled or is still awaited. *)
Record tracked (e : environment) (w : world) : Prop := {
  tracked_env : env w = e;
  tracked_tokens :
    ∃ ns : list nat,
      inv_then <$> invocations w = (λ n, ReleaseToken (token_at e n)) <$> ns ∧
      NoDup ns ∧ Forall (λ n, (n < reads w)%nat) ns ∧
      processing w = list_to_set (token_at e <$> ns);
  tracked_started : processed (trace w) = handed_out (trace w);
  tracked_settled :
    settled (trace w) ++ map inv_item (List.filter awaiting (invocations w))
    ≡ₚ processed (trace w)
}.

(** [n] readings of the clock or of the generator have been taken. *)
Definition read_by (n : nat) (w : world) : Prop := (n ≤ reads w)%nat.

(** ** Closed forms used in the statements *)

(** The two ways [enqueue] leaves the world: the call rejected, and the
    item stored, just before the dispatch loop is triggered. *)
Definition rejected (it : value) (w : world) : world :=
  set_trace (trace w ++ [IncReceived;
                         Log Warn "Queue overload, request rejected" (Some it);
                         IncTooMany]) w.

Definition stored (it : value) (w : world) : world :=
  let q := queue w ++ [{| item := it; enqueuedAt := clock (env w) (reads w) |}] in
  set_trace (trace w ++ [IncReceived;
                         SetQueueLength (Z.of_nat (length q) + Z.of_nat (size (processing w)));
                         Log Info "Enqueued item" (Some it)])
    (set_queue q (set_reads (S (reads w)) w)).

(** What [processWithRetry] makes of a random number: a delay in
    milliseconds, and whether an attempt fails. *)
Definition delay_of (r : Qc) : Z := (Qfloor (r * Q2Qc (inject_Z 201))%Qc + 100)%Z.
Definition fails (r : Qc) : bool := bool_decide (r < Q2Qc (1 # 10))%Qc.

(** [{ success: true, item }] *)
Definition processed_result (it : value) : value :=
  VObject (OCons "success" (VBool true) (OCons "item" it ONil)).

(** ** Examples *)

(** An environment to run examples in: the clock advances by one millisecond
    per reading and the generator always returns one half. *)
Definition steady : environment :=
  {| clock := λ n, 1700000000000 + Z.of_nat n;
     random := λ _, Q2Qc (1 # 2);
     CONCURRENCY := 10;
     OVERLOAD_THRESHOLD := 100 |}.

(** [new WorkerPool(queue)] *)
Definition default_options : pool_options :=
  {| opt_concurrency := None; opt_disableQueueProcessing := None |}.

(** A pool built with the default options is started, two items arrive, the
    first worker wakes up, and the first item completes. *)
Definition overlap : list action :=
  [PoolNew default_options; PoolStart;
   Enqueue (VString "a"); Enqueue (VString "b");
   WorkerWake 0; Settle 0 true; React 0].

(** An environment in which ids collide: every reading of the clock falls in
    the same millisecond, and the random numbers, all different, lie within
    [2 ^ -30] of one half.  At this time stamp two neighbouring doubles are
    [2 ^ -12] apart. *)
Definition crowded : environment :=
  {| clock := λ _, 1700000000000;
     random := λ n, Q2Qc (Qmake (2 ^ 39 + Z.of_nat n mod 1024) (2 ^ 40));
     CONCURRENCY := 10;
     OVERLOAD_THRESHOLD := 100 |}.

(** Three items arrive within that millisecond, and the first completes. *)
Definition collide : list action :=
  [Enqueue (VString "a"); Enqueue (VString "b"); Enqueue (VString "c");
   Settle 0 true; React 0].

(** ** Further readings and invariants *)

Definition is_Enqueue (a : action) : bool :=
  match a with Enqueue _ => true | _ => false end.

Definition is_PoolNew (a : action) : bool :=
  match a with PoolNew _ => true | _ => false end.

(** The calls that ask for a drain promise. *)
Definition asks_drain (a : action) : bool :=
  match a with Drain | Shutdown => true | _ => false end.

(** Items whose processing was logged as successful, and as failed. *)
Definition succeeded (t : list event) : list value :=
  omap (logged Info "Processed item successfully") t.
Definition failed (t : list event) : list value :=
  omap (logged Error "Error processing item") t.

(** The dispatch loop has nothing to do: no item waits while a slot is
    free. *)
Definition pumped (w : world) : Prop := WebhookQueue.may_dispatch w = false.

(** Every arrival counted is an item admitted or a rejection counted. *)
Definition balanced (w : world) : Prop :=
  count_event is_IncReceived (trace w) =
  (length (admitted (trace w)) + count_event is_IncTooMany (trace w))%nat.

(** The reading [f] of the world is [a]. *)
Definition unchanged {A : Type} (f : world → A) (a : A) (w : world) : Prop := f w = a.

(** Every item the processor was called with has settled or is still awaited,
    and the processed counter counts the successes logged. *)
Record accounted (w : world) : Prop := {
  accounted_calls :
    settled (trace w) ++ map inv_item (List.filter awaiting (invocations w))
    ≡ₚ processed (trace w);
  accounted_successes :
    count_event is_IncProcessed (trace w) = length (succeeded (trace w))
}.

(** The worker coroutines of the world's pool, none before a pool is built. *)
Definition coroutines (w : world) : list worker := from_option wp_coroutines [] (pool w).

(** Is the invocation awaited by the worker numbered [i]? *)
Definition held_by (i : nat) (inv : invocation) : bool :=
  match inv_then inv with
  | ResumeWorker j => bool_decide (j = i)
  | ReleaseToken _ => false
  end.

(** The number of pending invocations the worker [i] waits for. *)
Definition held (i : nat) (w : world) : nat :=
  length (List.filter (held_by i) (invocations w)).

(** What a worker in state [s] should hold. *)
Definition load (s : option worker) : nat :=
  match s with Some WProcessing => 1%nat | _ => 0%nat end.

(** Every worker holds what its state says. *)
Definition manned (w : world) : Prop := ∀ i, held i w = load (coroutines w !! i).


(** The method a pool has put aside, if there is a pool and it has put one
    aside. *)
Definition put_aside (w : world) : option method :=
  p ← pool w; wp_originalProcessNext p.

(** Either the pool has put the prototype's [processNext] aside, or the queue
    still has it. *)
Definition patch_kept (w : world) : Prop :=
  match put_aside w with
  | Some m => m = PrototypeProcessNext
  | None => processNext_slot w = PrototypeProcessNext
  end.

(** The processor has been called with items handed out by [dequeue] only,
    once each and in that order. *)
Definition called_once (w : world) : Prop :=
  processed (trace w) `sublist_of` handed_out (trace w).

(** Calls that let no item leave the queue unprocessed: no [dequeue()] from
    outside, and no [null] or [undefined] item enqueued. *)
Definition keeps_items (a : action) : bool :=
  match a with
  | Dequeue => false
  | Enqueue it => negb (loosely_null it)
  | _ => true
  end.

(** The processor has been called with every item handed out, and no item
    waiting is [null] or [undefined]. *)
Record served (w : world) : Prop := {
  served_order : processed (trace w) = handed_out (trace w);
  served_queue : Forall (λ en, loosely_null (item en) = false) (queue w)
}.

(** The work still to do: the items waiting and the invocations pending. *)
Definition backlog (w : world) : nat := (length (queue w) + length (invocations w))%nat.

(** The oldest pending invocation settles and its reaction runs, [n] times
    over. *)
Definition completions (ok : bool) (n : nat) : list action :=
  concat (replicate n [Settle 0 ok; React 0]).

(** The dispatch loop has never taken anything. *)
Record stalled (w : world) : Prop := {
  stalled_limit : concurrency w ≤ 0;
  stalled_handed_out : handed_out (trace w) = [];
  stalled_processed : processed (trace w) = [];
  stalled_invocations : invocations w = []
}.

(** Nothing waits, nothing is in flight and the processor has never been
    called. *)
Record vacant (w : world) : Prop := {
  vacant_queue : queue w = [];
  vacant_processing : processing w = ∅;
  vacant_invocations : invocations w = [];
  vacant_processed : processed (trace w) = []
}.

(** A clock that never goes back. *)
Definition monotone (e : environment) : Prop :=
  ∀ n m, (n ≤ m)%nat → clock e n ≤ clock e m.

(** The time [z] is not after any reading of the clock still to come. *)
Definition past (e : environment) (w : world) (z : Z) : Prop :=
  ∀ m, (reads w ≤ m)%nat → z ≤ clock e m.

(** An observation of a time that is not negative, or any other event. *)
Definition time_not_negative (ev : event) : Prop :=
  match ev with
  | ObserveQueueTime ms | ObserveProcessingTime ms => 0 ≤ ms
  | _ => True
  end.

(** The time stamps held by the queue and by the pending invocations are
    past, and no negative time has been observed. *)
Record timely (e : environment) (w : world) : Prop := {
  timely_env : env w = e;
  timely_queue : Forall (λ en, past e w (enqueuedAt en)) (queue w);
  timely_invocations : Forall (λ inv, past e w (inv_startTime inv)) (invocations w);
  timely_trace : Forall time_not_negative (trace w)
}.

(** With the dispatch loop as the only consumer, whether or not two tokens are
    the same number: the processor has been called with exactly the items
    handed out, every pending invocation releases a token when it settles, and
    every token in [processing] is the token of a pending invocation. *)
Record owned (w : world) : Prop := {
  owned_started : processed (trace w) = handed_out (trace w);
  owned_loop : Forall (λ inv, started_by_loop inv = true) (invocations w);
  owned_tokens :
    ∀ id, id ∈ processing w → ReleaseToken id ∈ (inv_then <$> invocations w)
}.

(** ** The monad's laws of motion *)

Section Preservation.
Context {I : world → Prop}.

Lemma preserves_ret {A} (a : A) : preserves I (mret a).
Proof. intros w Hw. exact Hw. Qed.

Lemma preserves_bind {A B} (m : M A) (k : A → M B) :
  preserves I m → (∀ a, preserves I (k a)) → preserves I (m ≫= k).
Proof. intros Hm Hk w Hw. unfold mbind, M_bind. cbn. apply Hk, Hm, Hw. Qed.

Lemma preserves_get : preserves I get.
Proof. intros w Hw. exact Hw. Qed.

Lemma preserves_gets {A} (f : world → A) : preserves I (gets f).
Proof. intros w Hw. exact Hw. Qed.

Lemma preserves_modify (f : world → world) :
  (∀ w, I w → I (f w)) → preserves I (modify f).
Proof. intros Hf w Hw. apply Hf, Hw. Qed.

End Preservation.

(** Two worlds with the same fields are the same world. *)
Lemma world_ext (w1 w2 : world) :
  env w1 = env w2 → reads w1 = reads w2 → queue w1 = queue w2 →
  processing w1 = processing w2 → concurrency w1 = concurrency w2 →
  threshold w1 = threshold w2 → processNext_slot w1 = processNext_slot w2 →
  pool w1 = pool w2 → invocations w1 = invocations w2 → pollers w1 = pollers w2 →
  trace w1 = trace w2 → w1 = w2.
Proof. destruct w1, w2; cbn; intros; subst; reflexivity. Qed.

Ltac same_world :=
  apply world_ext; cbn -[Q2Qc Qcmult Qfloor Qcplus Qclt];
  rewrite <- ?app_assoc; try reflexivity.

(** Unfold the monad down to functions on worlds. *)
Ltac unfold_monad :=
  unfold mbind, M_bind, mret, M_ret, get, gets, modify, emit,
    metrics.incReceived, metrics.incProcessed, metrics.incTooMany,
    metrics.setQueueLength, metrics.observeProcessingTime, metrics.observeQueueTime,
    logger.debug, logger.info, logger.warn, logger.error,
    Date_now, Math_random, modify, emit in *.

(** Take a monadic program apart along its binds and branches, leaving the
    calls that the hint base [pres] does not know. *)
Ltac preserve :=
  repeat first
    [ apply preserves_ret
    | apply preserves_get
    | apply preserves_gets
    | solve [ auto with pres ]
    | apply preserves_bind; [ | intros ? ]
    | match goal with
      | |- preserves _ (if ?b then _ else _) => destruct b
      | |- preserves _ (match ?x with _ => _ end) => destruct x
      end ].

(** ** Readings of the trace, one event at a time *)

Lemma gauge_snoc t e :
  gauge (t ++ [e]) = match e with SetQueueLength n => n | _ => gauge t end.
Proof. unfold gauge. rewrite foldl_app. reflexivity. Qed.

Lemma admitted_snoc t e :
  admitted (t ++ [e]) = admitted t ++ option_list (logged Info "Enqueued item" e).
Proof. unfold admitted. rewrite omap_app. cbn. by destruct (logged _ _ e). Qed.

Lemma handed_out_snoc t e :
  handed_out (t ++ [e]) = handed_out t ++ option_list (logged Debug "Dequeued item" e).
Proof. unfold handed_out. rewrite omap_app. cbn. by destruct (logged _ _ e). Qed.

Lemma processed_snoc t e :
  processed (t ++ [e]) =
  processed t ++ match e with ProcessorCall it => [it] | _ => [] end.
Proof. unfold processed. rewrite omap_app. cbn. by destruct e. Qed.

Lemma quiet_gauge t e : quiet e = true → gauge (t ++ [e]) = gauge t.
Proof. rewrite gauge_snoc. by destruct e. Qed.

Lemma quiet_admitted t e : quiet e = true → admitted (t ++ [e]) = admitted t.
Proof.
  intros Hq. rewrite admitted_snoc.
  destruct e as [| | | | | |lvl msg [it|]| | | |]; cbn; try apply app_nil_r.
  destruct lvl; cbn in *; try apply app_nil_r.
  apply negb_true_iff in Hq. rewrite Hq. apply app_nil_r.
Qed.

Lemma quiet_handed_out t e : quiet e = true → handed_out (t ++ [e]) = handed_out t.
Proof.
  intros Hq. rewrite handed_out_snoc.
  destruct e as [| | | | | |lvl msg [it|]| | | |]; cbn; try apply app_nil_r.
  destruct lvl; cbn in *; try apply app_nil_r.
  apply negb_true_iff in Hq. rewrite Hq. apply app_nil_r.
Qed.

(** ** The invariants, operation by operation *)

Lemma invariant_emit e : quiet e = true → preserves invariant (emit e).
Proof.
  intros Hq w [Hc Hk Hg Hf]. split; cbn; try assumption.
  - rewrite quiet_gauge by assumption. exact Hg.
  - rewrite quiet_handed_out, quiet_admitted by assumption. exact Hf.
Qed.

Lemma invariant_Date_now : preserves invariant Date_now.
Proof. intros w [Hc Hk Hg Hf]. split; assumption. Qed.

Lemma invariant_Math_random : preserves invariant Math_random.
Proof. intros w [Hc Hk Hg Hf]. split; assumption. Qed.

Lemma invariant_set_invocations l w : invariant w → invariant (set_invocations l w).
Proof. intros [Hc Hk Hg Hf]. split; assumption. Qed.

Lemma invariant_set_pollers l w : invariant w → invariant (set_pollers l w).
Proof. intros [Hc Hk Hg Hf]. split; assumption. Qed.

Lemma invariant_set_pool p w : invariant w → invariant (set_pool p w).
Proof. intros [Hc Hk Hg Hf]. split; assumption. Qed.

Lemma invariant_set_processNext m w : invariant w → invariant (set_processNext m w).
Proof. intros [Hc Hk Hg Hf]. split; assumption. Qed.

Lemma invariant_dequeue : preserves invariant WebhookQueue.dequeue.
Proof.
  intros w [Hc Hk Hg Hf]. unfold WebhookQueue.dequeue. unfold_monad. cbn.
  destruct (queue w) as [|e rest] eqn:Hq; cbn.
  - split; rewrite ?Hq; assumption.
  - cbn in *. split; cbn.
    + exact Hc.
    + intros Ht. specialize (Hk Ht). lia.
    + rewrite gauge_snoc, gauge_snoc. reflexivity.
    + rewrite !handed_out_snoc, !admitted_snoc. cbn.
      rewrite !app_nil_r, <- Hf, <- app_assoc. reflexivity.
Qed.

Lemma invariant_processItem it next : preserves invariant (WebhookQueue.processItem it next).
Proof.
  intros w [Hc Hk Hg Hf]. unfold WebhookQueue.processItem. unfold_monad. cbn.
  split; cbn; try assumption.
  - rewrite gauge_snoc. exact Hg.
  - rewrite handed_out_snoc, admitted_snoc. cbn. rewrite !app_nil_r. exact Hf.
Qed.

Lemma may_dispatch_true w :
  WebhookQueue.may_dispatch w = true ↔
  Z.of_nat (size (processing w)) < concurrency w ∧ queue w ≠ [].
Proof.
  unfold WebhookQueue.may_dispatch.
  rewrite andb_true_iff, !bool_decide_eq_true.
  destruct (queue w); cbn; split; intros [? ?]; split; try done; lia.
Qed.

Lemma size_add_token (id : Qc) (s : gset Qc) : (size ({[ id ]} ∪ s) ≤ S (size s))%nat.
Proof.
  destruct (decide (id ∈ s)) as [Hin|Hout].
  - rewrite (subseteq_union_1_L {[ id ]} s) by (by apply singleton_subseteq_l). lia.
  - rewrite size_union by (by apply disjoint_singleton_l).
    rewrite size_singleton. lia.
Qed.

Lemma size_remove_token (id : Qc) (s : gset Qc) : (size (s ∖ {[ id ]}) ≤ size s)%nat.
Proof. apply subseteq_size. intros x Hx. by apply elem_of_difference in Hx as [? _]. Qed.

Lemma invariant_dispatch_one w :
  WebhookQueue.may_dispatch w = true → invariant w →
  invariant (WebhookQueue.dispatch_one w).2.
Proof.
  intros Hgo [Hc Hk Hg Hf]. apply may_dispatch_true in Hgo as [Hlt Hne].
  unfold WebhookQueue.dispatch_one, WebhookQueue.dequeue, WebhookQueue.processItem.
  unfold_monad. cbn.
  destruct (queue w) as [|e rest] eqn:Hq; [done|]. cbn in *.
  match goal with |- context [ {[ ?x ]} ∪ processing w ] => pose proof (size_add_token x (processing w)) end.
  split; cbn.
  - intros _. lia.
  - intros Ht. specialize (Hk Ht). lia.
  - rewrite gauge_snoc, gauge_snoc. reflexivity.
  - rewrite !handed_out_snoc, !admitted_snoc. cbn.
    rewrite !app_nil_r, <- Hf, <- app_assoc. reflexivity.
Qed.

(** Whatever holds before the loop and survives one turn holds after it. *)
Lemma dispatch_loop_preserves (I : world → Prop) :
  (∀ w, WebhookQueue.may_dispatch w = true → I w → I (WebhookQueue.dispatch_one w).2) →
  ∀ turns, preserves I (WebhookQueue.dispatch_loop turns).
Proof.
  intros Hturn turns. induction turns as [|turns IH]; intros w Hw; cbn.
  - exact Hw.
  - unfold mbind, M_bind, get. cbn.
    destruct (WebhookQueue.may_dispatch w) eqn:Hgo; cbn.
    + apply IH, Hturn; assumption.
    + exact Hw.
Qed.

Lemma _scheduleProcessing_preserves (I : world → Prop) :
  (∀ w, WebhookQueue.may_dispatch w = true → I w → I (WebhookQueue.dispatch_one w).2) →
  preserves I WebhookQueue._scheduleProcessing.
Proof.
  intros Hturn w Hw. unfold WebhookQueue._scheduleProcessing.
  unfold mbind, M_bind, gets. cbn. by apply dispatch_loop_preserves.
Qed.

Lemma invariant__scheduleProcessing : preserves invariant WebhookQueue._scheduleProcessing.
Proof. apply _scheduleProcessing_preserves, invariant_dispatch_one. Qed.

Lemma invariant_on_finally id : preserves invariant (WebhookQueue.on_finally id).
Proof.
  unfold WebhookQueue.on_finally.
  intros w [Hc Hk Hg Hf]. unfold mbind at 1 2 3, M_bind. cbn.
  apply invariant__scheduleProcessing.
  pose proof (size_remove_token id (processing w)).
  unfold_monad. split; cbn.
  - intros H0. specialize (Hc H0). lia.
  - intros Ht. specialize (Hk Ht). lia.
  - rewrite gauge_snoc. reflexivity.
  - rewrite handed_out_snoc, admitted_snoc. cbn. rewrite !app_nil_r. exact Hf.
Qed.

Lemma invariant_enqueue it : preserves invariant (WebhookQueue.enqueue it).
Proof.
  intros w [Hc Hk Hg Hf]. unfold WebhookQueue.enqueue.
  unfold mbind at 1 2, M_bind, get. cbn.
  case_bool_decide as Hfull.
  - unfold_monad. cbn. split; cbn; try assumption.
    + rewrite !gauge_snoc. exact Hg.
    + rewrite !handed_out_snoc, !admitted_snoc. cbn. rewrite !app_nil_r. exact Hf.
  - unfold mbind at 1 2 3 4 5 6, M_bind. cbn.
    apply invariant__scheduleProcessing.
    unfold_monad. cbn in *. split; cbn.
    + exact Hc.
    + intros Ht. rewrite length_app. cbn. lia.
    + rewrite !gauge_snoc. reflexivity.
    + rewrite !handed_out_snoc, !admitted_snoc. cbn.
      rewrite !app_nil_r, map_app, app_assoc, Hf. reflexivity.
Qed.

Create HintDb pres.

#[local] Hint Resolve invariant_Date_now invariant_Math_random invariant_dequeue
  invariant_processItem invariant__scheduleProcessing invariant_on_finally
  invariant_enqueue : pres.
#[local] Hint Extern 1 (preserves invariant (modify _)) =>
  apply preserves_modify; intros;
  first [ apply invariant_set_invocations | apply invariant_set_pollers
        | apply invariant_set_pool | apply invariant_set_processNext ]; assumption : pres.
#[local] Hint Extern 1 (preserves invariant (emit _)) =>
  apply invariant_emit; reflexivity : pres.
#[local] Hint Extern 1 (preserves invariant (logger.info _ _)) =>
  apply invariant_emit; reflexivity : pres.
#[local] Hint Extern 1 (preserves invariant (logger.warn _ _)) =>
  apply invariant_emit; reflexivity : pres.
#[local] Hint Extern 1 (preserves invariant (logger.error _ _)) =>
  apply invariant_emit; reflexivity : pres.
#[local] Hint Extern 1 (preserves invariant metrics.incProcessed) =>
  apply invariant_emit; reflexivity : pres.
#[local] Hint Extern 1 (preserves invariant (metrics.observeProcessingTime _)) =>
  apply invariant_emit; reflexivity : pres.

Lemma invariant_workerLoop i : preserves invariant (WorkerPool.workerLoop i).
Proof. unfold WorkerPool.workerLoop, WorkerPool.park, update_pool. preserve. Qed.
#[local] Hint Resolve invariant_workerLoop : pres.

Lemma invariant_spawn n : preserves invariant (WorkerPool.spawn n).
Proof. induction n as [|n IH]; cbn; unfold update_pool; preserve. Qed.
#[local] Hint Resolve invariant_spawn : pres.

Lemma invariant_perform a : preserves invariant (perform a).
Proof.
  destruct a; cbn;
    unfold WebhookQueue.processNext, settle, react, WebhookQueue.drain,
      WebhookQueue.shutdown, WebhookQueue.checkQueue, WorkerPool.constructor,
      WorkerPool.start, WorkerPool.stop, WorkerPool.stop_resume, worker_wake,
      WorkerPool.workerLoop_resume, WebhookQueue.processItem_resume, update_pool;
    preserve.
Qed.

Lemma invariant_created e c t : invariant (createWebhookQueue e c t).
Proof.
  split; unfold WebhookQueue.totalItems; cbn; rewrite ?size_empty; done || lia.
Qed.

Lemma run_snoc acts a w : run (acts ++ [a]) w = exec a (run acts w).
Proof. unfold run. rewrite foldl_app. reflexivity. Qed.

Lemma run_preserves (I : world → Prop) acts :
  (∀ a, preserves I (perform a)) → ∀ w, I w → I (run acts w).
Proof.
  intros Hstep w Hw. induction acts as [|a acts IH] using rev_ind.
  - exact Hw.
  - rewrite run_snoc. apply Hstep, IH.
Qed.

Lemma invariant_run e c t acts : invariant (run acts (createWebhookQueue e c t)).
Proof. apply run_preserves; [apply invariant_perform | apply invariant_created]. Qed.

(** ** The dispatch loop runs to its end *)

Lemma dispatch_one_queue w : queue (WebhookQueue.dispatch_one w).2 = tail (queue w).
Proof.
  unfold WebhookQueue.dispatch_one, WebhookQueue.dequeue, WebhookQueue.processItem.
  unfold_monad. cbn. destruct (queue w) eqn:Hq; cbn; rewrite ?Hq; reflexivity.
Qed.

Lemma may_dispatch_empty w : queue w = [] → WebhookQueue.may_dispatch w = false.
Proof.
  intros Hq. unfold WebhookQueue.may_dispatch. rewrite Hq. cbn.
  apply andb_false_r.
Qed.

Lemma dispatch_loop_pumps turns w :
  (length (queue w) ≤ turns)%nat → pumps w (WebhookQueue.dispatch_loop turns w).2.
Proof.
  revert w. induction turns as [|turns IH]; intros w Hlen; cbn.
  - apply pumps_done, may_dispatch_empty.
    destruct (queue w); [reflexivity | cbn in Hlen; lia].
  - unfold mbind, M_bind, get. cbn.
    destruct (WebhookQueue.may_dispatch w) eqn:Hgo; cbn.
    + apply pumps_turn; [exact Hgo|]. apply IH.
      rewrite dispatch_one_queue. destruct (queue w); cbn in *; lia.
    + by apply pumps_done.
Qed.

Lemma _scheduleProcessing_pumps w : pumps w (WebhookQueue._scheduleProcessing w).2.
Proof.
  unfold WebhookQueue._scheduleProcessing, mbind, M_bind, gets. cbn.
  by apply dispatch_loop_pumps.
Qed.

Lemma pumps_stops w w' : pumps w w' → WebhookQueue.may_dispatch w' = false.
Proof. induction 1; assumption. Qed.

Lemma _scheduleProcessing_idle w :
  WebhookQueue.may_dispatch w = false → WebhookQueue._scheduleProcessing w = (tt, w).
Proof.
  intros Hgo. unfold WebhookQueue._scheduleProcessing, mbind, M_bind, gets. cbn.
  destruct (length (queue w)); cbn; [reflexivity|].
  unfold mbind, M_bind, get. cbn. by rewrite Hgo.
Qed.

Lemma dispatch_loop_enough turns w :
  (length (queue w) ≤ turns)%nat →
  WebhookQueue.dispatch_loop turns w = WebhookQueue.dispatch_loop (length (queue w)) w.
Proof.
  revert w. induction turns as [|turns IH]; intros w Hlen.
  - destruct (queue w); cbn in *; [reflexivity | lia].
  - destruct (queue w) as [|e rest] eqn:Hq; cbn.
    + unfold mbind, M_bind, get. cbn. by rewrite (may_dispatch_empty w Hq).
    + unfold mbind, M_bind, get. cbn.
      destruct (WebhookQueue.may_dispatch w); [|reflexivity]. cbn.
      pose proof (dispatch_one_queue w) as Hq'. rewrite Hq in Hq'. cbn in Hq'.
      rewrite IH by (rewrite Hq'; cbn in Hlen; lia).
      by rewrite Hq'.
Qed.

Lemma _scheduleProcessing_turn w :
  WebhookQueue.may_dispatch w = true →
  WebhookQueue._scheduleProcessing w =
  WebhookQueue._scheduleProcessing (WebhookQueue.dispatch_one w).2.
Proof.
  intros Hgo. unfold WebhookQueue._scheduleProcessing, mbind, M_bind, gets. cbn.
  destruct (queue w) as [|e rest] eqn:Hq.
  - by rewrite (may_dispatch_empty w Hq) in Hgo.
  - cbn. unfold mbind, M_bind, get. cbn. rewrite Hgo. cbn.
    pose proof (dispatch_one_queue w) as Hq'. rewrite Hq in Hq'. cbn in Hq'.
    by rewrite Hq'.
Qed.

(** ** The counters and the drain promises *)

Lemma since_refl w : since (trace w) [] w.
Proof. exists []. by rewrite app_nil_r. Qed.

Lemma since_frame t0 cs w w' : trace w' = trace w → since t0 cs w → since t0 cs w'.
Proof. intros Heq (d & Hd & Hcs). exists d. by rewrite Heq. Qed.

Lemma since_emit t0 cs e :
  is_counter e = false → preserves (since t0 cs) (emit e).
Proof.
  intros He w (d & Hd & Hcs). exists (d ++ [e]). cbn. split.
  - by rewrite Hd, app_assoc.
  - unfold counters in *. rewrite List.filter_app, Hcs. cbn. rewrite He. apply app_nil_r.
Qed.

Ltac unfold_sinks :=
  unfold metrics.incReceived, metrics.incProcessed, metrics.incTooMany,
    metrics.setQueueLength, metrics.observeProcessingTime, metrics.observeQueueTime,
    logger.debug, logger.info, logger.warn, logger.error in *.

#[local] Hint Extern 1 (preserves (since _ _) (emit _)) =>
  apply since_emit; reflexivity : pres.
#[local] Hint Extern 1 (preserves (since _ _) (modify _)) =>
  apply preserves_modify; intros ? ?; eapply since_frame; [ | eassumption ]; reflexivity : pres.
#[local] Hint Extern 1 (preserves (since _ _) Date_now) =>
  intros ? ?; eapply since_frame; [ | eassumption ]; reflexivity : pres.
#[local] Hint Extern 1 (preserves (since _ _) Math_random) =>
  intros ? ?; eapply since_frame; [ | eassumption ]; reflexivity : pres.

Lemma since_dequeue t0 cs : preserves (since t0 cs) WebhookQueue.dequeue.
Proof. unfold WebhookQueue.dequeue. unfold_sinks. preserve. Qed.

Lemma since_processItem t0 cs it next :
  preserves (since t0 cs) (WebhookQueue.processItem it next).
Proof. unfold WebhookQueue.processItem. preserve. Qed.

#[local] Hint Resolve since_dequeue since_processItem : pres.

Lemma since__scheduleProcessing t0 cs :
  preserves (since t0 cs) WebhookQueue._scheduleProcessing.
Proof.
  apply _scheduleProcessing_preserves. intros w _.
  unfold WebhookQueue.dispatch_one. unfold_sinks.
  assert (preserves (since t0 cs) WebhookQueue.dispatch_one) as H; [|exact (H w)].
  unfold WebhookQueue.dispatch_one. unfold_sinks. preserve.
Qed.

#[local] Hint Resolve since__scheduleProcessing : pres.

Lemma since_on_finally t0 cs id : preserves (since t0 cs) (WebhookQueue.on_finally id).
Proof. unfold WebhookQueue.on_finally. unfold_sinks. preserve. Qed.

Lemma since_workerLoop t0 cs i : preserves (since t0 cs) (WorkerPool.workerLoop i).
Proof. unfold WorkerPool.workerLoop, WorkerPool.park. preserve. Qed.

#[local] Hint Resolve since_on_finally since_workerLoop : pres.

Lemma since_spawn t0 cs n : preserves (since t0 cs) (WorkerPool.spawn n).
Proof. induction n as [|n IH]; cbn; preserve. Qed.

#[local] Hint Resolve since_spawn : pres.

Lemma enqueue_unfold it w :
  WebhookQueue.enqueue it w =
  if bool_decide (Z.of_nat (length (queue w)) + Z.of_nat (size (processing w)) + 1
                  >= threshold w)
  then (Thrown QueueOverloadedError, rejected it w)
  else (Returned tt, (WebhookQueue._scheduleProcessing (stored it w)).2).
Proof.
  unfold WebhookQueue.enqueue.
  unfold mbind at 1 2, M_bind, get. cbn.
  destruct (bool_decide _).
  - unfold_monad. cbn. f_equal. unfold rejected, set_trace. cbn. f_equal.
    by rewrite <- !app_assoc.
  - unfold mbind at 1 2 3 4 5 6, M_bind. cbn.
    unfold mret, M_ret. cbn. f_equal. f_equal. f_equal.
    unfold_monad. unfold stored, set_trace, WebhookQueue.totalItems. cbn. f_equal.
    by rewrite <- !app_assoc.
Qed.

(** What [enqueue] adds to the trace: the arrival first, and after it no
    increment but the rejection, if it rejects. *)
Lemma since_enqueue w it :
  since (trace w ++ [IncReceived])
        (match (WebhookQueue.enqueue it w).1 with
         | Thrown _ => [IncTooMany]
         | Returned _ => []
         end)
        (WebhookQueue.enqueue it w).2.
Proof.
  rewrite enqueue_unfold. destruct (bool_decide _); cbn.
  - exists [Log Warn "Queue overload, request rejected" (Some it); IncTooMany].
    split; [|reflexivity]. by rewrite <- !app_assoc.
  - apply since__scheduleProcessing. unfold stored. cbn.
    eexists [SetQueueLength _; Log Info "Enqueued item" (Some it)].
    split; [|reflexivity]. by rewrite <- !app_assoc.
Qed.

Lemma count_event_counters p t :
  (∀ e, p e = true → is_counter e = true) →
  count_event p t = count_event p (counters t).
Proof.
  intros Hp. unfold count_event, counters.
  induction t as [|e t IH]; [reflexivity|]. cbn.
  destruct (p e) eqn:He, (is_counter e) eqn:Hc; cbn; rewrite ?He; cbn;
    try (by rewrite IH).
  apply Hp in He. congruence.
Qed.

(** ** Settlement of an invocation *)

Lemma settle_unfold w k inv ok :
  invocations w !! k = Some inv → inv_phase inv = Awaiting →
  exec (Settle k ok) w =
  let w' := (WebhookQueue.processItem_resume inv ok w).2 in
  set_invocations
    (<[ k := set_phase (if ok then Fulfilled else Rejected) inv ]> (invocations w')) w'.
Proof.
  intros Hk Hph. unfold exec. cbn. unfold settle.
  unfold mbind at 1, M_bind, get. cbn. rewrite Hk, Hph.
  unfold WebhookQueue.processItem_resume. destruct ok; unfold_monad; reflexivity.
Qed.

Lemma react_release_unfold w k inv id :
  invocations w !! k = Some inv → inv_phase inv ≠ Awaiting →
  inv_then inv = ReleaseToken id →
  exec (React k) w =
  (WebhookQueue.on_finally id (set_invocations (delete k (invocations w)) w)).2.
Proof.
  intros Hk Hph Hthen. unfold exec. cbn. unfold react.
  unfold mbind at 1, M_bind, get. cbn. rewrite Hk.
  destruct (inv_phase inv); [done| |]; rewrite Hthen; reflexivity.
Qed.

Lemma on_finally_unfold id w :
  WebhookQueue.on_finally id w =
  WebhookQueue._scheduleProcessing
    (set_trace (trace w ++ [SetQueueLength
                   (Z.of_nat (length (queue w)) + Z.of_nat (size (processing w ∖ {[ id ]})))])
       (set_processing (processing w ∖ {[ id ]}) w)).
Proof. reflexivity. Qed.

Lemma processItem_resume_counters inv (ok : bool) w :
  since (trace w) (if ok then [IncProcessed] else @nil event)
        (WebhookQueue.processItem_resume inv ok w).2.
Proof.
  unfold WebhookQueue.processItem_resume. destruct ok; unfold_monad; cbn.
  - eexists [IncProcessed; ObserveProcessingTime _; Log Info _ _].
    split; [|reflexivity]. by rewrite <- !app_assoc.
  - eexists [Log Error _ _]. split; reflexivity.
Qed.

Lemma since_processItem_resume_failed t0 cs inv :
  preserves (since t0 cs) (WebhookQueue.processItem_resume inv false).
Proof. unfold WebhookQueue.processItem_resume. unfold_sinks. preserve. Qed.

#[local] Hint Resolve since_processItem_resume_failed : pres.

(** What [drain()] and its interval callback add to the trace. *)
Lemma drain_unfold b w :
  WebhookQueue.drain b w =
  if WebhookQueue.idle w then
    (tt, set_trace (trace w ++ DrainResolved ::
                      if b then [Log Info "All queued items processed, queue shutdown complete" None]
                      else []) w)
  else (tt, set_pollers (pollers w ++ [b]) w).
Proof.
  unfold WebhookQueue.drain. unfold mbind at 1, M_bind, get. cbn -[WebhookQueue.idle].
  destruct (WebhookQueue.idle w); [|reflexivity].
  destruct b; unfold_monad; unfold modify; cbn; f_equal; same_world.
Qed.

Lemma checkQueue_unfold (j : nat) (w : world) :
  WebhookQueue.checkQueue j w =
  match (pollers w !! j : option bool) with
  | Some b =>
      if WebhookQueue.idle w then
        (tt, set_trace (trace w ++ DrainResolved ::
                          if b then [Log Info "All queued items processed, queue shutdown complete" None]
                          else [])
               (set_pollers (delete j (pollers w)) w))
      else (tt, w)
  | None => (tt, w)
  end.
Proof.
  unfold WebhookQueue.checkQueue. unfold mbind at 1, M_bind, get. cbn -[WebhookQueue.idle].
  destruct (pollers w !! j) as [b|]; [|reflexivity].
  destruct (WebhookQueue.idle w); [|reflexivity].
  destruct b; unfold_monad; unfold modify; cbn; f_equal; same_world.
Qed.

Lemma shutdown_unfold w :
  WebhookQueue.shutdown w =
  WebhookQueue.drain true
    (set_trace (trace w ++ [Log Info "Starting graceful shutdown of queue" None]) w).
Proof. reflexivity. Qed.

Lemma since_drain b w :
  since (trace w) (if WebhookQueue.idle w then [DrainResolved] else []) (WebhookQueue.drain b w).2.
Proof.
  rewrite drain_unfold. destruct (WebhookQueue.idle w); cbn.
  - eexists. split; [reflexivity|]. by destruct b.
  - eapply since_frame; [|apply since_refl]. reflexivity.
Qed.

Lemma since_checkQueue (j : nat) (w : world) :
  since (trace w)
        (if WebhookQueue.idle w && bool_decide (is_Some (pollers w !! j))
         then [DrainResolved] else [])
        (WebhookQueue.checkQueue j w).2.
Proof.
  rewrite checkQueue_unfold. destruct (pollers w !! j) as [b|]; cbn.
  - destruct (WebhookQueue.idle w); cbn; [|apply since_refl].
    eexists. split; [reflexivity|]. by destruct b.
  - rewrite andb_false_r. apply since_refl.
Qed.

Lemma since_shutdown w :
  since (trace w) (if WebhookQueue.idle w then [DrainResolved] else []) (WebhookQueue.shutdown w).2.
Proof.
  rewrite shutdown_unfold.
  pose proof (since_drain true
    (set_trace (trace w ++ [Log Info "Starting graceful shutdown of queue" None]) w))
    as (d & Hd & Hcs).
  exists (Log Info "Starting graceful shutdown of queue" None :: d). split.
  - rewrite Hd. cbn. by rewrite <- app_assoc.
  - exact Hcs.
Qed.

(** No call but [enqueue] and [drain] and no job but a fulfilled processor
    promise and a drain's interval touches a counter or resolves a drain. *)
Lemma since_perform t0 cs a :
  (∀ it, a ≠ Enqueue it) → (∀ k, a ≠ Settle k true) → drains a = false →
  preserves (since t0 cs) (perform a).
Proof.
  intros Henq Hset Hdrain.
  destruct a as [it| | |k [|]| | | | | | | | |]; try discriminate; cbn;
    try (by destruct (Henq it)); try (by destruct (Hset k));
    unfold WebhookQueue.processNext, settle, react, WorkerPool.constructor,
      WorkerPool.start, WorkerPool.stop, WorkerPool.stop_resume, worker_wake,
      WorkerPool.workerLoop_resume;
    unfold_sinks; preserve.
Qed.

Lemma count_event_since p t0 cs w :
  (∀ e, p e = true → is_counter e = true) →
  since t0 cs w →
  count_event p (trace w) = (count_event p t0 + count_event p cs)%nat.
Proof.
  intros Hp (d & Hd & Hcs). rewrite Hd. unfold count_event at 1.
  rewrite List.filter_app, length_app. fold (count_event p t0) (count_event p d).
  by rewrite (count_event_counters p d), Hcs.
Qed.

Lemma since_exec a w :
  ∃ cs, since (trace w) cs (exec a w) ∧
        match a with
        | Enqueue it =>
            cs = IncReceived :: match (WebhookQueue.enqueue it w).1 with
                                | Thrown _ => [IncTooMany]
                                | Returned _ => []
                                end
        | Settle k ok =>
            cs = match invocations w !! k with
                 | Some inv =>
                     match inv_phase inv with
                     | Awaiting => if ok then [IncProcessed] else []
                     | _ => []
                     end
                 | None => []
                 end
        | Drain | Shutdown => cs = if WebhookQueue.idle w then [DrainResolved] else []
        | IntervalTick j =>
            cs = if WebhookQueue.idle w && bool_decide (is_Some (pollers w !! j))
                 then [DrainResolved] else []
        | _ => cs = []
        end.
Proof.
  assert ((∀ it, a ≠ Enqueue it) → (∀ k, a ≠ Settle k true) → drains a = false →
          since (trace w) [] (exec a w)) as Hsilent
    by (intros; apply since_perform; [assumption..|apply since_refl]).
  destruct a as [it| | |k [|]|k| | |j|opts| | |j|i];
    try (exists []; split; [apply Hsilent; intros; discriminate || reflexivity|reflexivity]).
  - eexists. split; [|reflexivity]. unfold exec. cbn. unfold mbind, M_bind, mret, M_ret. cbn.
    destruct (since_enqueue w it) as (d & Hd & Hcs). exists (IncReceived :: d).
    split; [by rewrite Hd, <- app_assoc|]. unfold counters in *. cbn. by rewrite Hcs.
  - eexists. split; [|reflexivity].
    destruct (invocations w !! k) as [inv|] eqn:Hk.
    + destruct (inv_phase inv) eqn:Hph.
      * rewrite (settle_unfold w k inv true Hk Hph). cbn.
        apply (processItem_resume_counters inv true w).
      * unfold exec. cbn. unfold settle. unfold mbind, M_bind, get. cbn.
        rewrite Hk, Hph. apply since_refl.
      * unfold exec. cbn. unfold settle. unfold mbind, M_bind, get. cbn.
        rewrite Hk, Hph. apply since_refl.
    + unfold exec. cbn. unfold settle. unfold mbind, M_bind, get. cbn.
      rewrite Hk. apply since_refl.
  - exists []. split; [|by destruct (invocations w !! k) as [[? ? ? []]|]].
    apply Hsilent; intros; discriminate || reflexivity.
  - eexists. split; [apply since_drain|reflexivity].
  - eexists. split; [apply since_shutdown|reflexivity].
  - eexists. split; [apply since_checkQueue|reflexivity].
Qed.

Lemma count_IncProcessed_exec a w :
  count_event is_IncProcessed (trace (exec a w)) ≠ count_event is_IncProcessed (trace w) →
  ∃ k inv, a = Settle k true ∧ invocations w !! k = Some inv ∧ inv_phase inv = Awaiting.
Proof.
  intros Hne. destruct (since_exec a w) as (cs & Hs & Hcs).
  rewrite (count_event_since is_IncProcessed _ _ _ ltac:(by intros []) Hs) in Hne.
  assert (count_event is_IncProcessed cs ≠ 0%nat) as Hcount by lia. clear Hne Hs.
  destruct a as [it| | |k ok|k| | |j|opts| | |j|i]; subst cs; try done.
  - by destruct (WebhookQueue.enqueue it w).1.
  - destruct (invocations w !! k) as [inv|] eqn:Hk; [|done].
    destruct (inv_phase inv) eqn:Hph; [|done..].
    destruct ok; [|done]. by exists k, inv.
  - by destruct (WebhookQueue.idle w).
  - by destruct (WebhookQueue.idle w).
  - by destruct (WebhookQueue.idle w && _).
Qed.

Lemma settle_fields w k inv ok :
  invocations w !! k = Some inv → inv_phase inv = Awaiting →
  let w1 := exec (Settle k ok) w in
  queue w1 = queue w ∧ processing w1 = processing w ∧
  concurrency w1 = concurrency w ∧ threshold w1 = threshold w ∧
  pool w1 = pool w ∧ pollers w1 = pollers w ∧ processNext_slot w1 = processNext_slot w ∧
  invocations w1 = <[ k := set_phase (if ok then Fulfilled else Rejected) inv ]> (invocations w).
Proof.
  intros Hk Hph. cbv zeta. rewrite (settle_unfold w k inv ok Hk Hph).
  unfold WebhookQueue.processItem_resume. destruct ok; unfold_monad; cbn; done.
Qed.

(** ** The worker pool leaves the in-flight set alone *)

#[local] Hint Extern 1 (preserves (same_processing _) (emit _)) =>
  intros ? ?; assumption : pres.
#[local] Hint Extern 1 (preserves (same_processing _) Date_now) =>
  intros ? ?; assumption : pres.
#[local] Hint Extern 1 (preserves (same_processing _) (modify (set_queue _))) =>
  intros ? ?; assumption : pres.
#[local] Hint Extern 1 (preserves (same_processing _) (modify (set_invocations _))) =>
  intros ? ?; assumption : pres.
#[local] Hint Extern 1 (preserves (same_processing _) (modify (λ w, set_invocations _ w))) =>
  intros ? ?; assumption : pres.
#[local] Hint Extern 1 (preserves (same_processing _) (modify (update_pool _))) =>
  intros ? ?; assumption : pres.

Lemma same_processing_dequeue s : preserves (same_processing s) WebhookQueue.dequeue.
Proof. unfold WebhookQueue.dequeue. unfold_sinks. preserve. Qed.

Lemma same_processing_processItem s it next :
  preserves (same_processing s) (WebhookQueue.processItem it next).
Proof. unfold WebhookQueue.processItem. preserve. Qed.

#[local] Hint Resolve same_processing_dequeue same_processing_processItem : pres.

Lemma same_processing_workerLoop s i : preserves (same_processing s) (WorkerPool.workerLoop i).
Proof. unfold WorkerPool.workerLoop, WorkerPool.park. preserve. Qed.

#[local] Hint Resolve same_processing_workerLoop : pres.

Lemma same_processing_settle s k ok : preserves (same_processing s) (settle k ok).
Proof. unfold settle, WebhookQueue.processItem_resume. unfold_sinks. preserve. Qed.

Lemma drain_idle w :
  WebhookQueue.idle w = true →
  WebhookQueue.drain false w = (tt, set_trace (trace w ++ [DrainResolved]) w).
Proof.
  intros Hidle. unfold WebhookQueue.drain. unfold mbind at 1, M_bind, get.
  cbn -[WebhookQueue.idle]. by rewrite Hidle.
Qed.

(** ** One at a time: the queue's own dispatch with a limit of one *)

Lemma processed_app t d : processed (t ++ d) = processed t ++ processed d.
Proof. apply omap_app. Qed.

Lemma handed_out_app t d : handed_out (t ++ d) = handed_out t ++ handed_out d.
Proof. apply omap_app. Qed.

Lemma admitted_app t d : admitted (t ++ d) = admitted t ++ admitted d.
Proof. apply omap_app. Qed.

Lemma settled_app t d : settled (t ++ d) = settled t ++ settled d.
Proof. apply omap_app. Qed.

Lemma serial_frame w w' :
  concurrency w' = concurrency w → processing w' = processing w →
  invocations w' = invocations w → trace w' = trace w →
  serial w → serial w'.
Proof. intros Hc Hp Hi Ht [H1 H2 H3 H4]. split; rewrite ?Hc, ?Hp, ?Hi, ?Ht; assumption. Qed.

Lemma serial_appended d w :
  processed d = [] → handed_out d = [] → settled d = [] →
  serial w → serial (set_trace (trace w ++ d) w).
Proof.
  intros Hp Hh Hs [H1 H2 H3 H4]. split; cbn; try assumption.
  - by rewrite processed_app, handed_out_app, Hp, Hh, H2.
  - by rewrite settled_app, processed_app, Hp, Hs, !app_nil_r.
Qed.

Lemma serial_emit e : inert e = true → preserves serial (emit e).
Proof.
  intros He w Hw. apply serial_appended; [..|exact Hw];
    by destruct e as [| | | | | |lvl msg [it|]| | | |].
Qed.

Lemma serial_dispatch_one w :
  WebhookQueue.may_dispatch w = true → serial w → serial (WebhookQueue.dispatch_one w).2.
Proof.
  intros Hgo [H1 H2 H3 H4]. apply may_dispatch_true in Hgo as [Hlt Hne].
  rewrite H1 in Hlt.
  destruct H3 as [[Hp Hi]|(inv & id & Hi & Hthen & Hp)];
    [|rewrite Hp, size_singleton in Hlt; lia].
  unfold WebhookQueue.dispatch_one, WebhookQueue.dequeue, WebhookQueue.processItem.
  unfold_monad. cbn.
  destruct (queue w) as [|e rest] eqn:Hq; [done|]. cbn.
  split; cbn.
  - exact H1.
  - rewrite !processed_app, !handed_out_app. cbn. rewrite !app_nil_r. by rewrite H2.
  - right. eexists _, _. rewrite Hi, Hp. split; [reflexivity|]. split; [reflexivity|].
    cbn. apply union_empty_r_L.
  - rewrite Hi in *. cbn in *. rewrite !settled_app, !processed_app. cbn.
    rewrite !app_nil_r in *. by rewrite H4.
Qed.

Lemma serial__scheduleProcessing : preserves serial WebhookQueue._scheduleProcessing.
Proof. apply _scheduleProcessing_preserves, serial_dispatch_one. Qed.

Lemma serial_enqueue it : preserves serial (WebhookQueue.enqueue it).
Proof.
  intros w Hw. rewrite enqueue_unfold. destruct (bool_decide _); cbn.
  - by apply serial_appended.
  - apply serial__scheduleProcessing.
    apply (serial_frame (set_trace (trace (stored it w)) w)); try reflexivity.
    unfold stored. cbn. by apply serial_appended.
Qed.

Lemma serial_settle k ok : preserves serial (settle k ok).
Proof.
  intros w Hw. unfold settle. unfold mbind at 1, M_bind, get. cbn.
  destruct (invocations w !! k) as [inv|] eqn:Hk; [|exact Hw].
  destruct (inv_phase inv) eqn:Hph; [|exact Hw..].
  destruct Hw as [H1 H2 H3 H4].
  destruct H3 as [[Hp Hi]|(inv' & id & Hi & Hthen & Hp)]; [by rewrite Hi in Hk|].
  rewrite Hi in Hk. destruct k; [|done]. injection Hk as ->.
  rewrite Hi in H4. cbn in H4. unfold awaiting in H4. rewrite Hph in H4. cbn in H4.
  unfold WebhookQueue.processItem_resume. destruct ok; unfold_monad; cbn;
    rewrite Hi; cbn.
  - split; cbn.
    + exact H1.
    + rewrite !processed_app, !handed_out_app. cbn. rewrite !app_nil_r. exact H2.
    + right. eexists _, id. split; [reflexivity|]. split; [exact Hthen|exact Hp].
    + rewrite !settled_app, !processed_app. cbn. rewrite !app_nil_r. exact H4.
  - split; cbn.
    + exact H1.
    + rewrite !processed_app, !handed_out_app. cbn. rewrite !app_nil_r. exact H2.
    + right. eexists _, id. split; [reflexivity|]. split; [exact Hthen|exact Hp].
    + rewrite !settled_app, !processed_app. cbn. rewrite !app_nil_r. exact H4.
Qed.

Lemma serial_react k : preserves serial (react k).
Proof.
  intros w Hw. unfold react. unfold mbind at 1, M_bind, get. cbn.
  destruct (invocations w !! k) as [inv|] eqn:Hk; [|exact Hw].
  destruct Hw as [H1 H2 H3 H4].
  destruct H3 as [[Hp Hi]|(inv' & id & Hi & Hthen & Hp)]; [by rewrite Hi in Hk|].
  rewrite Hi in Hk. destruct k; [|done]. injection Hk as ->.
  assert (inv_phase inv ≠ Awaiting →
          serial (WebhookQueue.on_finally id
                    (set_invocations (delete 0%nat (invocations w)) w)).2) as Hrel.
  { intros Hph. rewrite on_finally_unfold. apply serial__scheduleProcessing.
    rewrite Hi in *. cbn in *. unfold awaiting in H4.
    destruct (inv_phase inv); [done|..]; cbn in H4; rewrite app_nil_r in H4.
    all: split; cbn;
      [exact H1
      |by rewrite processed_app, handed_out_app, H2
      |left; split; [rewrite Hp; apply difference_diag_L|reflexivity]
      |by rewrite settled_app, processed_app, !app_nil_r]. }
  destruct (inv_phase inv) eqn:Hph; cbn.
  - split; assumption || (right; by exists inv, id).
  - rewrite Hthen. unfold mbind, M_bind, modify. cbn. by apply Hrel.
  - rewrite Hthen. unfold mbind, M_bind, modify. cbn. by apply Hrel.
Qed.

#[local] Hint Resolve serial__scheduleProcessing serial_settle serial_react : pres.
#[local] Hint Extern 1 (preserves serial (emit _)) =>
  apply serial_emit; reflexivity : pres.
#[local] Hint Extern 1 (preserves serial (modify _)) =>
  apply preserves_modify; intros ? ?; eapply serial_frame; [..|eassumption]; reflexivity : pres.

Lemma serial_perform a : internal a = true → preserves serial (perform a).
Proof.
  destruct a as [it| | | | | | | | | | | |]; try discriminate; intros _;
    [apply preserves_bind; [apply serial_enqueue|intros; apply preserves_ret]|..];
    cbn -[settle react];
    unfold WebhookQueue.processNext, WebhookQueue.shutdown, WebhookQueue.drain,
      WebhookQueue.checkQueue;
    unfold_sinks; preserve.
Qed.

Lemma run_preserves_internal (I : world → Prop) acts :
  (∀ a, internal a = true → preserves I (perform a)) →
  forallb internal acts = true → ∀ w, I w → I (run acts w).
Proof.
  intros Hstep Hall w Hw. induction acts as [|a acts IH] using rev_ind.
  - exact Hw.
  - rewrite forallb_app in Hall. cbn in Hall.
    apply andb_true_iff in Hall as [Hacts Ha]. rewrite andb_true_r in Ha.
    rewrite run_snoc. by apply Hstep, IH.
Qed.

Lemma serial_created e t : serial (createWebhookQueue e (Some 1) t).
Proof. split; cbn; [reflexivity|reflexivity|by left|reflexivity]. Qed.

Lemma dequeue_unfold w :
  WebhookQueue.dequeue w =
  match queue w with
  | [] => (VNull, w)
  | entry :: rest =>
      (item entry,
       set_trace (trace w ++ [ObserveQueueTime (clock (env w) (reads w) - enqueuedAt entry);
                              SetQueueLength (Z.of_nat (length rest) +
                                              Z.of_nat (size (processing w)));
                              Log Debug "Dequeued item" (Some (item entry))])
         (set_queue rest (set_reads (S (reads w)) w)))
  end.
Proof.
  unfold WebhookQueue.dequeue. unfold_monad. cbn.
  destruct (queue w) as [|entry rest]; [reflexivity|]. cbn. f_equal. same_world.
Qed.

(** ** No reading is taken back *)

#[local] Hint Extern 1 (preserves (read_by _) (modify _)) =>
  apply preserves_modify; intros ? ?; assumption : pres.
#[local] Hint Extern 1 (preserves (read_by _) (emit _)) =>
  apply preserves_modify; intros ? ?; assumption : pres.
#[local] Hint Extern 1 (preserves (read_by _) Date_now) =>
  intros ? ?; unfold read_by in *; cbn; lia : pres.
#[local] Hint Extern 1 (preserves (read_by _) Math_random) =>
  intros ? ?; unfold read_by in *; cbn; lia : pres.

Lemma read_by__scheduleProcessing n : preserves (read_by n) WebhookQueue._scheduleProcessing.
Proof.
  apply _scheduleProcessing_preserves. intros w _.
  assert (preserves (read_by n) WebhookQueue.dispatch_one) as H; [|exact (H w)].
  unfold WebhookQueue.dispatch_one, WebhookQueue.dequeue, WebhookQueue.processItem.
  unfold_sinks. preserve.
Qed.

#[local] Hint Resolve read_by__scheduleProcessing : pres.

Lemma read_by_spawn n k : preserves (read_by n) (WorkerPool.spawn k).
Proof.
  induction k as [|k IH]; cbn;
    unfold WorkerPool.workerLoop, WorkerPool.park, WebhookQueue.dequeue,
      WebhookQueue.processItem;
    unfold_sinks; preserve.
Qed.

#[local] Hint Resolve read_by_spawn : pres.

Lemma read_by_perform n a : preserves (read_by n) (perform a).
Proof.
  destruct a; cbn;
    unfold WebhookQueue.processNext, settle, react, WebhookQueue.shutdown,
      WebhookQueue.drain, WebhookQueue.checkQueue, WorkerPool.constructor,
      WorkerPool.start, WorkerPool.stop, WorkerPool.stop_resume, worker_wake,
      WorkerPool.workerLoop_resume, WebhookQueue.processItem_resume,
      WorkerPool.workerLoop, WorkerPool.park, WebhookQueue.enqueue,
      WebhookQueue.on_finally, WebhookQueue.dequeue, WebhookQueue.processItem;
    unfold_sinks; preserve.
Qed.

Lemma reads_exec a w : (reads w ≤ reads (exec a w))%nat.
Proof. exact (read_by_perform (reads w) a w (le_n _)). Qed.

Lemma reads_run acts w : (reads w ≤ reads (run acts w))%nat.
Proof.
  induction acts as [|a acts IH] using rev_ind; [done|].
  rewrite run_snoc. pose proof (reads_exec a (run acts w)). lia.
Qed.

(** ** Tokens and invocations, when only the dispatch loop takes items *)

Lemma distinct_tokens_le e N M :
  (M ≤ N)%nat → distinct_tokens e N → distinct_tokens e M.
Proof. intros Hle Hinj n m Hn Hm. apply Hinj; lia. Qed.

Lemma distinct_tokens_NoDup e N :
  NoDup (token_at e <$> seq 0 N) → distinct_tokens e N.
Proof.
  intros Hnd n m Hn Hm Heq.
  apply (NoDup_lookup _ n m (token_at e n) Hnd);
    rewrite list_lookup_fmap, lookup_seq_lt by lia; cbn; by rewrite ?Heq.
Qed.

Lemma tracked_frame e w w' :
  env w' = env w → (reads w ≤ reads w')%nat →
  invocations w' = invocations w → processing w' = processing w →
  trace w' = trace w →
  tracked e w → tracked e w'.
Proof.
  intros He Hr Hi Hp Ht [H1 (ns & Hns & Hnd & Hlt & Hset) H3 H4].
  split; rewrite ?He, ?Hi, ?Hp, ?Ht; try assumption.
  exists ns. repeat split; try assumption.
  eapply Forall_impl; [exact Hlt|]. cbn. lia.
Qed.

Lemma tracked_appended e d w :
  processed d = [] → handed_out d = [] → settled d = [] →
  tracked e w → tracked e (set_trace (trace w ++ d) w).
Proof.
  intros Hp Hh Hs [H1 H2 H3 H4]. split; cbn; try assumption.
  - by rewrite processed_app, handed_out_app, Hp, Hh, H3.
  - by rewrite settled_app, processed_app, Hp, Hs, !app_nil_r.
Qed.

Lemma tracked_emit e ev : inert ev = true → preserves (tracked e) (emit ev).
Proof.
  intros He w Hw. apply tracked_appended; [..|exact Hw];
    by destruct ev as [| | | | | |lvl msg [it|]| | | |].
Qed.

Lemma tracked_dispatch_one e w :
  WebhookQueue.may_dispatch w = true → tracked e w →
  tracked e (WebhookQueue.dispatch_one w).2.
Proof.
  intros Hgo [H1 (ns & Hns & Hnd & Hlt & Hset) H3 H4].
  apply may_dispatch_true in Hgo as [_ Hne].
  unfold WebhookQueue.dispatch_one, WebhookQueue.dequeue, WebhookQueue.processItem.
  unfold_monad. cbn.
  destruct (queue w) as [|first rest] eqn:Hq; [done|]. cbn.
  split; cbn.
  - exact H1.
  - exists (ns ++ [S (reads w)]). split; [|split; [|split]].
    + rewrite !fmap_app, Hns. cbn. unfold token_at. by rewrite H1.
    + apply NoDup_app. split; [exact Hnd|]. split; [|apply NoDup_singleton].
      intros n Hn Hin. apply list_elem_of_singleton in Hin.
      rewrite Forall_forall in Hlt. apply Hlt in Hn. lia.
    + apply Forall_app. split.
      * eapply Forall_impl; [exact Hlt|]. cbn. lia.
      * apply Forall_singleton. lia.
    + rewrite fmap_app, list_to_set_app_L, Hset. cbn.
      unfold token_at. rewrite H1. rewrite (right_id_L ∅ (∪)). apply (comm_L (∪)).
  - rewrite !processed_app, !handed_out_app. cbn. rewrite !app_nil_r. by rewrite H3.
  - rewrite List.filter_app, map_app. cbn.
    rewrite !settled_app, !processed_app. cbn. rewrite !app_nil_r.
    rewrite app_assoc. by rewrite H4.
Qed.

Lemma tracked__scheduleProcessing e : preserves (tracked e) WebhookQueue._scheduleProcessing.
Proof. apply _scheduleProcessing_preserves, tracked_dispatch_one. Qed.

Lemma tracked_enqueue e it : preserves (tracked e) (WebhookQueue.enqueue it).
Proof.
  intros w Hw. rewrite enqueue_unfold. destruct (bool_decide _); cbn.
  - by apply tracked_appended.
  - apply tracked__scheduleProcessing.
    apply (tracked_frame e (set_trace (trace (stored it w)) w)); try reflexivity.
    + cbn. lia.
    + unfold stored. cbn. by apply tracked_appended.
Qed.

Lemma awaiting_settled invs k inv ph :
  invs !! k = Some inv → inv_phase inv = Awaiting → ph ≠ Awaiting →
  map inv_item (List.filter awaiting invs) ≡ₚ
  inv_item inv :: map inv_item (List.filter awaiting (<[ k := set_phase ph inv ]> invs)).
Proof.
  intros Hk Hph Hne.
  apply list_elem_of_split_length in Hk as (l1 & l2 & -> & ->).
  rewrite insert_app_r_alt by lia. rewrite Nat.sub_diag. cbn.
  rewrite !List.filter_app. cbn. unfold awaiting at 2 4. cbn. rewrite Hph.
  destruct ph; [done|..]; rewrite !map_app; cbn; symmetry; apply Permutation_middle.
Qed.

Lemma awaiting_deleted invs k inv :
  invs !! k = Some inv → inv_phase inv ≠ Awaiting →
  List.filter awaiting (delete k invs) = List.filter awaiting invs.
Proof.
  intros Hk Hne.
  apply list_elem_of_split_length in Hk as (l1 & l2 & -> & ->).
  rewrite delete_middle, !List.filter_app. cbn.
  assert (awaiting inv = false) as -> by (unfold awaiting; by destruct (inv_phase inv)).
  reflexivity.
Qed.

Lemma tracked_settle e k ok : preserves (tracked e) (settle k ok).
Proof.
  intros w Hw. unfold settle. unfold mbind at 1, M_bind, get. cbn.
  destruct (invocations w !! k) as [inv|] eqn:Hk; [|exact Hw].
  destruct (inv_phase inv) eqn:Hph; [|exact Hw..].
  destruct Hw as [H1 (ns & Hns & Hnd & Hlt & Hset) H3 H4].
  assert (∀ ph, inv_then <$> <[ k := set_phase ph inv ]> (invocations w) =
                inv_then <$> invocations w) as Hsame.
  { intros ph. rewrite list_fmap_insert. apply list_insert_id.
    by rewrite list_lookup_fmap, Hk. }
  unfold WebhookQueue.processItem_resume. destruct ok; unfold_monad; cbn.
  - split; cbn.
    + exact H1.
    + exists ns. rewrite Hsame. repeat split; try assumption.
      eapply Forall_impl; [exact Hlt|]. cbn. lia.
    + rewrite !processed_app, !handed_out_app. cbn. rewrite !app_nil_r. exact H3.
    + rewrite !settled_app, !processed_app. cbn. rewrite !app_nil_r.
      rewrite <- H4, <- app_assoc. apply Permutation_app_head. cbn.
      symmetry. by apply awaiting_settled.
  - split; cbn.
    + exact H1.
    + exists ns. rewrite Hsame. repeat split; assumption.
    + rewrite !processed_app, !handed_out_app. cbn. rewrite !app_nil_r. exact H3.
    + rewrite !settled_app, !processed_app. cbn. rewrite !app_nil_r.
      rewrite <- H4, <- app_assoc. apply Permutation_app_head. cbn.
      symmetry. by apply awaiting_settled.
Qed.

Lemma remove_middle_token (x : Qc) (A B : gset Qc) :
  x ∉ A → x ∉ B → (A ∪ ({[ x ]} ∪ B)) ∖ {[ x ]} = A ∪ B.
Proof.
  intros HA HB. apply set_eq. intros y.
  rewrite elem_of_difference, !elem_of_union, elem_of_singleton. split.
  - intros [[?|[?|?]] Hne]; [by left|done|by right].
  - intros [?|?]; (split; [tauto|]); by intros ->.
Qed.

Lemma token_not_among e N (n : nat) (l : list nat) :
  distinct_tokens e N → (n < N)%nat → Forall (λ m, (m < N)%nat) l → n ∉ l →
  token_at e n ∉ (list_to_set (token_at e <$> l) : gset Qc).
Proof.
  intros Hinj HN Hl Hn Hin.
  apply elem_of_list_to_set, list_elem_of_fmap in Hin as (m & Heq & Hm).
  rewrite Forall_forall in Hl.
  apply Hinj in Heq as ->; [by apply Hn|exact HN|by apply Hl].
Qed.

Lemma tracked_react e k w :
  distinct_tokens e (reads w) → tracked e w → tracked e (react k w).2.
Proof.
  intros Hinj Hw. unfold react. unfold mbind at 1, M_bind, get. cbn.
  destruct (invocations w !! k) as [inv|] eqn:Hk; [|exact Hw].
  assert (inv_phase inv = Awaiting ∨ inv_phase inv ≠ Awaiting) as [Hph|Hph]
    by (destruct (inv_phase inv); [by left|by right..]);
    [by rewrite Hph|].
  destruct Hw as [H1 (ns & Hns & Hnd & Hlt & Hset) H3 H4].
  assert (∃ n, ns !! k = Some n ∧ inv_then inv = ReleaseToken (token_at e n)) as (n & Hn & Hthen).
  { assert ((inv_then <$> invocations w) !! k = Some (inv_then inv)) as Hl
      by (by rewrite list_lookup_fmap, Hk).
    rewrite Hns, list_lookup_fmap in Hl.
    destruct (ns !! k) as [n|]; [|done]. injection Hl as Hl. by exists n. }
  assert (tracked e (WebhookQueue.on_finally (token_at e n)
            (set_invocations (delete k (invocations w)) w)).2) as Hrel.
  { rewrite on_finally_unfold. apply tracked__scheduleProcessing.
    split; cbn.
    - exact H1.
    - exists (delete k ns).
      apply list_elem_of_split_length in Hn as (l1 & l2 & -> & ->).
      rewrite delete_middle.
      apply NoDup_app in Hnd as (Hnd1 & Hdisj & [Hn2 Hnd2]%NoDup_cons).
      split; [|split; [|split]].
      + rewrite list_fmap_delete, Hns, !fmap_app, fmap_cons.
        rewrite <- (length_fmap (λ n, ReleaseToken (token_at e n)) l1).
        by rewrite delete_middle.
      + apply NoDup_app. split; [exact Hnd1|]. split; [|exact Hnd2].
        intros x Hx Hx2. apply (Hdisj x Hx). by right.
      + apply Forall_app in Hlt as [Hlt1 [_ Hlt2]%Forall_cons]. by apply Forall_app.
      + rewrite Hset, !fmap_app, fmap_cons, !list_to_set_app_L, list_to_set_cons.
        apply Forall_app in Hlt as [Hlt1 [Hltn Hlt2]%Forall_cons].
        assert (token_at e n ∉ (list_to_set (token_at e <$> l1) : gset Qc)) as Hout1.
        { apply (token_not_among e (reads w)); [exact Hinj|exact Hltn|exact Hlt1|].
          intros Hin. apply (Hdisj n Hin). by left. }
        assert (token_at e n ∉ (list_to_set (token_at e <$> l2) : gset Qc)) as Hout2
          by (by apply (token_not_among e (reads w))).
        by apply remove_middle_token.
    - by rewrite processed_app, handed_out_app, H3.
    - rewrite settled_app, processed_app, !app_nil_r.
      by rewrite (awaiting_deleted _ _ _ Hk Hph). }
  destruct (inv_phase inv); [done|..]; rewrite Hthen;
    unfold mbind, M_bind, modify; cbn; exact Hrel.
Qed.

#[local] Hint Resolve tracked__scheduleProcessing tracked_settle : pres.
#[local] Hint Extern 1 (preserves (tracked _) (emit _)) =>
  apply tracked_emit; reflexivity : pres.
#[local] Hint Extern 1 (preserves (tracked _) (modify _)) =>
  apply preserves_modify; intros ? ?; eapply tracked_frame; [..|eassumption];
  reflexivity : pres.

Lemma tracked_perform e a w :
  distinct_tokens e (reads w) → internal a = true → tracked e w → tracked e (perform a w).2.
Proof.
  intros Hinj Hint Hw.
  destruct a as [it| | |k ok|k| | |j|opts| | |j|i]; try discriminate; clear Hint;
    [ | | |exact (tracked_react e k w Hinj Hw)|..]; clear Hinj; revert w Hw;
    match goal with
    | |- ∀ w, _ → tracked _ (perform ?a w).2 => change (preserves (tracked e) (perform a))
    end;
    [apply preserves_bind; [apply tracked_enqueue|intros; apply preserves_ret]|
     |apply tracked_settle|..];
    cbn;
    unfold WebhookQueue.processNext, WebhookQueue.shutdown, WebhookQueue.drain,
      WebhookQueue.checkQueue;
    unfold_sinks; preserve.
Qed.

Lemma tracked_run e acts w :
  forallb internal acts = true → distinct_tokens e (reads (run acts w)) →
  tracked e w → tracked e (run acts w).
Proof.
  intros Hint Hinj Hw. induction acts as [|a acts IH] using rev_ind; [exact Hw|].
  rewrite run_snoc in *. rewrite forallb_app in Hint. cbn in Hint.
  apply andb_true_iff in Hint as [Hacts [Ha _]%andb_true_iff].
  assert (distinct_tokens e (reads (run acts w))) as Hinj'
    by (eapply distinct_tokens_le; [apply reads_exec|exact Hinj]).
  apply tracked_perform; [exact Hinj'|exact Ha|by apply IH].
Qed.

Lemma tracked_created e c t : tracked (env (createWebhookQueue e c t)) (createWebhookQueue e c t).
Proof.
  split; cbn; [reflexivity| |reflexivity|reflexivity].
  exists []. repeat split; constructor.
Qed.

Lemma idle_true w :
  WebhookQueue.idle w = true ↔ queue w = [] ∧ processing w = ∅.
Proof.
  unfold WebhookQueue.idle. rewrite andb_true_iff, !bool_decide_eq_true.
  rewrite length_zero_iff_nil, size_empty_iff. unfold_leibniz. reflexivity.
Qed.

Lemma tracked_idle e w :
  tracked e w → WebhookQueue.idle w = true → invocations w = [].
Proof.
  intros [_ (ns & Hns & _ & _ & Hset) _ _] [_ Hempty]%idle_true.
  destruct ns as [|n ns].
  - by apply fmap_nil_inv in Hns.
  - exfalso. rewrite Hempty in Hset. cbn in Hset.
    assert (token_at e n ∈ (∅ : gset Qc)) as Hin
      by (rewrite Hset; apply elem_of_union_l; by apply elem_of_singleton).
    by apply not_elem_of_empty in Hin.
Qed.

(** ** The claims *)

(** C1. [enqueue(item)] fails with the overload error exactly when
    [queue.length + processing.size + 1 >= threshold] at the call.  On that
    failure the world is the one before the call but for three trace entries
    (the arrival, the warning, the rejection): nothing is stored and the
    dispatch loop does not run.  With a threshold of at least one,
    [queue.length + processing.size] is at most [threshold - 1] after any
    schedule. *)
Theorem enqueue_admission_control :
  (∀ w it,
     (WebhookQueue.enqueue it w).1 = Thrown QueueOverloadedError ↔
     Z.of_nat (length (queue w)) + Z.of_nat (size (processing w)) + 1 >= threshold w) ∧
  (∀ w it,
     (WebhookQueue.enqueue it w).1 = Thrown QueueOverloadedError →
     (WebhookQueue.enqueue it w).2 =
     set_trace (trace w ++ [IncReceived;
                            Log Warn "Queue overload, request rejected" (Some it);
                            IncTooMany]) w) ∧
  (∀ e c t acts,
     let w := run acts (createWebhookQueue e c t) in
     1 ≤ threshold w →
     Z.of_nat (length (queue w)) + Z.of_nat (size (processing w)) ≤ threshold w - 1).
Proof.
  split; [|split].
  - intros w it. rewrite enqueue_unfold. case_bool_decide; cbn; split; done.
  - intros w it. rewrite enqueue_unfold. case_bool_decide; cbn; done.
  - intros e c t acts w. apply (inv_capacity w), invariant_run.
Qed.

Lemma enqueue_admission_control_witness :
  let w := run [Enqueue (VString "a"); Enqueue (VString "b"); Enqueue (VString "c")]
               (createWebhookQueue steady (Some 1) (Some 4)) in
  (WebhookQueue.enqueue (VString "d") w).1 = Thrown QueueOverloadedError ∧
  queue (WebhookQueue.enqueue (VString "d") w).2 = queue w ∧
  1 ≤ threshold w ∧
  Z.of_nat (length (queue w)) + Z.of_nat (size (processing w)) ≤ threshold w - 1.
Proof.
  intros w.
  assert ((WebhookQueue.enqueue (VString "d") w).1 = Thrown QueueOverloadedError) as Hfail
    by (apply (proj1 enqueue_admission_control); vm_compute; discriminate).
  split; [exact Hfail|]. split.
  - rewrite (proj1 (proj2 enqueue_admission_control) w _ Hfail). reflexivity.
  - assert (1 ≤ threshold w) as Hthr by (vm_compute; discriminate).
    split; [exact Hthr|].
    exact (proj2 (proj2 enqueue_admission_control) steady (Some 1) (Some 4) _ Hthr).
Defined.

(** C2. After any schedule the in-flight set has at most [concurrency]
    tokens (for a limit that is not negative).  The dispatch loop takes a turn
    exactly when [processing.size < concurrency] and the queue is not empty,
    and otherwise returns; it ends where that condition fails; and a turn calls
    the processor once, on the head of the queue. *)
Theorem concurrency_bound :
  (∀ e c t acts,
     let w := run acts (createWebhookQueue e c t) in
     0 ≤ concurrency w → Z.of_nat (size (processing w)) ≤ concurrency w) ∧
  (∀ w, WebhookQueue.may_dispatch w = true ↔
        Z.of_nat (size (processing w)) < concurrency w ∧ queue w ≠ []) ∧
  (∀ w, WebhookQueue._scheduleProcessing w =
        if WebhookQueue.may_dispatch w
        then WebhookQueue._scheduleProcessing (WebhookQueue.dispatch_one w).2
        else (tt, w)) ∧
  (∀ w, pumps w (WebhookQueue._scheduleProcessing w).2 ∧
        WebhookQueue.may_dispatch (WebhookQueue._scheduleProcessing w).2 = false) ∧
  (∀ w first rest, queue w = first :: rest →
        processed (trace (WebhookQueue.dispatch_one w).2) =
        processed (trace w) ++ [item first]).
Proof.
  split; [|split; [|split; [|split]]].
  - intros e c t acts w. apply (inv_concurrency w), invariant_run.
  - apply may_dispatch_true.
  - intros w. destruct (WebhookQueue.may_dispatch w) eqn:Hgo.
    + by apply _scheduleProcessing_turn.
    + by apply _scheduleProcessing_idle.
  - intros w. split; [apply _scheduleProcessing_pumps|].
    eapply pumps_stops, _scheduleProcessing_pumps.
  - intros w first rest Hq.
    unfold WebhookQueue.dispatch_one, WebhookQueue.dequeue, WebhookQueue.processItem.
    unfold_monad. cbn. rewrite Hq. cbn.
    rewrite !processed_snoc. cbn. by rewrite !app_nil_r.
Qed.

Lemma concurrency_bound_witness :
  let w := run [Enqueue (VString "one"); Enqueue (VString "two"); Enqueue (VString "three")]
               (createWebhookQueue steady (Some 2) (Some 10)) in
  0 ≤ concurrency w ∧
  Z.of_nat (size (processing w)) ≤ concurrency w ∧
  ∃ first,
    queue w = [first] ∧
    processed (trace (WebhookQueue.dispatch_one w).2) = processed (trace w) ++ [item first].
Proof.
  intros w.
  assert (0 ≤ concurrency w) as Hc by (vm_compute; discriminate).
  split; [exact Hc|].
  split; [exact (proj1 concurrency_bound steady (Some 2) (Some 10) _ Hc)|].
  destruct (queue w) as [|first rest] eqn:Hq; [vm_compute in Hq; discriminate|].
  assert (rest = []) as -> by (vm_compute in Hq; by injection Hq as _ <-).
  clearbody w. exists first. split; [reflexivity|].
  exact (proj2 (proj2 (proj2 (proj2 concurrency_bound))) w first [] Hq).
Defined.

(** C3, amended.  [drain()] resolves at once when [queue] and [processing]
    are both empty at the call, and otherwise leaves an interval timer; a drain
    promise is resolved only by [drain()], [shutdown()] or that timer, only in
    a world where both are empty, and they are still empty after it.  When
    items are taken off the queue by the queue's own dispatch loop only (no
    worker pool, no call of [dequeue] from outside) and the readings of the
    clock and of the generator so far give no two tokens that are the same
    number, no invocation is pending in such a world and the items settled are
    the items admitted: every item enqueued before has completed or failed. *)
Theorem drain_resolves_when_idle :
  (∀ w b,
     WebhookQueue.drain b w =
     if WebhookQueue.idle w then
       (tt, set_trace (trace w ++ DrainResolved ::
                         if b then [Log Info "All queued items processed, queue shutdown complete" None]
                         else []) w)
     else (tt, set_pollers (pollers w ++ [b]) w)) ∧
  (∀ a w,
     count_event is_DrainResolved (trace (exec a w)) ≠
     count_event is_DrainResolved (trace w) →
     drains a = true ∧
     (queue w = [] ∧ processing w = ∅) ∧
     (queue (exec a w) = [] ∧ processing (exec a w) = ∅)) ∧
  (∀ e c t acts,
     forallb internal acts = true →
     let w := run acts (createWebhookQueue e c t) in
     distinct_tokens e (reads w) →
     WebhookQueue.idle w = true →
     invocations w = [] ∧ settled (trace w) ≡ₚ admitted (trace w)).
Proof.
  split; [intros w b; apply drain_unfold|split].
  - intros a w Hne. destruct (since_exec a w) as (cs & Hs & Hcs).
    rewrite (count_event_since is_DrainResolved _ _ _ ltac:(by intros []) Hs) in Hne.
    assert (count_event is_DrainResolved cs ≠ 0%nat) as Hcount by lia. clear Hne Hs.
    destruct a as [it| | |k ok|k| | |j|opts| | |j|i]; subst cs; try done.
    + by destruct (WebhookQueue.enqueue it w).1.
    + destruct (invocations w !! k) as [[? ? ? []]|]; try done. by destruct ok.
    + destruct (WebhookQueue.idle w) eqn:Hidle; [|done].
      split; [reflexivity|]. apply idle_true in Hidle. split; [exact Hidle|].
      unfold exec. cbn [perform]. rewrite drain_unfold.
      destruct (WebhookQueue.idle w); exact Hidle.
    + destruct (WebhookQueue.idle w) eqn:Hidle; [|done].
      split; [reflexivity|]. apply idle_true in Hidle. split; [exact Hidle|].
      unfold exec. cbn [perform]. rewrite shutdown_unfold, drain_unfold.
      destruct (WebhookQueue.idle _); exact Hidle.
    + destruct (WebhookQueue.idle w) eqn:Hidle; [|done].
      split; [reflexivity|]. apply idle_true in Hidle. split; [exact Hidle|].
      unfold exec. cbn [perform]. rewrite checkQueue_unfold.
      destruct (pollers w !! j); [destruct (WebhookQueue.idle w)|]; exact Hidle.
  - intros e c t acts Hint w Hinj Hidle.
    assert (tracked e w) as Htr
      by (apply tracked_run; [exact Hint|exact Hinj|apply (tracked_created e c t)]).
    assert (invocations w = []) as Hnone by (by eapply tracked_idle).
    split; [exact Hnone|].
    destruct Htr as [_ _ H3 H4]. rewrite Hnone in H4. cbn in H4. rewrite app_nil_r in H4.
    rewrite H4, H3. apply idle_true in Hidle as [Hq _].
    pose proof (inv_fifo w (invariant_run e c t acts)) as Hfifo.
    fold w in Hfifo. rewrite Hq in Hfifo. cbn in Hfifo. rewrite app_nil_r in Hfifo.
    by rewrite Hfifo.
Qed.

Lemma drain_resolves_when_idle_witness :
  let acts := [Enqueue (VString "a"); Enqueue (VString "b"); Drain;
               Settle 0 true; React 0; Settle 0 false; React 0] in
  let w := run acts (createWebhookQueue steady (Some 1) (Some 5)) in
  (forallb internal acts = true ∧ distinct_tokens steady (reads w) ∧
   WebhookQueue.idle w = true ∧
   invocations w = [] ∧ settled (trace w) ≡ₚ admitted (trace w)) ∧
  (count_event is_DrainResolved (trace (exec (IntervalTick 0) w)) ≠
   count_event is_DrainResolved (trace w) ∧
   queue w = [] ∧ processing w = ∅).
Proof.
  intros acts w.
  assert (forallb internal acts = true) as Hint by reflexivity.
  assert (distinct_tokens steady (reads w)) as Hinj
    by (apply distinct_tokens_NoDup, (bool_decide_unpack (NoDup _)); vm_compute; exact I).
  assert (WebhookQueue.idle w = true) as Hidle by (vm_compute; reflexivity).
  assert (count_event is_DrainResolved (trace (exec (IntervalTick 0) w)) ≠
          count_event is_DrainResolved (trace w)) as Hne by (vm_compute; discriminate).
  split.
  - split; [exact Hint|]. split; [exact Hinj|]. split; [exact Hidle|].
    exact (proj2 (proj2 drain_resolves_when_idle) steady (Some 1) (Some 5) acts
             Hint Hinj Hidle).
  - split; [exact Hne|].
    exact (proj1 (proj2 (proj1 (proj2 drain_resolves_when_idle) (IntervalTick 0) w Hne))).
Defined.

(** C3, as stated, fails, in two ways.  In the schedule [overlap] the second
    item is taken by a worker, the first completes, and [drain()] resolves at
    once while the second item, admitted before the call, has neither completed
    nor failed.  In the schedule [collide], without a pool, three items are
    dispatched within one millisecond under ids that round to the same number:
    [processing] holds one id for three pending invocations, the first
    completion empties it, and [drain()] resolves at once while the other two
    items are still being processed. *)
Lemma drain_resolves_before_items_complete :
  (let w := run overlap (createWebhookQueue steady (Some 1) (Some 5)) in
   trace (exec Drain w) = trace w ++ [DrainResolved] ∧
   admitted (trace w) = [VString "a"; VString "b"] ∧
   settled (trace w) = [VString "a"] ∧
   map (λ inv, (inv_item inv, inv_phase inv)) (invocations w) = [(VString "b", Awaiting)] ∧
   ¬ (settled (trace w) ≡ₚ admitted (trace w))) ∧
  (let w := run collide (createWebhookQueue crowded (Some 2) (Some 10)) in
   forallb internal collide = true ∧
   token_at crowded 2 = token_at crowded 7 ∧
   trace (exec Drain w) = trace w ++ [DrainResolved] ∧
   admitted (trace w) = [VString "a"; VString "b"; VString "c"] ∧
   settled (trace w) = [VString "a"] ∧
   map (λ inv, (inv_item inv, inv_phase inv)) (invocations w) =
     [(VString "b", Awaiting); (VString "c", Awaiting)] ∧
   ¬ (settled (trace w) ≡ₚ admitted (trace w))).
Proof.
  split.
  - intros w.
    assert (WebhookQueue.idle w = true) as Hidle by (vm_compute; reflexivity).
    assert (admitted (trace w) = [VString "a"; VString "b"]) as Hadm by (vm_compute; reflexivity).
    assert (settled (trace w) = [VString "a"]) as Hset by (vm_compute; reflexivity).
    assert (map (λ inv, (inv_item inv, inv_phase inv)) (invocations w) =
            [(VString "b", Awaiting)]) as Hinv by (vm_compute; reflexivity).
    clearbody w.
    split; [|split; [exact Hadm|split; [exact Hset|split; [exact Hinv|]]]].
    + unfold exec. cbn [perform]. rewrite drain_unfold, Hidle. reflexivity.
    + rewrite Hadm, Hset. intros Hperm. apply Permutation_length in Hperm. discriminate.
  - intros w.
    assert (WebhookQueue.idle w = true) as Hidle by (vm_compute; reflexivity).
    assert (admitted (trace w) = [VString "a"; VString "b"; VString "c"]) as Hadm
      by (vm_compute; reflexivity).
    assert (settled (trace w) = [VString "a"]) as Hset by (vm_compute; reflexivity).
    assert (map (λ inv, (inv_item inv, inv_phase inv)) (invocations w) =
            [(VString "b", Awaiting); (VString "c", Awaiting)]) as Hinv
      by (vm_compute; reflexivity).
    clearbody w.
    split; [reflexivity|]. split; [by vm_compute|].
    split; [|split; [exact Hadm|split; [exact Hset|split; [exact Hinv|]]]].
    + unfold exec. cbn [perform]. rewrite drain_unfold, Hidle. reflexivity.
    + rewrite Hadm, Hset. intros Hperm. apply Permutation_length in Hperm. discriminate.
Qed.


(** C4. [processWithRetry(item)] waits the simulated processing delay and
    attempts the work once; if that attempt succeeds nothing follows it (no
    delay, no second attempt); if it fails, one delay and one more attempt
    follow; if that one fails too the call fails with the error of the second
    attempt and nothing more is tried.  In all, one or two attempts. *)
Theorem processWithRetry_retries_once :
  ∀ w it,
    let r := random (env w) in
    let n := reads w in
    let first_try := [SetTimeout (delay_of (r n))] in
    let failure := [Log Warn "Item processing failed" (Some it); Attempt it false] in
    let retry := [Log Info "Retrying item processing" (Some it);
                  SetTimeout (delay_of (r (2 + n)%nat))] in
    let added :=
      if fails (r (1 + n)%nat) then
        if fails (r (3 + n)%nat) then
          first_try ++ failure ++ retry ++ failure ++
          [Log Error "Item processing failed after retry" (Some it)]
        else first_try ++ failure ++ retry ++ [Attempt it true]
      else first_try ++ [Attempt it true] in
    processor.processWithRetry it w =
      (if fails (r (1 + n)%nat) && fails (r (3 + n)%nat)
       then Thrown ProcessingFailed
       else Returned (processed_result it),
       set_trace (trace w ++ added)
                 (set_reads ((if fails (r (1 + n)%nat) then 4 else 2) + n) w)) ∧
    count_event is_Attempt added = (if fails (r (1 + n)%nat) then 2 else 1)%nat ∧
    count_event is_SetTimeout added = (if fails (r (1 + n)%nat) then 2 else 1)%nat ∧
    (count_event is_Attempt added ≤ 2)%nat.
Proof.
  intros w it. cbv zeta.
  unfold processor.processWithRetry, processor.simulateProcessingDelay,
    processor.attemptProcessing, fails, delay_of, processed_result.
  unfold_monad.
  cbn -[Q2Qc Qcmult Qfloor Qcplus Qclt].
  destruct (bool_decide (random (env w) (S (reads w)) < Q2Qc (1 # 10))%Qc);
    [cbn -[Q2Qc Qcmult Qfloor Qcplus Qclt];
     destruct (bool_decide (random (env w) (S (S (S (reads w)))) < Q2Qc (1 # 10))%Qc)|];
    cbn -[Q2Qc Qcmult Qfloor Qcplus Qclt];
    (split; [f_equal; same_world|split; [reflexivity|split; [reflexivity|lia]]]).
Qed.

(** C5. When the processor's promise of an invocation started by the
    dispatch loop settles, fulfilled or rejected alike, the reaction chained on
    it deletes the token, sets the depth gauge and runs the dispatch loop, which
    takes turns until the limit is reached or the queue is empty.  The
    processed counter moves by one on a fulfilled promise and not at all on a
    rejected one, and nothing else in the system moves it. *)
Theorem settled_invocation_frees_its_slot :
  (∀ w k inv id ok,
     invocations w !! k = Some inv → inv_phase inv = Awaiting →
     inv_then inv = ReleaseToken id →
     let w1 := exec (Settle k ok) w in
     let freed :=
       set_trace (trace w1 ++ [SetQueueLength
                    (Z.of_nat (length (queue w)) + Z.of_nat (size (processing w ∖ {[ id ]})))])
         (set_processing (processing w ∖ {[ id ]})
            (set_invocations (delete k (invocations w1)) w1)) in
     let w2 := exec (React k) w1 in
     invocations w1 !! k = Some (set_phase (if ok then Fulfilled else Rejected) inv) ∧
     queue w1 = queue w ∧ processing w1 = processing w ∧
     count_event is_IncProcessed (trace w1) =
       (count_event is_IncProcessed (trace w) + (if ok then 1 else 0))%nat ∧
     w2 = (WebhookQueue._scheduleProcessing freed).2 ∧
     (id ∉ processing freed) ∧
     pumps freed w2 ∧
     WebhookQueue.may_dispatch w2 = false ∧
     count_event is_IncProcessed (trace w2) = count_event is_IncProcessed (trace w1)) ∧
  (∀ a w,
     count_event is_IncProcessed (trace (exec a w)) ≠ count_event is_IncProcessed (trace w) →
     ∃ k inv, a = Settle k true ∧ invocations w !! k = Some inv ∧ inv_phase inv = Awaiting).
Proof.
  split; [|apply count_IncProcessed_exec].
  intros w k inv id ok Hk Hph Hthen w1 freed w2.
  destruct (settle_fields w k inv ok Hk Hph) as (Hq & Hp & _ & _ & _ & _ & _ & Hinv).
  fold w1 in Hq, Hp, Hinv.
  assert (invocations w1 !! k = Some (set_phase (if ok then Fulfilled else Rejected) inv)) as Hk1.
  { rewrite Hinv. apply list_lookup_insert_eq. by eapply lookup_lt_Some. }
  assert (w2 = (WebhookQueue._scheduleProcessing freed).2) as Hw2.
  { subst w2. rewrite (react_release_unfold w1 k _ id Hk1); [|by destruct ok|exact Hthen].
    rewrite on_finally_unfold. f_equal. f_equal. subst freed. cbn. by rewrite Hq, Hp. }
  split; [exact Hk1|]. split; [exact Hq|]. split; [exact Hp|]. split.
  { assert (trace w1 = trace (WebhookQueue.processItem_resume inv ok w).2) as ->
      by (subst w1; by rewrite (settle_unfold w k inv ok Hk Hph)).
    rewrite (count_event_since is_IncProcessed _ _ _ ltac:(by intros [])
               (processItem_resume_counters inv ok w)).
    by destruct ok. }
  split; [exact Hw2|]. split.
  { subst freed. cbn. intros Hin. apply elem_of_difference in Hin as [_ Hn].
    apply Hn. by apply elem_of_singleton. }
  split; [rewrite Hw2; apply _scheduleProcessing_pumps|]. split.
  { rewrite Hw2. eapply pumps_stops, _scheduleProcessing_pumps. }
  assert (since (trace w1) [] w2) as Hs.
  { apply since_perform; [discriminate|discriminate|reflexivity|apply since_refl]. }
  rewrite (count_event_since is_IncProcessed _ _ _ ltac:(by intros []) Hs). cbn. lia.
Qed.

Lemma settled_invocation_frees_its_slot_witness :
  let w := run [Enqueue (VString "a"); Enqueue (VString "b")]
               (createWebhookQueue steady (Some 1) (Some 5)) in
  let w2 := exec (React 0) (exec (Settle 0 false) w) in
  (∃ inv id,
     invocations w !! 0%nat = Some inv ∧ inv_phase inv = Awaiting ∧
     inv_then inv = ReleaseToken id ∧
     WebhookQueue.may_dispatch w2 = false ∧
     count_event is_IncProcessed (trace w2) =
     count_event is_IncProcessed (trace (exec (Settle 0 false) w))) ∧
  (count_event is_IncProcessed (trace (exec (Settle 0 true) w)) ≠
   count_event is_IncProcessed (trace w) ∧
   ∃ k inv, Settle 0 true = Settle k true ∧
            invocations w !! k = Some inv ∧ inv_phase inv = Awaiting).
Proof.
  intros w w2. split.
  - destruct (invocations w !! 0%nat) as [inv|] eqn:Hk; [|vm_compute in Hk; discriminate].
    destruct (inv_then inv) as [id|i] eqn:Hthen;
      [|vm_compute in Hk; injection Hk as <-; discriminate].
    assert (inv_phase inv = Awaiting) as Hph
      by (vm_compute in Hk; injection Hk as <-; reflexivity).
    exists inv, id. split; [reflexivity|]. split; [exact Hph|]. split; [exact Hthen|].
    pose proof (proj1 settled_invocation_frees_its_slot w 0%nat inv id false Hk Hph Hthen)
      as (_ & _ & _ & _ & _ & _ & _ & Hstop & Hcount).
    split; [exact Hstop|exact Hcount].
  - assert (count_event is_IncProcessed (trace (exec (Settle 0 true) w)) ≠
            count_event is_IncProcessed (trace w)) as Hne by (vm_compute; discriminate).
    split; [exact Hne|].
    exact (proj2 settled_invocation_frees_its_slot (Settle 0 true) w Hne).
Defined.

(** C6. [dequeue()] on an empty queue returns [null] and changes nothing; on
    a queue with head [first] it returns [first.item] and leaves the rest of
    the queue, in order, adding to the trace the wait, the depth and a log
    line.  So after any schedule the items handed out so far, followed by
    those still waiting, are the items admitted, in order of admission.  With a
    limit of one and the queue dispatching on its own, the processor is called
    with the items in that order, one at a time, and they settle in that
    order. *)
Theorem dequeue_is_fifo :
  (∀ w,
     WebhookQueue.dequeue w =
     match queue w with
     | [] => (VNull, w)
     | first :: rest =>
         (item first,
          set_trace (trace w ++ [ObserveQueueTime (clock (env w) (reads w) - enqueuedAt first);
                                 SetQueueLength (Z.of_nat (length rest) +
                                                 Z.of_nat (size (processing w)));
                                 Log Debug "Dequeued item" (Some (item first))])
            (set_queue rest (set_reads (S (reads w)) w)))
     end) ∧
  (∀ e c t acts,
     let w := run acts (createWebhookQueue e c t) in
     handed_out (trace w) ++ map item (queue w) = admitted (trace w)) ∧
  (∀ e t acts,
     forallb internal acts = true →
     let w := run acts (createWebhookQueue e (Some 1) t) in
     processed (trace w) ++ map item (queue w) = admitted (trace w) ∧
     settled (trace w) ++ map inv_item (List.filter awaiting (invocations w)) =
       processed (trace w) ∧
     (length (invocations w) ≤ 1)%nat).
Proof.
  split; [|split].
  - apply dequeue_unfold.
  - intros e c t acts w. apply (inv_fifo w), invariant_run.
  - intros e t acts Hint w.
    assert (serial w) as [H1 H2 H3 H4]
      by (apply run_preserves_internal; [apply serial_perform|exact Hint|apply serial_created]).
    split; [|split].
    + rewrite H2. apply (inv_fifo w), invariant_run.
    + exact H4.
    + destruct H3 as [[_ ->]|(inv & id & -> & _)]; cbn; lia.
Qed.

Lemma dequeue_is_fifo_witness :
  let acts := [Enqueue (VString "a"); Enqueue (VString "b"); Enqueue (VString "c");
               Settle 0 false; React 0; Settle 0 true] in
  let w := run acts (createWebhookQueue steady (Some 1) (Some 10)) in
  forallb internal acts = true ∧
  processed (trace w) ++ map item (queue w) = admitted (trace w) ∧
  processed (trace w) = [VString "a"; VString "b"] ∧
  settled (trace w) = [VString "a"; VString "b"] ∧
  map item (queue w) = [VString "c"].
Proof.
  intros acts w.
  assert (forallb internal acts = true) as Hint by reflexivity.
  split; [exact Hint|].
  split; [exact (proj1 (proj2 (proj2 dequeue_is_fifo) steady (Some 10) acts Hint))|].
  repeat split; vm_compute; reflexivity.
Defined.

(** C7. [size()] and [totalItems()] are the same recount
    [queue.length + processing.size] of the two containers in every world, and
    after any schedule the depth gauge shows that recount. *)
Theorem size_is_a_recount :
  (∀ w, WebhookQueue.size w = WebhookQueue.totalItems w ∧
        WebhookQueue.totalItems w =
        Z.of_nat (length (queue w)) + Z.of_nat (size (processing w))) ∧
  (∀ e c t acts,
     let w := run acts (createWebhookQueue e c t) in
     gauge (trace w) = WebhookQueue.totalItems w).
Proof.
  split.
  - intros w. split; reflexivity.
  - intros e c t acts w. apply (inv_gauge w), invariant_run.
Qed.

(** C8, as the code has it.  The pool is built with the default options, so
    [queue.processNext] is the no-op, and started; yet [enqueue] runs the
    queue's own dispatch loop, which takes the first item, and the worker that
    wakes up next takes the second: both pull from the same queue. *)
Theorem patched_processNext_does_not_stop_dispatch :
  let w := run [PoolNew default_options; PoolStart; Enqueue (VString "a")]
               (createWebhookQueue steady (Some 1) (Some 5)) in
  let w' := run [Enqueue (VString "b"); WorkerWake 0] w in
  processNext_slot w = NoOp ∧
  wp_running <$> pool w = Some true ∧
  handed_out (trace w) = [VString "a"] ∧
  map (λ inv, (inv_item inv, started_by_loop inv)) (invocations w) = [(VString "a", true)] ∧
  map (λ inv, (inv_item inv, started_by_loop inv)) (invocations w') =
    [(VString "a", true); (VString "b", false)].
Proof. cbv zeta. repeat split; vm_compute; reflexivity. Qed.

(** C9. A turn of a worker loop that finds an item shifts it off the queue
    and calls the processor, and leaves [processing] as it was, as do the
    settlement of that call and what the worker does next: so [totalItems()]
    and the test of [drain()] do not count the item, and [drain()] can resolve
    at once while the item is still being processed. *)
Theorem worker_processing_holds_no_token :
  (∀ w p i first rest,
     pool w = Some p → wp_running p = true →
     queue w = first :: rest → loosely_null (item first) = false →
     let w' := (WorkerPool.workerLoop i w).2 in
     processing w' = processing w ∧
     queue w' = rest ∧
     invocations w' =
       invocations w ++ [{| inv_item := item first;
                            inv_startTime := clock (env w) (S (reads w));
                            inv_then := ResumeWorker i;
                            inv_phase := Awaiting |}] ∧
     processed (trace w') = processed (trace w) ++ [item first] ∧
     WebhookQueue.totalItems w' =
       Z.of_nat (length rest) + Z.of_nat (size (processing w)) ∧
     WebhookQueue.idle w' =
       bool_decide (length rest = 0%nat) && bool_decide (size (processing w) = 0%nat)) ∧
  (∀ w k inv i ok,
     invocations w !! k = Some inv → inv_then inv = ResumeWorker i →
     processing (exec (Settle k ok) w) = processing w ∧
     processing (exec (React k) w) = processing w) ∧
  (let w := run overlap (createWebhookQueue steady (Some 1) (Some 5)) in
   WebhookQueue.idle w = true ∧ WebhookQueue.totalItems w = 0 ∧
   map (λ inv, (inv_item inv, inv_phase inv, started_by_loop inv)) (invocations w) =
     [(VString "b", Awaiting, false)] ∧
   trace (exec Drain w) = trace w ++ [DrainResolved]).
Proof.
  split; [|split].
  - intros w p i first rest Hpool Hrun Hq Hnull w'.
    assert (w' = set_pool (Some (WorkerPool.set_coroutines (<[ i := WProcessing ]> (wp_coroutines p)) p))
      (set_invocations (invocations w ++ [{| inv_item := item first;
                            inv_startTime := clock (env w) (S (reads w));
                            inv_then := ResumeWorker i;
                            inv_phase := Awaiting |}])
      (set_trace (trace w ++ [ObserveQueueTime (clock (env w) (reads w) - enqueuedAt first);
                   SetQueueLength (Z.of_nat (length rest) + Z.of_nat (size (processing w)));
                   Log Debug "Dequeued item" (Some (item first));
                   ProcessorCall (item first)])
      (set_queue rest (set_reads (S (S (reads w))) w))))) as Hw'.
    { subst w'. unfold WorkerPool.workerLoop, WebhookQueue.dequeue, WebhookQueue.processItem,
        WorkerPool.park, update_pool.
      unfold_monad. cbn. rewrite Hpool, Hrun, Hq. cbn. rewrite Hnull. cbn. rewrite Hpool. cbn.
      same_world. }
    split; [by rewrite Hw'|]. split; [by rewrite Hw'|]. split; [by rewrite Hw'|].
    split; [rewrite Hw'; cbn; unfold processed; by rewrite omap_app|].
    split; by rewrite Hw'.
  - intros w k inv i ok Hk Hthen. split.
    + by apply (same_processing_settle (processing w) k ok w).
    + unfold exec. cbn. unfold react. unfold mbind at 1, M_bind, get. cbn. rewrite Hk.
      destruct (inv_phase inv); [reflexivity|..]; rewrite Hthen;
        unfold WorkerPool.workerLoop_resume; unfold_sinks.
      * assert (preserves (same_processing (processing w))
          (modify (set_invocations (delete k (invocations w)));;
           (mret tt;; WorkerPool.workerLoop i))) as H by preserve.
        by apply H.
      * assert (preserves (same_processing (processing w))
          (modify (set_invocations (delete k (invocations w)));;
           (emit (Log Error "Error processing item in worker" None);; WorkerPool.workerLoop i)))
          as H by preserve.
        by apply H.
  - intros w.
    assert (WebhookQueue.idle w = true) as Hidle by (vm_compute; reflexivity).
    split; [exact Hidle|]. split; [vm_compute; reflexivity|].
    split; [vm_compute; reflexivity|].
    clearbody w. unfold exec. cbn [perform]. by rewrite drain_idle.
Qed.

Lemma worker_processing_holds_no_token_witness :
  let w := run [PoolNew default_options; PoolStart; Enqueue (VString "a"); Enqueue (VString "b")]
               (createWebhookQueue steady (Some 1) (Some 5)) in
  let w' := exec (WorkerWake 0) w in
  (∃ p head,
     pool w = Some p ∧ wp_running p = true ∧ queue w = [head] ∧
     loosely_null (item head) = false ∧
     processing (WorkerPool.workerLoop 0 w).2 = processing w ∧
     WebhookQueue.totalItems (WorkerPool.workerLoop 0 w).2 =
       Z.of_nat (length (@nil entry)) + Z.of_nat (size (processing w))) ∧
  (∃ inv,
     invocations w' !! 1%nat = Some inv ∧ inv_then inv = ResumeWorker 0 ∧
     processing (exec (Settle 1 false) w') = processing w').
Proof.
  intros w w'. split.
  - destruct (pool w) as [p|] eqn:Hpool; [|vm_compute in Hpool; discriminate].
    destruct (queue w) as [|head rest] eqn:Hq; [vm_compute in Hq; discriminate|].
    assert (rest = []) as -> by (vm_compute in Hq; by injection Hq as _ <-).
    assert (wp_running p = true) as Hrun
      by (vm_compute in Hpool; injection Hpool as <-; reflexivity).
    assert (loosely_null (item head) = false) as Hnull
      by (vm_compute in Hq; injection Hq as <-; reflexivity).
    clearbody w.
    exists p, head. split; [reflexivity|]. split; [exact Hrun|]. split; [reflexivity|].
    split; [exact Hnull|].
    pose proof (proj1 worker_processing_holds_no_token w p 0%nat head [] Hpool Hrun Hq Hnull)
      as (Hproc & _ & _ & _ & Htotal & _).
    split; [exact Hproc|exact Htotal].
  - destruct (invocations w' !! 1%nat) as [inv|] eqn:Hk; [|vm_compute in Hk; discriminate].
    assert (inv_then inv = ResumeWorker 0) as Hthen
      by (vm_compute in Hk; injection Hk as <-; reflexivity).
    clearbody w'.
    exists inv. split; [reflexivity|]. split; [exact Hthen|].
    exact (proj1 (proj1 (proj2 worker_processing_holds_no_token) w' 1%nat inv 0%nat false Hk Hthen)).
Defined.

(** C10. Every call of [enqueue] reports one arrival, and reports it first,
    before the admission check: what the call adds to the trace starts with
    the arrival and holds no other; a rejected call adds the warning and one
    rejection after it. *)
Theorem enqueue_reports_every_arrival :
  ∀ w it, ∃ rest,
    trace (WebhookQueue.enqueue it w).2 = trace w ++ IncReceived :: rest ∧
    count_event is_IncReceived rest = 0%nat ∧
    count_event is_IncTooMany rest =
      match (WebhookQueue.enqueue it w).1 with Thrown _ => 1%nat | Returned _ => 0%nat end ∧
    (∀ e, (WebhookQueue.enqueue it w).1 = Thrown e →
          e = QueueOverloadedError ∧
          rest = [Log Warn "Queue overload, request rejected" (Some it); IncTooMany]).
Proof.
  intros w it. destruct (since_enqueue w it) as (rest & Htrace & Hcs).
  exists rest. split; [by rewrite Htrace, <- app_assoc|].
  split; [|split].
  - rewrite (count_event_counters is_IncReceived) by (by intros []).
    rewrite Hcs. by destruct (WebhookQueue.enqueue it w).1.
  - rewrite (count_event_counters is_IncTooMany) by (by intros []).
    rewrite Hcs. by destruct (WebhookQueue.enqueue it w).1.
  - intros e He. revert Htrace He. rewrite enqueue_unfold.
    case_bool_decide; cbn; [|discriminate].
    intros Htrace [= <-]. split; [reflexivity|].
    rewrite <- !app_assoc in Htrace. cbn in Htrace.
    apply app_inv_head in Htrace. by injection Htrace.
Qed.

Lemma enqueue_reports_every_arrival_witness :
  let w := run [Enqueue (VString "a"); Enqueue (VString "b"); Enqueue (VString "c")]
               (createWebhookQueue steady (Some 1) (Some 4)) in
  (WebhookQueue.enqueue (VString "d") w).1 = Thrown QueueOverloadedError ∧
  ∃ rest,
    trace (WebhookQueue.enqueue (VString "d") w).2 = trace w ++ IncReceived :: rest ∧
    rest = [Log Warn "Queue overload, request rejected" (Some (VString "d")); IncTooMany].
Proof.
  intros w.
  assert ((WebhookQueue.enqueue (VString "d") w).1 = Thrown QueueOverloadedError) as Hfail
    by (vm_compute; reflexivity).
  split; [exact Hfail|]. clearbody w.
  destruct (enqueue_reports_every_arrival w (VString "d")) as (rest & Htrace & _ & _ & Hrej).
  exists rest. split; [exact Htrace|]. exact (proj2 (Hrej _ Hfail)).
Defined.

(** * Further properties of the code *)

(** The calls and jobs of [perform], unfolded down to the operations the hint
    base knows. *)
Ltac unfold_actions :=
  unfold WebhookQueue.processNext, settle, react, WebhookQueue.shutdown,
    WebhookQueue.drain, WebhookQueue.checkQueue, WorkerPool.constructor,
    WorkerPool.start, WorkerPool.stop, WorkerPool.stop_resume, worker_wake,
    WorkerPool.workerLoop_resume, WebhookQueue.processItem_resume;
  unfold_sinks.

(** ** Arrivals, admissions and rejections *)

Lemma count_event_app p t d :
  count_event p (t ++ d) = (count_event p t + count_event p d)%nat.
Proof. unfold count_event. by rewrite List.filter_app, length_app. Qed.

Lemma balanced_frame w w' : trace w' = trace w → balanced w → balanced w'.
Proof. unfold balanced. by intros ->. Qed.

Lemma balanced_appended d w :
  count_event is_IncReceived d =
    (length (admitted d) + count_event is_IncTooMany d)%nat →
  balanced w → balanced (set_trace (trace w ++ d) w).
Proof.
  unfold balanced. cbn [trace set_trace]. intros Hd Hw.
  rewrite !count_event_app, admitted_app, length_app. lia.
Qed.

#[local] Hint Extern 1 (preserves balanced (emit _)) =>
  intros ? ?; apply balanced_appended; [reflexivity|assumption] : pres.
#[local] Hint Extern 1 (preserves balanced (modify _)) =>
  apply preserves_modify; intros ? ?; eapply balanced_frame; [|eassumption];
  reflexivity : pres.
#[local] Hint Extern 1 (preserves balanced Date_now) =>
  intros ? ?; eapply balanced_frame; [|eassumption]; reflexivity : pres.
#[local] Hint Extern 1 (preserves balanced Math_random) =>
  intros ? ?; eapply balanced_frame; [|eassumption]; reflexivity : pres.

Lemma balanced_dequeue : preserves balanced WebhookQueue.dequeue.
Proof. unfold WebhookQueue.dequeue. unfold_sinks. preserve. Qed.

Lemma balanced_processItem it next : preserves balanced (WebhookQueue.processItem it next).
Proof. unfold WebhookQueue.processItem. preserve. Qed.

#[local] Hint Resolve balanced_dequeue balanced_processItem : pres.

Lemma balanced__scheduleProcessing : preserves balanced WebhookQueue._scheduleProcessing.
Proof.
  apply _scheduleProcessing_preserves. intros w _.
  assert (preserves balanced WebhookQueue.dispatch_one) as H; [|exact (H w)].
  unfold WebhookQueue.dispatch_one. unfold_sinks. preserve.
Qed.

#[local] Hint Resolve balanced__scheduleProcessing : pres.

Lemma balanced_enqueue it : preserves balanced (WebhookQueue.enqueue it).
Proof.
  intros w Hw. rewrite enqueue_unfold. destruct (bool_decide _); cbn.
  - by apply balanced_appended.
  - apply balanced__scheduleProcessing.
    apply (balanced_frame (set_trace (trace (stored it w)) w)); [reflexivity|].
    unfold stored. cbn. by apply balanced_appended.
Qed.

Lemma balanced_on_finally id : preserves balanced (WebhookQueue.on_finally id).
Proof. unfold WebhookQueue.on_finally. unfold_sinks. preserve. Qed.

Lemma balanced_workerLoop i : preserves balanced (WorkerPool.workerLoop i).
Proof. unfold WorkerPool.workerLoop, WorkerPool.park. preserve. Qed.

#[local] Hint Resolve balanced_enqueue balanced_on_finally balanced_workerLoop : pres.

Lemma balanced_spawn n : preserves balanced (WorkerPool.spawn n).
Proof. induction n as [|n IH]; cbn; preserve. Qed.

#[local] Hint Resolve balanced_spawn : pres.

Lemma balanced_perform a : preserves balanced (perform a).
Proof. destruct a; cbn; unfold_actions; preserve. Qed.

Lemma count_IncReceived_exec a w :
  count_event is_IncReceived (trace (exec a w)) =
  (count_event is_IncReceived (trace w) + if is_Enqueue a then 1 else 0)%nat.
Proof.
  destruct (since_exec a w) as (cs & Hs & Hcs).
  rewrite (count_event_since is_IncReceived _ _ _ ltac:(by intros []) Hs). f_equal.
  destruct a as [it| | |k ok|k| | |j|opts| | |j|i]; subst cs; try reflexivity.
  - by destruct (WebhookQueue.enqueue it w).1.
  - destruct (invocations w !! k) as [[? ? ? []]|]; try reflexivity. by destruct ok.
  - by destruct (WebhookQueue.idle w).
  - by destruct (WebhookQueue.idle w).
  - by destruct (WebhookQueue.idle w && _).
Qed.

(** X1. The received counter counts the calls of [enqueue], whatever else
    runs in between, and each call counted is either an item admitted or a
    rejection counted: no arrival is lost by the counters. *)
Theorem every_arrival_is_admitted_or_rejected :
  ∀ e c t acts,
    let w := run acts (createWebhookQueue e c t) in
    count_event is_IncReceived (trace w) = length (List.filter is_Enqueue acts) ∧
    count_event is_IncReceived (trace w) =
      (length (admitted (trace w)) + count_event is_IncTooMany (trace w))%nat.
Proof.
  intros e c t acts w. split.
  - subst w. induction acts as [|a acts IH] using rev_ind; [reflexivity|].
    rewrite run_snoc, count_IncReceived_exec, IH, List.filter_app, length_app. cbn.
    by destruct (is_Enqueue a).
  - apply (run_preserves balanced); [apply balanced_perform|reflexivity].
Qed.

(** ** Readings that nothing moves *)

Section Static.
Context {A : Type} (f : world → A).
Hypothesis f_reads : ∀ x w, f (set_reads x w) = f w.
Hypothesis f_queue : ∀ x w, f (set_queue x w) = f w.
Hypothesis f_processing : ∀ x w, f (set_processing x w) = f w.
Hypothesis f_processNext : ∀ x w, f (set_processNext x w) = f w.
Hypothesis f_pool : ∀ x w, f (set_pool x w) = f w.
Hypothesis f_invocations : ∀ x w, f (set_invocations x w) = f w.
Hypothesis f_pollers : ∀ x w, f (set_pollers x w) = f w.
Hypothesis f_trace : ∀ x w, f (set_trace x w) = f w.

Ltac static :=
  unfold unchanged, update_pool in *;
  rewrite ?f_reads, ?f_queue, ?f_processing, ?f_processNext, ?f_pool,
    ?f_invocations, ?f_pollers, ?f_trace;
  assumption.

#[local] Hint Extern 1 (preserves (unchanged f _) (modify _)) =>
  apply preserves_modify; intros ? ?; static : pres.
#[local] Hint Extern 1 (preserves (unchanged f _) (emit _)) =>
  apply preserves_modify; intros ? ?; static : pres.
#[local] Hint Extern 1 (preserves (unchanged f _) Date_now) =>
  intros ? ?; cbn; static : pres.
#[local] Hint Extern 1 (preserves (unchanged f _) Math_random) =>
  intros ? ?; cbn; static : pres.

Lemma static__scheduleProcessing x : preserves (unchanged f x) WebhookQueue._scheduleProcessing.
Proof.
  apply _scheduleProcessing_preserves. intros w _.
  assert (preserves (unchanged f x) WebhookQueue.dispatch_one) as H; [|exact (H w)].
  unfold WebhookQueue.dispatch_one, WebhookQueue.dequeue, WebhookQueue.processItem.
  unfold_sinks. preserve.
Qed.

#[local] Hint Resolve static__scheduleProcessing : pres.

Lemma static_spawn x n : preserves (unchanged f x) (WorkerPool.spawn n).
Proof.
  induction n as [|n IH]; cbn;
    unfold WorkerPool.workerLoop, WorkerPool.park, WebhookQueue.dequeue,
      WebhookQueue.processItem;
    unfold_sinks; preserve.
Qed.

#[local] Hint Resolve static_spawn : pres.

Lemma static_perform x a : preserves (unchanged f x) (perform a).
Proof.
  destruct a; cbn; unfold_actions;
    unfold WorkerPool.workerLoop, WorkerPool.park, WebhookQueue.enqueue,
      WebhookQueue.on_finally, WebhookQueue.dequeue, WebhookQueue.processItem;
    unfold_sinks; preserve.
Qed.

Lemma static_run acts w : f (run acts w) = f w.
Proof. by apply (run_preserves (unchanged f (f w))); [apply static_perform|]. Qed.

End Static.

Lemma threshold_run acts w : threshold (run acts w) = threshold w.
Proof. by apply static_run. Qed.

Lemma concurrency_run acts w : concurrency (run acts w) = concurrency w.
Proof. by apply static_run. Qed.

Lemma env_run acts w : env (run acts w) = env w.
Proof. by apply static_run. Qed.

(** ** A threshold that admits nothing *)

Lemma count_IncTooMany_exec a w :
  count_event is_IncTooMany (trace (exec a w)) =
  (count_event is_IncTooMany (trace w) +
   match a with
   | Enqueue it =>
       match (WebhookQueue.enqueue it w).1 with Thrown _ => 1 | Returned _ => 0 end
   | _ => 0
   end)%nat.
Proof.
  destruct (since_exec a w) as (cs & Hs & Hcs).
  rewrite (count_event_since is_IncTooMany _ _ _ ltac:(by intros []) Hs). f_equal.
  destruct a as [it| | |k ok|k| | |j|opts| | |j|i]; subst cs; try reflexivity.
  - by destruct (WebhookQueue.enqueue it w).1.
  - destruct (invocations w !! k) as [[? ? ? []]|]; try reflexivity. by destruct ok.
  - by destruct (WebhookQueue.idle w).
  - by destruct (WebhookQueue.idle w).
  - by destruct (WebhookQueue.idle w && _).
Qed.

(** X2. The threshold counts the arriving item: a queue whose threshold is 1
    or less rejects every call of [enqueue], so after any schedule nothing has
    been admitted, the queue is empty and the rejections counted are the calls
    made. *)
Theorem threshold_of_one_admits_nothing :
  ∀ e c t acts,
    let w := run acts (createWebhookQueue e c t) in
    threshold w ≤ 1 →
    (∀ it, (WebhookQueue.enqueue it w).1 = Thrown QueueOverloadedError) ∧
    admitted (trace w) = [] ∧ queue w = [] ∧
    count_event is_IncTooMany (trace w) = length (List.filter is_Enqueue acts).
Proof.
  intros e c t acts w Ht.
  assert (∀ w it, threshold w ≤ 1 →
            (WebhookQueue.enqueue it w).1 = Thrown QueueOverloadedError) as Hrej.
  { intros w' it Ht'. rewrite enqueue_unfold. rewrite bool_decide_eq_true_2; [reflexivity|lia]. }
  assert (count_event is_IncTooMany (trace w) = length (List.filter is_Enqueue acts)) as Hcount.
  { subst w. rewrite threshold_run in Ht.
    induction acts as [|a acts IH] using rev_ind; [reflexivity|].
    rewrite run_snoc, count_IncTooMany_exec, IH, List.filter_app, length_app. f_equal.
    destruct a; try reflexivity. cbn. rewrite Hrej; [reflexivity|].
    by rewrite threshold_run. }
  assert (admitted (trace w) = []) as Hadm.
  { assert (balanced w) as Hb
      by (apply (run_preserves balanced); [apply balanced_perform|reflexivity]).
    assert (count_event is_IncReceived (trace w) = length (List.filter is_Enqueue acts)) as Hrec.
    { subst w. clear. induction acts as [|a acts IH] using rev_ind; [reflexivity|].
      rewrite run_snoc, count_IncReceived_exec, IH, List.filter_app, length_app. cbn.
      by destruct (is_Enqueue a). }
    unfold balanced in Hb. apply length_zero_iff_nil. lia. }
  split; [intros it; by apply Hrej|]. split; [exact Hadm|]. split; [|exact Hcount].
  pose proof (inv_fifo w (invariant_run e c t acts)) as Hfifo. fold w in Hfifo.
  rewrite Hadm in Hfifo. apply app_eq_nil in Hfifo as [_ Hq].
  by apply map_eq_nil in Hq.
Qed.

Lemma threshold_of_one_admits_nothing_witness :
  let acts := [Enqueue (VString "a"); Enqueue (VString "b")] in
  let w := run acts (createWebhookQueue steady (Some 1) (Some 1)) in
  threshold w ≤ 1 ∧ admitted (trace w) = [] ∧ queue w = [] ∧
  count_event is_IncTooMany (trace w) = 2%nat.
Proof.
  intros acts w.
  assert (threshold w ≤ 1) as Ht by (vm_compute; discriminate).
  split; [exact Ht|].
  exact (proj2 (threshold_of_one_admits_nothing steady (Some 1) (Some 1) acts Ht)).
Defined.

(** ** No item waits while a slot is free *)

Lemma pumped_frame w w' :
  queue w' = queue w → processing w' = processing w → concurrency w' = concurrency w →
  pumped w → pumped w'.
Proof.
  unfold pumped, WebhookQueue.may_dispatch. by intros -> -> ->.
Qed.

Lemma pumped_shorter w rest :
  pumped w → queue w = rest ∨ (∃ first, queue w = first :: rest) →
  ∀ w', queue w' = rest → processing w' = processing w → concurrency w' = concurrency w →
  pumped w'.
Proof.
  unfold pumped, WebhookQueue.may_dispatch.
  intros Hw Hq w' -> -> ->.
  apply andb_false_iff in Hw as [Hw|Hw]; [by rewrite Hw|].
  destruct Hq as [Hq|[first Hq]]; rewrite Hq in Hw; [by rewrite Hw, andb_false_r|].
  cbn in Hw. apply bool_decide_eq_false in Hw. lia.
Qed.

Lemma pumped_dequeue : preserves pumped WebhookQueue.dequeue.
Proof.
  intros w Hw. rewrite dequeue_unfold.
  destruct (queue w) as [|first rest] eqn:Hq; [exact Hw|].
  apply (pumped_shorter w rest Hw); [right; by exists first|reflexivity..].
Qed.

Lemma pumped__scheduleProcessing w : pumped (WebhookQueue._scheduleProcessing w).2.
Proof. eapply pumps_stops, _scheduleProcessing_pumps. Qed.

#[local] Hint Resolve pumped_dequeue : pres.
#[local] Hint Extern 1 (preserves pumped WebhookQueue._scheduleProcessing) =>
  intros ? _; apply pumped__scheduleProcessing : pres.
#[local] Hint Extern 1 (preserves pumped (WebhookQueue.on_finally _)) =>
  intros ? _; rewrite on_finally_unfold; apply pumped__scheduleProcessing : pres.
#[local] Hint Extern 1 (preserves pumped (modify _)) =>
  apply preserves_modify; intros ? ?; eapply pumped_frame; [..|eassumption];
  reflexivity : pres.
#[local] Hint Extern 1 (preserves pumped (emit _)) =>
  apply preserves_modify; intros ? ?; eapply pumped_frame; [..|eassumption];
  reflexivity : pres.
#[local] Hint Extern 1 (preserves pumped Date_now) =>
  intros ? ?; eapply pumped_frame; [..|eassumption]; reflexivity : pres.

Lemma pumped_enqueue it : preserves pumped (WebhookQueue.enqueue it).
Proof.
  intros w Hw. rewrite enqueue_unfold. destruct (bool_decide _); cbn.
  - exact Hw.
  - apply pumped__scheduleProcessing.
Qed.

#[local] Hint Resolve pumped_enqueue : pres.

Lemma pumped_workerLoop i : preserves pumped (WorkerPool.workerLoop i).
Proof.
  unfold WorkerPool.workerLoop, WorkerPool.park, WebhookQueue.processItem. preserve.
Qed.

#[local] Hint Resolve pumped_workerLoop : pres.

Lemma pumped_spawn n : preserves pumped (WorkerPool.spawn n).
Proof. induction n as [|n IH]; cbn; preserve. Qed.

#[local] Hint Resolve pumped_spawn : pres.

Lemma pumped_perform a : preserves pumped (perform a).
Proof.
  destruct a; cbn;
    unfold WebhookQueue.processNext, settle, react, WebhookQueue.shutdown,
      WebhookQueue.drain, WebhookQueue.checkQueue, WorkerPool.constructor,
      WorkerPool.start, WorkerPool.stop, WorkerPool.stop_resume, worker_wake,
      WorkerPool.workerLoop_resume, WebhookQueue.processItem_resume;
    unfold_sinks; preserve.
Qed.

Lemma pumped_created e c t : pumped (createWebhookQueue e c t).
Proof. by apply may_dispatch_empty. Qed.

(** X3. After any schedule the dispatch loop has nothing left to do: an item
    waits in the queue only while the in-flight set has reached the limit.
    So a call of [processNext()], patched or not, changes nothing. *)
Theorem no_item_waits_for_a_free_slot :
  ∀ e c t acts,
    let w := run acts (createWebhookQueue e c t) in
    WebhookQueue.may_dispatch w = false ∧
    (queue w ≠ [] → concurrency w ≤ Z.of_nat (size (processing w))) ∧
    exec ProcessNext w = w.
Proof.
  intros e c t acts w.
  assert (pumped w) as Hw
    by (apply run_preserves; [apply pumped_perform|apply pumped_created]).
  split; [exact Hw|]. split.
  - intros Hne. destruct (decide (Z.of_nat (size (processing w)) < concurrency w)) as [Hlt|]; [|lia].
    assert (WebhookQueue.may_dispatch w = true) as Hgo by (by apply may_dispatch_true).
    unfold pumped in Hw. congruence.
  - unfold exec. cbn. unfold WebhookQueue.processNext.
    unfold mbind, M_bind, get. cbn.
    destruct (processNext_slot w); [|reflexivity].
    by rewrite _scheduleProcessing_idle.
Qed.

Lemma no_item_waits_for_a_free_slot_witness :
  let acts := [Enqueue (VString "a"); Enqueue (VString "b"); Enqueue (VString "c")] in
  let w := run acts (createWebhookQueue steady (Some 2) (Some 10)) in
  queue w ≠ [] ∧ concurrency w ≤ Z.of_nat (size (processing w)) ∧ exec ProcessNext w = w.
Proof.
  intros acts w.
  assert (queue w ≠ []) as Hne by (vm_compute; discriminate).
  destruct (no_item_waits_for_a_free_slot steady (Some 2) (Some 10) acts) as (_ & Hfull & Hnext).
  split; [exact Hne|]. split; [exact (Hfull Hne)|exact Hnext].
Defined.

(** ** How many invocations the dispatch loop has in flight *)

Lemma tracked_invocations e w :
  distinct_tokens e (reads w) → tracked e w → length (invocations w) = size (processing w).
Proof.
  intros Hinj [_ (ns & Hns & Hnd & Hlt & Hset) _ _].
  rewrite Hset, size_list_to_set.
  - rewrite length_fmap. rewrite <- (length_fmap inv_then), Hns. apply length_fmap.
  - apply NoDup_fmap_2_strong; [|exact Hnd].
    rewrite Forall_forall in Hlt.
    intros n m Hn Hm. apply Hinj; by apply Hlt.
Qed.

(** X4. When only the queue's own dispatch loop takes items and the readings
    of the clock and of the generator so far give no two tokens that are the
    same number, the pending invocations are as many as the tokens in flight:
    the processor is never at work on more than [concurrency] items.  A token that is the same number as one in flight
    takes no slot: the processor is called, and [processing] is as large as
    it was. *)
Theorem dispatch_loop_runs_at_most_concurrency_items :
  (∀ e c t acts,
     forallb internal acts = true →
     let w := run acts (createWebhookQueue e c t) in
     distinct_tokens e (reads w) →
     length (invocations w) = size (processing w) ∧
     (0 ≤ concurrency w → Z.of_nat (length (invocations w)) ≤ concurrency w)) ∧
  (∀ w first rest,
     queue w = first :: rest →
     token_at (env w) (S (reads w)) ∈ processing w →
     let w' := (WebhookQueue.dispatch_one w).2 in
     processing w' = processing w ∧
     processed (trace w') = processed (trace w) ++ [item first] ∧
     length (invocations w') = S (length (invocations w))).
Proof.
  split.
  - intros e c t acts Hint w Hinj.
    assert (tracked e w) as Htr
      by (apply tracked_run; [exact Hint|exact Hinj|apply (tracked_created e c t)]).
    pose proof (tracked_invocations e w Hinj Htr) as Hlen.
    split; [exact Hlen|]. rewrite Hlen. apply (inv_concurrency w), invariant_run.
  - intros w first rest Hq Hin w'. subst w'.
    unfold WebhookQueue.dispatch_one, WebhookQueue.dequeue, WebhookQueue.processItem.
    unfold_monad. cbn. rewrite Hq. cbn. split; [|split].
    + apply set_eq. intros x. rewrite elem_of_union, elem_of_singleton.
      split; [intros [->|Hx]; [exact Hin|exact Hx]|by right].
    + rewrite !processed_app. cbn. by rewrite !app_nil_r.
    + rewrite length_app. cbn. lia.
Qed.

Lemma dispatch_loop_runs_at_most_concurrency_items_witness :
  let acts := [Enqueue (VString "a"); Enqueue (VString "b"); Enqueue (VString "c")] in
  let w := run acts (createWebhookQueue steady (Some 2) (Some 10)) in
  let v := run [Enqueue (VString "a")] (createWebhookQueue crowded (Some 2) (Some 10)) in
  let v' := (WebhookQueue.dispatch_one
               (stored (VString "b") v)).2 in
  (forallb internal acts = true ∧ distinct_tokens steady (reads w) ∧ 0 ≤ concurrency w ∧
   length (invocations w) = 2%nat ∧
   Z.of_nat (length (invocations w)) ≤ concurrency w) ∧
  (token_at crowded (S (reads (stored (VString "b") v))) ∈ processing (stored (VString "b") v) ∧
   size (processing v') = 1%nat ∧ length (invocations v') = 2%nat).
Proof.
  intros acts w v v'.
  assert (forallb internal acts = true) as Hint by reflexivity.
  assert (distinct_tokens steady (reads w)) as Hinj
    by (apply distinct_tokens_NoDup, (bool_decide_unpack (NoDup _)); vm_compute; exact I).
  assert (0 ≤ concurrency w) as Hc by (vm_compute; discriminate).
  split.
  - split; [exact Hint|]. split; [exact Hinj|]. split; [exact Hc|].
    split; [vm_compute; reflexivity|].
    exact (proj2 (proj1 dispatch_loop_runs_at_most_concurrency_items
                    steady (Some 2) (Some 10) acts Hint Hinj) Hc).
  - set (u := stored (VString "b") v) in *.
    assert (token_at crowded (S (reads u)) ∈ processing u) as Hin
      by (apply (bool_decide_unpack (_ ∈ _)); vm_compute; exact I).
    assert (size (processing u) = 1%nat) as Hsize by (vm_compute; reflexivity).
    assert (length (invocations u) = 1%nat) as Hlen by (vm_compute; reflexivity).
    assert (env u = crowded) as Henv by reflexivity.
    destruct (queue u) as [|first rest] eqn:Hq; [vm_compute in Hq; discriminate|].
    clearbody u. split; [exact Hin|].
    rewrite <- Henv in Hin.
    destruct (proj2 dispatch_loop_runs_at_most_concurrency_items u first rest Hq Hin)
      as (Hp & _ & Hi).
    subst v'. by rewrite Hp, Hi, Hsize, Hlen.
Defined.

(** ** The backlog *)

Lemma backlog_dispatch_one w :
  WebhookQueue.may_dispatch w = true → backlog (WebhookQueue.dispatch_one w).2 = backlog w.
Proof.
  intros Hgo. apply may_dispatch_true in Hgo as [_ Hne].
  unfold WebhookQueue.dispatch_one, WebhookQueue.dequeue, WebhookQueue.processItem.
  unfold_monad. unfold backlog. cbn.
  destruct (queue w) as [|first rest] eqn:Hq; [done|]. cbn.
  rewrite length_app. cbn. lia.
Qed.

Lemma backlog__scheduleProcessing w :
  backlog (WebhookQueue._scheduleProcessing w).2 = backlog w.
Proof.
  apply (_scheduleProcessing_preserves (λ w', backlog w' = backlog w)); [|reflexivity].
  intros w' Hgo <-. by apply backlog_dispatch_one.
Qed.

Lemma run_app acts acts' w : run (acts ++ acts') w = run acts' (run acts w).
Proof. unfold run. apply foldl_app. Qed.

Lemma completions_internal ok n : forallb internal (completions ok n) = true.
Proof. induction n as [|n IH]; [reflexivity|exact IH]. Qed.

(** ** A limit that lets nothing through *)

Lemma stalled_frame w w' :
  concurrency w' = concurrency w → invocations w' = invocations w →
  trace w' = trace w → stalled w → stalled w'.
Proof. intros Hc Hi Ht [H1 H2 H3 H4]. split; congruence. Qed.

Lemma stalled_appended d w :
  handed_out d = [] → processed d = [] → stalled w → stalled (set_trace (trace w ++ d) w).
Proof.
  intros Hh Hp [H1 H2 H3 H4]. split; try assumption; cbn.
  - by rewrite handed_out_app, H2, Hh.
  - by rewrite processed_app, H3, Hp.
Qed.

Lemma stalled__scheduleProcessing w :
  concurrency w ≤ 0 → WebhookQueue._scheduleProcessing w = (tt, w).
Proof.
  intros Hc. apply _scheduleProcessing_idle.
  destruct (WebhookQueue.may_dispatch w) eqn:Hgo; [|reflexivity].
  apply may_dispatch_true in Hgo as [Hlt _]. lia.
Qed.

#[local] Hint Extern 1 (preserves stalled (emit _)) =>
  intros ? ?; apply stalled_appended; [reflexivity..|assumption] : pres.
#[local] Hint Extern 1 (preserves stalled (modify _)) =>
  apply preserves_modify; intros ? ?; eapply stalled_frame; [..|eassumption];
  reflexivity : pres.
#[local] Hint Extern 1 (preserves stalled Date_now) =>
  intros ? ?; eapply stalled_frame; [..|eassumption]; reflexivity : pres.
#[local] Hint Extern 1 (preserves stalled WebhookQueue._scheduleProcessing) =>
  intros ? ?; rewrite stalled__scheduleProcessing by (by apply stalled_limit);
  assumption : pres.

Lemma stalled_settle k ok : preserves stalled (settle k ok).
Proof.
  intros w Hw. unfold settle. unfold mbind at 1, M_bind, get. cbn.
  by rewrite (stalled_invocations w Hw).
Qed.

Lemma stalled_react k : preserves stalled (react k).
Proof.
  intros w Hw. unfold react. unfold mbind at 1, M_bind, get. cbn.
  by rewrite (stalled_invocations w Hw).
Qed.

#[local] Hint Resolve stalled_settle stalled_react : pres.

Lemma stalled_perform a : internal a = true → preserves stalled (perform a).
Proof.
  destruct a; try discriminate; intros _; cbn -[settle react];
    unfold WebhookQueue.processNext, WebhookQueue.shutdown, WebhookQueue.drain,
      WebhookQueue.checkQueue, WebhookQueue.enqueue;
    unfold_sinks; preserve.
Qed.

(** X6. With a limit of 0 or less and no worker pool the queue admits items
    but never starts the processor: after any such schedule every item
    admitted is still waiting, in order, and a [drain()] called while an item
    waits is not resolved. *)
Theorem limit_of_zero_processes_nothing :
  ∀ e c t acts,
    forallb internal acts = true →
    let w := run acts (createWebhookQueue e c t) in
    concurrency w ≤ 0 →
    processed (trace w) = [] ∧
    map item (queue w) = admitted (trace w) ∧
    (admitted (trace w) ≠ [] →
     count_event is_DrainResolved (trace (exec Drain w)) =
     count_event is_DrainResolved (trace w)).
Proof.
  intros e c t acts Hint w Hc.
  assert (stalled w) as [_ H2 H3 _].
  { apply run_preserves_internal; [apply stalled_perform|exact Hint|].
    split; try reflexivity. subst w. by rewrite concurrency_run in Hc. }
  pose proof (inv_fifo w (invariant_run e c t acts)) as Hfifo. fold w in Hfifo.
  rewrite H2 in Hfifo. cbn in Hfifo.
  split; [exact H3|]. split; [exact Hfifo|].
  intros Hne. unfold exec. cbn [perform]. rewrite drain_unfold.
  destruct (WebhookQueue.idle w) eqn:Hidle; [|reflexivity].
  apply idle_true in Hidle as [Hq _]. rewrite Hq in Hfifo. by destruct Hne.
Qed.

Lemma limit_of_zero_processes_nothing_witness :
  let acts := [Enqueue (VString "a"); Enqueue (VString "b"); ProcessNext] in
  let w := run acts (createWebhookQueue steady (Some 0) (Some 10)) in
  forallb internal acts = true ∧ concurrency w ≤ 0 ∧
  admitted (trace w) ≠ [] ∧
  processed (trace w) = [] ∧
  map item (queue w) = [VString "a"; VString "b"] ∧
  count_event is_DrainResolved (trace (exec Drain w)) =
  count_event is_DrainResolved (trace w).
Proof.
  intros acts w.
  assert (forallb internal acts = true) as Hint by reflexivity.
  assert (concurrency w ≤ 0) as Hc by (vm_compute; discriminate).
  assert (admitted (trace w) ≠ []) as Hne by (vm_compute; discriminate).
  destruct (limit_of_zero_processes_nothing steady (Some 0) (Some 10) acts Hint Hc)
    as (Hp & Hq & Hd).
  split; [exact Hint|]. split; [exact Hc|]. split; [exact Hne|]. split; [exact Hp|].
  split; [etrans; [exact Hq|vm_compute; reflexivity]|exact (Hd Hne)].
Defined.

(** ** What the workers take when the pool starts *)

(** One trip round the loop of a worker of a running pool. *)
Lemma workerLoop_running i w p :
  pool w = Some p → wp_running p = true →
  let w' := (WorkerPool.workerLoop i w).2 in
  queue w' = tail (queue w) ∧
  processing w' = processing w ∧
  processed (trace w') =
    processed (trace w) ++
    List.filter (λ v, negb (loosely_null v)) (map item (take 1 (queue w))) ∧
  handed_out (trace w') = handed_out (trace w) ++ map item (take 1 (queue w)) ∧
  ∃ s, pool w' = Some (WorkerPool.set_coroutines (<[ i := s ]> (wp_coroutines p)) p).
Proof.
  intros Hp Hrun. cbv zeta. unfold WorkerPool.workerLoop. unfold mbind, M_bind, get.
  cbn -[WorkerPool.park WebhookQueue.dequeue WebhookQueue.processItem].
  rewrite Hp, Hrun, dequeue_unfold.
  destruct (queue w) as [|first rest] eqn:Hq;
    cbn -[WorkerPool.park WebhookQueue.processItem].
  - unfold WorkerPool.park, modify, update_pool. cbn -[processed handed_out].
    rewrite Hp, ?Hq, !app_nil_r. cbn -[processed handed_out].
    repeat split; by eexists.
  - destruct (loosely_null (item first)) eqn:Hnull;
      cbn -[WorkerPool.park WebhookQueue.processItem].
    + unfold WorkerPool.park, modify, update_pool. cbn. rewrite Hp. cbn.
      rewrite !processed_app, !handed_out_app. cbn. rewrite !app_nil_r.
      repeat split; by eexists.
    + unfold WorkerPool.park, WebhookQueue.processItem. unfold_monad.
      unfold update_pool. cbn. rewrite Hp. cbn.
      rewrite !processed_app, !handed_out_app. cbn. rewrite !app_nil_r.
      repeat split; by eexists.
Qed.

Lemma spawn_running n : ∀ w p,
  pool w = Some p → wp_running p = true →
  let w' := (WorkerPool.spawn n w).2 in
  queue w' = drop n (queue w) ∧
  processing w' = processing w ∧
  processed (trace w') =
    processed (trace w) ++
    List.filter (λ v, negb (loosely_null v)) (map item (take n (queue w))) ∧
  ∃ p', pool w' = Some p' ∧ wp_running p' = true ∧
        length (wp_coroutines p') = (length (wp_coroutines p) + n)%nat.
Proof.
  induction n as [|n IH]; intros w p Hp Hrun.
  - cbn. rewrite drop_0, app_nil_r. repeat split. exists p. by rewrite Nat.add_0_r.
  - cbn -[take drop]. unfold mbind at 1 2 3, M_bind, get, modify. cbn -[take drop].
    set (w1 := update_pool (λ p, WorkerPool.set_coroutines (wp_coroutines p ++ [WSleeping]) p) w).
    set (p1 := WorkerPool.set_coroutines (wp_coroutines p ++ [WSleeping]) p).
    assert (pool w1 = Some p1) as Hp1 by (unfold w1, update_pool; cbn; by rewrite Hp).
    set (i := from_option (λ p, length (wp_coroutines p)) 0%nat (pool w)).
    destruct (workerLoop_running i w1 p1 Hp1 Hrun) as (Hq & Hproc & Htr & _ & s & Hp2).
    set (w2 := (WorkerPool.workerLoop i w1).2) in *.
    destruct (IH w2 _ Hp2 Hrun) as (Hq' & Hproc' & Htr' & p' & Hp' & Hrun' & Hlen').
    split; [|split; [|split]].
    + etrans; [exact Hq'|]. rewrite Hq. change (queue w1) with (queue w).
      destruct (queue w); cbn; [by rewrite drop_nil|done].
    + etrans; [exact Hproc'|exact Hproc].
    + etrans; [exact Htr'|]. rewrite Htr, Hq. change (queue w1) with (queue w). change (trace w1) with (trace w).
      rewrite <- app_assoc. f_equal. rewrite <- List.filter_app, <- map_app.
      destruct (queue w); cbn; [by rewrite take_nil|done].
    + exists p'. split; [exact Hp'|]. split; [exact Hrun'|].
      etrans; [exact Hlen'|]. cbn. rewrite length_insert, length_app. cbn. lia.
Qed.

(** X7. [start()] on a pool that is already running only logs a warning.  On
    a stopped pool it spawns [concurrency] workers, none if the number is not
    positive, and each takes one entry off the queue before [start()] returns:
    the first [concurrency] entries leave the queue at once, the processor is
    called with those that are neither [null] nor [undefined], in order, and
    the in-flight set is not touched. *)
Theorem start_spawns_workers_that_take_the_head_of_the_queue :
  ∀ w p,
    pool w = Some p →
    (wp_running p = true →
     (WorkerPool.start w).2 =
     set_trace (trace w ++ [Log Warn "Worker pool is already running" None]) w) ∧
    (wp_running p = false →
     let n := Z.to_nat (wp_concurrency p) in
     let w' := (WorkerPool.start w).2 in
     queue w' = drop n (queue w) ∧
     processing w' = processing w ∧
     processed (trace w') =
       processed (trace w) ++
       List.filter (λ v, negb (loosely_null v)) (map item (take n (queue w))) ∧
     ∃ p', pool w' = Some p' ∧ wp_running p' = true ∧
           length (wp_coroutines p') = (length (wp_coroutines p) + n)%nat).
Proof.
  intros w p Hp. split; intros Hrun.
  - unfold WorkerPool.start. unfold_monad. cbn. by rewrite Hp, Hrun.
  - cbv zeta. unfold WorkerPool.start. unfold_sinks.
    unfold mbind, M_bind, get, emit, modify. cbn -[WorkerPool.spawn].
    rewrite Hp, Hrun.
    set (w1 := set_trace _ _).
    assert (pool w1 = Some (WorkerPool.set_running true p)) as Hp1
      by (unfold w1, update_pool; cbn; by rewrite Hp).
    destruct (spawn_running (Z.to_nat (wp_concurrency p)) w1 _ Hp1 eq_refl)
      as (Hq & Hproc & Htr & p' & Hp' & Hrun' & Hlen).
    split; [exact Hq|]. split; [exact Hproc|]. split.
    + rewrite Htr. unfold w1. cbn. rewrite processed_app. cbn. by rewrite app_nil_r.
    + by exists p'.
Qed.

Lemma start_spawns_workers_that_take_the_head_of_the_queue_witness :
  let w := run [PoolNew {| opt_concurrency := Some 2; opt_disableQueueProcessing := None |};
                Enqueue (VString "a"); Enqueue VNull; Enqueue (VString "c");
                Enqueue (VString "d")]
               (createWebhookQueue steady (Some 1) (Some 10)) in
  let w' := (WorkerPool.start w).2 in
  ∃ p, pool w = Some p ∧ wp_running p = false ∧
       map item (queue w) = [VNull; VString "c"; VString "d"] ∧
       map item (queue w') = [VString "d"] ∧
       processed (trace w') = processed (trace w) ++ [VString "c"] ∧
       (WorkerPool.start w').2 =
       set_trace (trace w' ++ [Log Warn "Worker pool is already running" None]) w'.
Proof.
  intros w w'.
  destruct (pool w) as [p|] eqn:Hp; [|vm_compute in Hp; discriminate].
  assert (wp_running p = false) as Hrun
    by (vm_compute in Hp; injection Hp as <-; reflexivity).
  assert (Z.to_nat (wp_concurrency p) = 2%nat) as Hn
    by (vm_compute in Hp; injection Hp as <-; reflexivity).
  assert (map item (queue w) = [VNull; VString "c"; VString "d"]) as Hq
    by (vm_compute; reflexivity).
  destruct (proj2 (start_spawns_workers_that_take_the_head_of_the_queue w p Hp) Hrun)
    as (Hq' & _ & Htr & p' & Hp' & Hrun' & _).
  fold w' in Hq', Htr, Hp'. rewrite Hn in Hq', Htr.
  clearbody w'. clearbody w.
  exists p. split; [reflexivity|]. split; [exact Hrun|]. split; [exact Hq|].
  split; [by rewrite Hq', <- skipn_map, Hq|]. split.
  - rewrite Htr, <- firstn_map, Hq. reflexivity.
  - exact (proj1 (start_spawns_workers_that_take_the_head_of_the_queue w' p' Hp') Hrun').
Defined.

(** X8. A worker that takes [null] or [undefined] off the queue treats it as
    an empty queue: the entry is gone from the queue and logged as dequeued,
    but the processor is not called with it, no invocation is pending for it
    and the worker goes to sleep. *)
Theorem worker_drops_a_null_item :
  ∀ w p i first rest,
    pool w = Some p → wp_running p = true →
    queue w = first :: rest → loosely_null (item first) = true →
    let w' := (WorkerPool.workerLoop i w).2 in
    queue w' = rest ∧
    handed_out (trace w') = handed_out (trace w) ++ [item first] ∧
    processed (trace w') = processed (trace w) ∧
    invocations w' = invocations w ∧
    processing w' = processing w ∧
    coroutines w' = <[ i := WSleeping ]> (coroutines w).
Proof.
  intros w p i first rest Hp Hrun Hq Hnull. cbv zeta.
  unfold WorkerPool.workerLoop. unfold mbind, M_bind, get.
  cbn -[WorkerPool.park WebhookQueue.dequeue].
  rewrite Hp, Hrun, dequeue_unfold, Hq. cbn -[WorkerPool.park]. rewrite Hnull.
  unfold WorkerPool.park, modify, update_pool, coroutines. cbn. rewrite Hp. cbn.
  rewrite handed_out_app, processed_app. cbn. rewrite app_nil_r.
  repeat split.
Qed.

Lemma worker_drops_a_null_item_witness :
  let w := run [PoolNew default_options; PoolStart; Enqueue (VString "a"); Enqueue VNull]
               (createWebhookQueue steady (Some 1) (Some 5)) in
  let w' := (WorkerPool.workerLoop 0 w).2 in
  ∃ p first,
    pool w = Some p ∧ wp_running p = true ∧ queue w = [first] ∧
    loosely_null (item first) = true ∧
    queue w' = [] ∧ processed (trace w') = processed (trace w) ∧
    invocations w' = invocations w.
Proof.
  intros w w'.
  destruct (pool w) as [p|] eqn:Hp; [|vm_compute in Hp; discriminate].
  destruct (queue w) as [|first rest] eqn:Hq; [vm_compute in Hq; discriminate|].
  assert (rest = []) as -> by (vm_compute in Hq; by injection Hq as _ <-).
  assert (wp_running p = true) as Hrun
    by (vm_compute in Hp; injection Hp as <-; reflexivity).
  assert (loosely_null (item first) = true) as Hnull
    by (vm_compute in Hq; injection Hq as <-; reflexivity).
  subst w'. clearbody w.
  exists p, first. split; [reflexivity|]. split; [exact Hrun|]. split; [reflexivity|].
  split; [exact Hnull|].
  pose proof (worker_drops_a_null_item w p 0%nat first [] Hp Hrun Hq Hnull)
    as (Hq' & _ & Hproc & Hinv & _).
  split; [exact Hq'|]. split; [exact Hproc|exact Hinv].
Defined.

(** ** No item is handed to the processor twice *)

Lemma called_once_frame w w' : trace w' = trace w → called_once w → called_once w'.
Proof. unfold called_once. by intros ->. Qed.

Lemma called_once_appended d w :
  processed d `sublist_of` handed_out d →
  called_once w → called_once (set_trace (trace w ++ d) w).
Proof.
  unfold called_once. cbn. intros Hd Hw.
  rewrite processed_app, handed_out_app. by apply sublist_app.
Qed.

Lemma called_once_grown w w' l k :
  processed (trace w') = processed (trace w) ++ l →
  handed_out (trace w') = handed_out (trace w) ++ k →
  l `sublist_of` k → called_once w → called_once w'.
Proof. unfold called_once. intros -> -> Hlk Hw. by apply sublist_app. Qed.

#[local] Hint Extern 1 (preserves called_once (emit _)) =>
  intros ? ?; apply called_once_appended; [by repeat constructor|assumption] : pres.
#[local] Hint Extern 1 (preserves called_once (modify _)) =>
  apply preserves_modify; intros ? ?; eapply called_once_frame; [|eassumption];
  reflexivity : pres.
#[local] Hint Extern 1 (preserves called_once Date_now) =>
  intros ? ?; eapply called_once_frame; [|eassumption]; reflexivity : pres.
#[local] Hint Extern 1 (preserves called_once Math_random) =>
  intros ? ?; eapply called_once_frame; [|eassumption]; reflexivity : pres.

Lemma called_once_dequeue : preserves called_once WebhookQueue.dequeue.
Proof. unfold WebhookQueue.dequeue. unfold_sinks. preserve. Qed.

#[local] Hint Resolve called_once_dequeue : pres.

Lemma called_once_dispatch_one w :
  WebhookQueue.may_dispatch w = true → called_once w →
  called_once (WebhookQueue.dispatch_one w).2.
Proof.
  intros Hgo Hw. apply may_dispatch_true in Hgo as [_ Hne].
  destruct (queue w) as [|first rest] eqn:Hq; [done|].
  apply (called_once_grown w _ [item first] [item first]); [..|done|exact Hw].
  - unfold WebhookQueue.dispatch_one, WebhookQueue.dequeue, WebhookQueue.processItem.
    unfold_monad. cbn. rewrite Hq. cbn. rewrite !processed_app. cbn.
    by rewrite !app_nil_r.
  - unfold WebhookQueue.dispatch_one, WebhookQueue.dequeue, WebhookQueue.processItem.
    unfold_monad. cbn. rewrite Hq. cbn. rewrite !handed_out_app. cbn.
    by rewrite !app_nil_r.
Qed.

Lemma called_once__scheduleProcessing : preserves called_once WebhookQueue._scheduleProcessing.
Proof. apply _scheduleProcessing_preserves, called_once_dispatch_one. Qed.

#[local] Hint Resolve called_once__scheduleProcessing : pres.

Lemma called_once_enqueue it : preserves called_once (WebhookQueue.enqueue it).
Proof. unfold WebhookQueue.enqueue. unfold_sinks. preserve. Qed.

Lemma called_once_on_finally id : preserves called_once (WebhookQueue.on_finally id).
Proof. unfold WebhookQueue.on_finally. unfold_sinks. preserve. Qed.

Lemma called_once_workerLoop i : preserves called_once (WorkerPool.workerLoop i).
Proof.
  intros w Hw.
  destruct (pool w) as [p|] eqn:Hp.
  - destruct (wp_running p) eqn:Hrun.
    + destruct (workerLoop_running i w p Hp Hrun) as (_ & _ & Htr & Hho & _).
      eapply called_once_grown; [exact Htr|exact Hho| |exact Hw].
      destruct (queue w) as [|first rest]; cbn; [done|].
      destruct (loosely_null (item first)); cbn; [by apply sublist_cons|done].
    + unfold WorkerPool.workerLoop. unfold mbind, M_bind, get. cbn. rewrite Hp, Hrun.
      exact Hw.
  - unfold WorkerPool.workerLoop. unfold mbind, M_bind, get. cbn. by rewrite Hp.
Qed.

#[local] Hint Resolve called_once_enqueue called_once_on_finally called_once_workerLoop : pres.

Lemma called_once_spawn n : preserves called_once (WorkerPool.spawn n).
Proof. induction n as [|n IH]; cbn; preserve. Qed.

#[local] Hint Resolve called_once_spawn : pres.

Lemma called_once_perform a : preserves called_once (perform a).
Proof. destruct a; cbn; unfold_actions; preserve. Qed.

(** X9. Whoever takes an item off the queue, the dispatch loop, a worker of
    the pool or a caller of [dequeue()], the processor is called with it at
    most once: after any schedule the items the processor has been called
    with are, in order, among the items handed out, each of which left the
    queue once. *)
Theorem no_item_is_processed_twice :
  ∀ e c t acts,
    let w := run acts (createWebhookQueue e c t) in
    processed (trace w) `sublist_of` handed_out (trace w) ∧
    handed_out (trace w) ++ map item (queue w) = admitted (trace w) ∧
    (length (processed (trace w)) ≤ length (admitted (trace w)))%nat.
Proof.
  intros e c t acts w.
  assert (called_once w) as Hw
    by (apply run_preserves; [apply called_once_perform|apply sublist_nil]).
  pose proof (inv_fifo w (invariant_run e c t acts)) as Hfifo.
  split; [exact Hw|]. split; [exact Hfifo|].
  apply sublist_length in Hw. rewrite <- Hfifo, length_app. lia.
Qed.

(** ** A queue that nobody enqueues into *)

Lemma vacant_frame w w' :
  queue w' = queue w → processing w' = processing w →
  invocations w' = invocations w → trace w' = trace w →
  vacant w → vacant w'.
Proof. intros Hq Hp Hi Ht [H1 H2 H3 H4]. split; congruence. Qed.

Lemma vacant_appended d w :
  processed d = [] → vacant w → vacant (set_trace (trace w ++ d) w).
Proof.
  intros Hd [H1 H2 H3 H4]. split; try assumption.
  cbn. by rewrite processed_app, H4, Hd.
Qed.

Lemma vacant_dequeue w : vacant w → WebhookQueue.dequeue w = (VNull, w).
Proof. intros [H1 _ _ _]. by rewrite dequeue_unfold, H1. Qed.

Lemma vacant__scheduleProcessing w :
  vacant w → WebhookQueue._scheduleProcessing w = (tt, w).
Proof. intros [H1 _ _ _]. by apply _scheduleProcessing_idle, may_dispatch_empty. Qed.

#[local] Hint Extern 1 (preserves vacant (emit _)) =>
  intros ? ?; apply vacant_appended; [reflexivity|assumption] : pres.
#[local] Hint Extern 1 (preserves vacant (modify _)) =>
  apply preserves_modify; intros ? ?; eapply vacant_frame; [..|eassumption];
  reflexivity : pres.
#[local] Hint Extern 1 (preserves vacant WebhookQueue.dequeue) =>
  intros ? ?; rewrite vacant_dequeue by assumption; assumption : pres.
#[local] Hint Extern 1 (preserves vacant WebhookQueue._scheduleProcessing) =>
  intros ? ?; rewrite vacant__scheduleProcessing by assumption; assumption : pres.

Lemma vacant_workerLoop i : preserves vacant (WorkerPool.workerLoop i).
Proof.
  intros w Hw. unfold WorkerPool.workerLoop. unfold mbind, M_bind, get.
  cbn -[WorkerPool.park WebhookQueue.dequeue].
  assert (∀ s, preserves vacant (WorkerPool.park i s)) as Hpark
    by (intros s; unfold WorkerPool.park; preserve).
  destruct (pool w) as [p|]; [|exact Hw].
  destruct (wp_running p); [|by apply Hpark].
  rewrite (vacant_dequeue w Hw). cbn -[WorkerPool.park]. by apply Hpark.
Qed.

#[local] Hint Resolve vacant_workerLoop : pres.

Lemma vacant_spawn n : preserves vacant (WorkerPool.spawn n).
Proof. induction n as [|n IH]; cbn; preserve. Qed.

#[local] Hint Resolve vacant_spawn : pres.

Lemma vacant_settle k ok : preserves vacant (settle k ok).
Proof.
  intros w Hw. unfold settle. unfold mbind at 1, M_bind, get. cbn.
  by rewrite (vacant_invocations w Hw).
Qed.

Lemma vacant_react k : preserves vacant (react k).
Proof.
  intros w Hw. unfold react. unfold mbind at 1, M_bind, get. cbn.
  by rewrite (vacant_invocations w Hw).
Qed.

#[local] Hint Resolve vacant_settle vacant_react : pres.

Lemma vacant_perform a : is_Enqueue a = false → preserves vacant (perform a).
Proof.
  destruct a; try discriminate; intros _; cbn -[settle react];
    unfold WebhookQueue.processNext, WebhookQueue.shutdown, WebhookQueue.drain,
      WebhookQueue.checkQueue, WorkerPool.constructor, WorkerPool.start,
      WorkerPool.stop, WorkerPool.stop_resume, worker_wake;
    unfold_sinks; preserve.
Qed.

Lemma run_preserves_only (ok : action → bool) (I : world → Prop) acts :
  (∀ a, ok a = true → preserves I (perform a)) →
  forallb ok acts = true → ∀ w, I w → I (run acts w).
Proof.
  intros Hstep Hall w Hw. induction acts as [|a acts IH] using rev_ind; [exact Hw|].
  rewrite forallb_app in Hall. cbn in Hall.
  apply andb_true_iff in Hall as [Hacts Ha]. rewrite andb_true_r in Ha.
  rewrite run_snoc. by apply Hstep, IH.
Qed.

(** X10. A queue that nobody enqueues into stays empty whatever its worker
    pool does: after any schedule without a call of [enqueue] nothing waits,
    nothing is in flight, the processor has never been called, and [drain()]
    resolves at once.  (This is the queue [src/index.js] builds and hands to
    the pool: the route enqueues into the default queue of [queue.js].) *)
Theorem queue_without_enqueue_stays_empty :
  ∀ e c t acts,
    forallb (λ a, negb (is_Enqueue a)) acts = true →
    let w := run acts (createWebhookQueue e c t) in
    queue w = [] ∧ processing w = ∅ ∧ invocations w = [] ∧
    processed (trace w) = [] ∧
    trace (exec Drain w) = trace w ++ [DrainResolved].
Proof.
  intros e c t acts Hno w.
  assert (vacant w) as Hw.
  { apply (run_preserves_only (λ a, negb (is_Enqueue a))); [|exact Hno|by split].
    intros a Ha. apply vacant_perform. by apply negb_true_iff. }
  destruct Hw as [H1 H2 H3 H4].
  split; [exact H1|]. split; [exact H2|]. split; [exact H3|]. split; [exact H4|].
  unfold exec. cbn [perform]. rewrite drain_idle; [reflexivity|].
  by apply idle_true.
Qed.

Lemma queue_without_enqueue_stays_empty_witness :
  let acts := [PoolNew default_options; PoolStart; WorkerWake 0; WorkerWake 3;
               PoolStop; WorkerWake 0] in
  let w := run acts (createWebhookQueue steady (Some 10) (Some 100)) in
  forallb (λ a, negb (is_Enqueue a)) acts = true ∧
  length (coroutines w) = 10%nat ∧
  processed (trace w) = [] ∧
  trace (exec Drain w) = trace w ++ [DrainResolved].
Proof.
  intros acts w.
  assert (forallb (λ a, negb (is_Enqueue a)) acts = true) as Hno by reflexivity.
  split; [exact Hno|]. split; [vm_compute; reflexivity|].
  exact (proj2 (proj2 (proj2 (queue_without_enqueue_stays_empty
                                steady (Some 10) (Some 100) acts Hno)))).
Defined.

(** ** The order in which loop and workers together start the processor *)

Lemma served_frame w w' :
  trace w' = trace w → queue w' = queue w → served w → served w'.
Proof. intros Ht Hq [H1 H2]. split; by rewrite Ht || rewrite Hq. Qed.

Lemma served_appended d w :
  processed d = handed_out d → served w → served (set_trace (trace w ++ d) w).
Proof.
  intros Hd [H1 H2]. split; [|exact H2]. cbn.
  by rewrite processed_app, handed_out_app, Hd, H1.
Qed.

Lemma served_dispatch_one w :
  WebhookQueue.may_dispatch w = true → served w → served (WebhookQueue.dispatch_one w).2.
Proof.
  intros Hgo [H1 H2]. apply may_dispatch_true in Hgo as [_ Hne].
  unfold WebhookQueue.dispatch_one, WebhookQueue.dequeue, WebhookQueue.processItem.
  unfold_monad. cbn.
  destruct (queue w) as [|first rest] eqn:Hq; [done|]. cbn.
  split; cbn.
  - rewrite !processed_app, !handed_out_app. cbn. rewrite !app_nil_r. by rewrite H1.
  - by apply Forall_cons in H2 as [_ H2].
Qed.

Lemma served__scheduleProcessing : preserves served WebhookQueue._scheduleProcessing.
Proof. apply _scheduleProcessing_preserves, served_dispatch_one. Qed.

Lemma served_enqueue it :
  loosely_null it = false → preserves served (WebhookQueue.enqueue it).
Proof.
  intros Hit w Hw. rewrite enqueue_unfold. destruct (bool_decide _); cbn.
  - by apply served_appended.
  - apply served__scheduleProcessing. destruct Hw as [H1 H2]. unfold stored. split; cbn.
    + rewrite processed_app, handed_out_app. cbn. by rewrite H1.
    + apply Forall_app. split; [exact H2|]. by apply Forall_singleton.
Qed.

Lemma served_workerLoop i : preserves served (WorkerPool.workerLoop i).
Proof.
  intros w Hw.
  destruct (pool w) as [p|] eqn:Hp.
  - destruct (wp_running p) eqn:Hrun.
    + destruct (workerLoop_running i w p Hp Hrun) as (Hq & _ & Htr & Hho & _).
      destruct Hw as [H1 H2]. split.
      * rewrite Htr, Hho, H1. f_equal.
        destruct (queue w) as [|first rest]; cbn; [done|].
        apply Forall_cons in H2 as [-> _]. reflexivity.
      * rewrite Hq. destruct (queue w); [exact H2|]. by apply Forall_cons in H2 as [_ H2].
    + unfold WorkerPool.workerLoop. unfold mbind, M_bind, get. cbn. rewrite Hp, Hrun.
      eapply served_frame; [..|exact Hw]; reflexivity.
  - unfold WorkerPool.workerLoop. unfold mbind, M_bind, get. cbn. by rewrite Hp.
Qed.

#[local] Hint Resolve served__scheduleProcessing served_workerLoop : pres.
#[local] Hint Extern 1 (preserves served (emit _)) =>
  intros ? ?; apply served_appended; [reflexivity|assumption] : pres.
#[local] Hint Extern 1 (preserves served (modify _)) =>
  apply preserves_modify; intros ? ?; eapply served_frame; [..|eassumption];
  reflexivity : pres.
#[local] Hint Extern 1 (preserves served Date_now) =>
  intros ? ?; eapply served_frame; [..|eassumption]; reflexivity : pres.

Lemma served_spawn n : preserves served (WorkerPool.spawn n).
Proof. induction n as [|n IH]; cbn; preserve. Qed.

#[local] Hint Resolve served_spawn : pres.

Lemma served_perform a : keeps_items a = true → preserves served (perform a).
Proof.
  destruct a as [it| | |k ok|k| | |j|opts| | |j|i]; try discriminate; intros Ha.
  - apply preserves_bind; [|intros; apply preserves_ret].
    apply served_enqueue. by apply negb_true_iff.
  - cbn. unfold_actions. preserve.
  - cbn. unfold_actions. preserve.
  - cbn. unfold_actions. unfold WebhookQueue.on_finally. unfold_sinks. preserve.
  - cbn. unfold_actions. preserve.
  - cbn. unfold_actions. preserve.
  - cbn. unfold_actions. preserve.
  - cbn. unfold_actions. preserve.
  - cbn. unfold_actions. preserve.
  - cbn. unfold_actions. preserve.
  - cbn. unfold_actions. preserve.
  - cbn. unfold_actions. preserve.
Qed.

(** X11. With the worker pool taking items as well as the dispatch loop, as
    long as nobody calls [dequeue()] from outside and no [null] or [undefined]
    item is enqueued, the processor is called with every item that leaves the
    queue, in the order of admission: the items it has been called with,
    followed by those still waiting, are the items admitted. *)
Theorem loop_and_workers_start_items_in_admission_order :
  ∀ e c t acts,
    forallb keeps_items acts = true →
    let w := run acts (createWebhookQueue e c t) in
    processed (trace w) = handed_out (trace w) ∧
    processed (trace w) ++ map item (queue w) = admitted (trace w).
Proof.
  intros e c t acts Hok w.
  assert (served w) as [Hw _].
  { apply (run_preserves_only keeps_items); [apply served_perform|exact Hok|].
    split; [reflexivity|constructor]. }
  split; [exact Hw|]. rewrite Hw. apply (inv_fifo w), invariant_run.
Qed.

Lemma loop_and_workers_start_items_in_admission_order_witness :
  let acts := [PoolNew default_options; PoolStart;
               Enqueue (VString "a"); Enqueue (VString "b"); Enqueue (VString "c");
               WorkerWake 4; Settle 0 false; React 0] in
  let w := run acts (createWebhookQueue steady (Some 1) (Some 10)) in
  forallb keeps_items acts = true ∧
  processed (trace w) ++ map item (queue w) = admitted (trace w) ∧
  processed (trace w) = [VString "a"; VString "b"; VString "c"] ∧
  map (λ inv, (inv_item inv, started_by_loop inv)) (invocations w) =
    [(VString "b", false); (VString "c", true)].
Proof.
  intros acts w.
  assert (forallb keeps_items acts = true) as Hok by reflexivity.
  split; [exact Hok|].
  split; [exact (proj2 (loop_and_workers_start_items_in_admission_order
                          steady (Some 1) (Some 10) acts Hok))|].
  split; vm_compute; reflexivity.
Defined.

(** ** Calls of the processor and their settlements *)

Lemma succeeded_app t d : succeeded (t ++ d) = succeeded t ++ succeeded d.
Proof. apply omap_app. Qed.

Lemma failed_app t d : failed (t ++ d) = failed t ++ failed d.
Proof. apply omap_app. Qed.

Lemma settled_length t :
  length (settled t) = (length (succeeded t) + length (failed t))%nat.
Proof.
  induction t as [|e t IH]; [reflexivity|].
  change (e :: t) with ([e] ++ t).
  rewrite settled_app, succeeded_app, failed_app, !length_app, IH.
  assert (length (settled [e]) = (length (succeeded [e]) + length (failed [e]))%nat) as ->; [|lia].
  destruct e as [| | | | | |lvl msg [it|]| | | |]; try reflexivity.
  unfold settled, succeeded, failed. cbn.
  destruct lvl; cbn; try reflexivity.
  by destruct (String.eqb msg "Processed item successfully").
Qed.

Lemma accounted_frame w w' :
  trace w' = trace w → invocations w' = invocations w → accounted w → accounted w'.
Proof. intros Ht Hi [H1 H2]. split; by rewrite Ht, ?Hi. Qed.

Lemma accounted_appended d w :
  processed d = [] → settled d = [] → succeeded d = [] →
  count_event is_IncProcessed d = 0%nat →
  accounted w → accounted (set_trace (trace w ++ d) w).
Proof.
  intros Hp Hs Hok Hc [H1 H2]. split; cbn [trace set_trace invocations].
  - by rewrite settled_app, processed_app, Hp, Hs, !app_nil_r.
  - rewrite count_event_app, succeeded_app, length_app, Hok, Hc. cbn. lia.
Qed.

#[local] Hint Extern 1 (preserves accounted (emit _)) =>
  intros ? ?; apply accounted_appended; [reflexivity..|assumption] : pres.
#[local] Hint Extern 1 (preserves accounted (modify _)) =>
  apply preserves_modify; intros ? ?; eapply accounted_frame; [..|eassumption];
  reflexivity : pres.
#[local] Hint Extern 1 (preserves accounted Date_now) =>
  intros ? ?; eapply accounted_frame; [..|eassumption]; reflexivity : pres.
#[local] Hint Extern 1 (preserves accounted Math_random) =>
  intros ? ?; eapply accounted_frame; [..|eassumption]; reflexivity : pres.

Lemma accounted_dequeue : preserves accounted WebhookQueue.dequeue.
Proof. unfold WebhookQueue.dequeue. unfold_sinks. preserve. Qed.

Lemma accounted_processItem it next : preserves accounted (WebhookQueue.processItem it next).
Proof.
  intros w [H1 H2]. unfold WebhookQueue.processItem. unfold_monad. cbn.
  split; cbn [trace set_trace invocations set_invocations set_reads].
  - rewrite List.filter_app, map_app, settled_app, processed_app. cbn.
    rewrite app_nil_r, app_assoc. by rewrite H1.
  - rewrite count_event_app, succeeded_app, length_app.
    unfold count_event, succeeded in *. cbn in *.
      rewrite ?bool_decide_eq_true_2, ?bool_decide_eq_false_2 by done. cbn. lia.
Qed.

#[local] Hint Resolve accounted_dequeue accounted_processItem : pres.

Lemma accounted__scheduleProcessing : preserves accounted WebhookQueue._scheduleProcessing.
Proof.
  apply _scheduleProcessing_preserves. intros w _.
  assert (preserves accounted WebhookQueue.dispatch_one) as H; [|exact (H w)].
  unfold WebhookQueue.dispatch_one. unfold_sinks. preserve.
Qed.

#[local] Hint Resolve accounted__scheduleProcessing : pres.

Lemma accounted_enqueue it : preserves accounted (WebhookQueue.enqueue it).
Proof. unfold WebhookQueue.enqueue. unfold_sinks. preserve. Qed.

Lemma accounted_on_finally id : preserves accounted (WebhookQueue.on_finally id).
Proof. unfold WebhookQueue.on_finally. unfold_sinks. preserve. Qed.

Lemma accounted_workerLoop i : preserves accounted (WorkerPool.workerLoop i).
Proof. unfold WorkerPool.workerLoop, WorkerPool.park. preserve. Qed.

#[local] Hint Resolve accounted_enqueue accounted_on_finally accounted_workerLoop : pres.

Lemma accounted_spawn n : preserves accounted (WorkerPool.spawn n).
Proof. induction n as [|n IH]; cbn; preserve. Qed.

#[local] Hint Resolve accounted_spawn : pres.

Lemma accounted_settle k ok : preserves accounted (settle k ok).
Proof.
  intros w Hw. unfold settle. unfold mbind at 1, M_bind, get. cbn.
  destruct (invocations w !! k) as [inv|] eqn:Hk; [|exact Hw].
  destruct (inv_phase inv) eqn:Hph; [|exact Hw..].
  destruct Hw as [H1 H2].
  unfold WebhookQueue.processItem_resume. destruct ok; unfold_monad; cbn.
  - split; cbn [trace set_trace invocations set_invocations set_reads].
    + rewrite !settled_app, !processed_app. cbn. rewrite !app_nil_r.
      rewrite <- H1, <- app_assoc. apply Permutation_app_head. cbn.
      symmetry. by apply awaiting_settled.
    + rewrite !count_event_app, !succeeded_app, !length_app.
      unfold count_event, succeeded in *. cbn in *.
      rewrite ?bool_decide_eq_true_2, ?bool_decide_eq_false_2 by done. cbn. lia.
  - split; cbn [trace set_trace invocations set_invocations set_reads].
    + rewrite !settled_app, !processed_app. cbn. rewrite !app_nil_r.
      rewrite <- H1, <- app_assoc. apply Permutation_app_head. cbn.
      symmetry. by apply awaiting_settled.
    + rewrite !count_event_app, !succeeded_app, !length_app.
      unfold count_event, succeeded in *. cbn in *.
      rewrite ?bool_decide_eq_true_2, ?bool_decide_eq_false_2 by done. cbn. lia.
Qed.

Lemma accounted_react k : preserves accounted (react k).
Proof.
  intros w Hw. unfold react. unfold mbind at 1, M_bind, get.
  cbn -[WorkerPool.workerLoop_resume WebhookQueue.on_finally].
  destruct (invocations w !! k) as [inv|] eqn:Hk; [|exact Hw].
  assert (inv_phase inv ≠ Awaiting →
          accounted (set_invocations (delete k (invocations w)) w)) as Hdel.
  { intros Hph. destruct Hw as [H1 H2]. split; cbn; [|exact H2].
    by rewrite (awaiting_deleted _ _ _ Hk Hph). }
  assert (∀ i ph, preserves accounted (WorkerPool.workerLoop_resume i ph)) as Hres
    by (intros i ph; unfold WorkerPool.workerLoop_resume; unfold_sinks; preserve).
  destruct (inv_phase inv) eqn:Hph; [exact Hw|..];
    unfold mbind, M_bind, modify;
    cbn -[WorkerPool.workerLoop_resume WebhookQueue.on_finally];
    (destruct (inv_then inv) as [id|i];
     [apply accounted_on_finally|apply Hres]; apply Hdel; discriminate).
Qed.

#[local] Hint Resolve accounted_settle accounted_react : pres.

Lemma accounted_perform a : preserves accounted (perform a).
Proof.
  destruct a; cbn -[settle react];
    unfold WebhookQueue.processNext, WebhookQueue.shutdown, WebhookQueue.drain,
      WebhookQueue.checkQueue, WorkerPool.constructor, WorkerPool.start,
      WorkerPool.stop, WorkerPool.stop_resume, worker_wake;
    unfold_sinks; preserve.
Qed.

(** X12. After any schedule, worker pool and outside calls included, every
    item the processor was called with has settled exactly once or is still
    awaited; the processed counter counts the settlements logged as
    successful, so successes, failures and pending invocations add up to the
    calls of the processor. *)
Theorem every_processor_call_is_settled_or_awaited :
  ∀ e c t acts,
    let w := run acts (createWebhookQueue e c t) in
    settled (trace w) ++ map inv_item (List.filter awaiting (invocations w))
      ≡ₚ processed (trace w) ∧
    count_event is_IncProcessed (trace w) = length (succeeded (trace w)) ∧
    (count_event is_IncProcessed (trace w) + length (failed (trace w)) +
       length (List.filter awaiting (invocations w)))%nat =
    length (processed (trace w)).
Proof.
  intros e c t acts w.
  assert (accounted w) as [H1 H2].
  { apply run_preserves; [apply accounted_perform|]. by split. }
  split; [exact H1|]. split; [exact H2|].
  apply Permutation_length in H1.
  rewrite length_app, length_map, settled_length in H1. lia.
Qed.

(** ** The backlog is worked off *)

Lemma owned_frame w w' :
  invocations w' = invocations w → processing w' = processing w →
  trace w' = trace w → owned w → owned w'.
Proof. intros Hi Hp Ht [H1 H2 H3]. split; rewrite ?Hi, ?Hp, ?Ht; assumption. Qed.

Lemma owned_appended d w :
  processed d = [] → handed_out d = [] →
  owned w → owned (set_trace (trace w ++ d) w).
Proof.
  intros Hp Hh [H1 H2 H3]. split; cbn; try assumption.
  by rewrite processed_app, handed_out_app, Hp, Hh, H1.
Qed.

Lemma owned_emit ev : inert ev = true → preserves owned (emit ev).
Proof.
  intros He w Hw. apply owned_appended; [..|exact Hw];
    by destruct ev as [| | | | | |lvl msg [it|]| | | |].
Qed.

Lemma owned_dispatch_one w :
  WebhookQueue.may_dispatch w = true → owned w → owned (WebhookQueue.dispatch_one w).2.
Proof.
  intros Hgo [H1 H2 H3].
  apply may_dispatch_true in Hgo as [_ Hne].
  unfold WebhookQueue.dispatch_one, WebhookQueue.dequeue, WebhookQueue.processItem.
  unfold_monad. cbn.
  destruct (queue w) as [|first rest] eqn:Hq; [done|]. cbn.
  split; cbn.
  - rewrite !processed_app, !handed_out_app. cbn. rewrite !app_nil_r. by rewrite H1.
  - apply Forall_app. split; [exact H2|]. by apply Forall_singleton.
  - intros id. rewrite elem_of_union, elem_of_singleton, fmap_app, elem_of_app. cbn.
    intros [->|Hin]; [right; by apply list_elem_of_singleton|left; by apply H3].
Qed.

Lemma owned__scheduleProcessing : preserves owned WebhookQueue._scheduleProcessing.
Proof. apply _scheduleProcessing_preserves, owned_dispatch_one. Qed.

Lemma owned_enqueue it : preserves owned (WebhookQueue.enqueue it).
Proof.
  intros w Hw. rewrite enqueue_unfold. destruct (bool_decide _); cbn.
  - by apply owned_appended.
  - apply owned__scheduleProcessing.
    apply (owned_frame (set_trace (trace (stored it w)) w)); try reflexivity.
    unfold stored. cbn. by apply owned_appended.
Qed.

Lemma owned_settle k ok : preserves owned (settle k ok).
Proof.
  intros w Hw. unfold settle. unfold mbind at 1, M_bind, get. cbn.
  destruct (invocations w !! k) as [inv|] eqn:Hk; [|exact Hw].
  destruct (inv_phase inv) eqn:Hph; [|exact Hw..].
  destruct Hw as [H1 H2 H3].
  assert (∀ ph, inv_then <$> <[ k := set_phase ph inv ]> (invocations w) =
                inv_then <$> invocations w) as Hsame.
  { intros ph. rewrite list_fmap_insert. apply list_insert_id.
    by rewrite list_lookup_fmap, Hk. }
  assert (∀ ph, Forall (λ inv, started_by_loop inv = true)
                  (<[ k := set_phase ph inv ]> (invocations w))) as Hloop.
  { intros ph. apply Forall_insert; [exact H2|].
    rewrite Forall_forall in H2. apply (H2 inv). by eapply list_elem_of_lookup_2. }
  unfold WebhookQueue.processItem_resume. destruct ok; unfold_monad; cbn.
  - split; cbn.
    + rewrite !processed_app, !handed_out_app. cbn. rewrite !app_nil_r. exact H1.
    + apply Hloop.
    + rewrite Hsame. exact H3.
  - split; cbn.
    + rewrite !processed_app, !handed_out_app. cbn. rewrite !app_nil_r. exact H1.
    + apply Hloop.
    + rewrite Hsame. exact H3.
Qed.

Lemma owned_react k : preserves owned (react k).
Proof.
  intros w Hw. unfold react. unfold mbind at 1, M_bind, get. cbn.
  destruct (invocations w !! k) as [inv|] eqn:Hk; [|exact Hw].
  assert (inv_phase inv = Awaiting ∨ inv_phase inv ≠ Awaiting) as [Hph|Hph]
    by (destruct (inv_phase inv); [by left|by right..]);
    [by rewrite Hph|].
  destruct Hw as [H1 H2 H3].
  assert (∃ id, inv_then inv = ReleaseToken id) as [id Hthen].
  { rewrite Forall_forall in H2.
    assert (started_by_loop inv = true) as Hl
      by (apply H2; by eapply list_elem_of_lookup_2).
    unfold started_by_loop in Hl. destruct (inv_then inv); [by eexists|done]. }
  assert (owned (WebhookQueue.on_finally id
            (set_invocations (delete k (invocations w)) w)).2) as Hrel.
  { rewrite on_finally_unfold. apply owned__scheduleProcessing.
    split; cbn.
    - by rewrite processed_app, handed_out_app, H1.
    - by apply Forall_delete.
    - intros id' [Hin Hne]%elem_of_difference.
      rewrite not_elem_of_singleton in Hne. apply H3 in Hin.
      apply list_elem_of_split_length in Hk as (l1 & l2 & Heq & ->).
      rewrite Heq in Hin |- *. rewrite delete_middle.
      rewrite fmap_app, fmap_cons, elem_of_app, elem_of_cons, Hthen in Hin.
      rewrite fmap_app, elem_of_app.
      destruct Hin as [?|[Heq'|?]]; [by left| |by right].
      injection Heq' as ->. done. }
  destruct (inv_phase inv); [done|..]; rewrite Hthen;
    unfold mbind, M_bind, modify; cbn; exact Hrel.
Qed.

#[local] Hint Resolve owned__scheduleProcessing owned_settle owned_react : pres.
#[local] Hint Extern 1 (preserves owned (emit _)) =>
  apply owned_emit; reflexivity : pres.
#[local] Hint Extern 1 (preserves owned (modify _)) =>
  apply preserves_modify; intros ? ?; eapply owned_frame; [..|eassumption];
  reflexivity : pres.

Lemma owned_perform a : internal a = true → preserves owned (perform a).
Proof.
  destruct a as [it| | |k ok|k| | |j|opts| | |j|i]; try discriminate; intros _;
    [apply preserves_bind; [apply owned_enqueue|intros; apply preserves_ret]|
     |apply owned_settle|apply owned_react|..];
    cbn;
    unfold WebhookQueue.processNext, WebhookQueue.shutdown, WebhookQueue.drain,
      WebhookQueue.checkQueue;
    unfold_sinks; preserve.
Qed.

Lemma owned_run e c t acts :
  forallb internal acts = true → owned (run acts (createWebhookQueue e c t)).
Proof.
  intros Hint. apply run_preserves_internal; [apply owned_perform|exact Hint|].
  split; cbn; [reflexivity|constructor|]. intros id Hin. by apply not_elem_of_empty in Hin.
Qed.

(** One completion takes one off the backlog. *)
Lemma backlog_completion ok w :
  owned w → invocations w ≠ [] →
  S (backlog (run [Settle 0 ok; React 0] w)) = backlog w.
Proof.
  intros Hown Hne.
  destruct (invocations w) as [|inv rest] eqn:Hinv; [done|].
  assert (∃ id, inv_then inv = ReleaseToken id) as [id Hthen].
  { destruct Hown as [_ Hloop _]. rewrite Hinv in Hloop.
    apply Forall_cons in Hloop as [Hl _]. unfold started_by_loop in Hl.
    destruct (inv_then inv); [by eexists|done]. }
  assert (∃ w1, exec (Settle 0 ok) w = w1 ∧ queue w1 = queue w ∧
            ∃ inv1, invocations w1 = inv1 :: rest ∧ inv_then inv1 = ReleaseToken id ∧
                    inv_phase inv1 ≠ Awaiting) as (w1 & Hw1 & Hq1 & inv1 & Hinv1 & Hthen1 & Hph1).
  { destruct (inv_phase inv) eqn:Hph.
    - eexists. split; [reflexivity|].
      destruct (settle_fields w 0%nat inv ok) as (Hq & _ & _ & _ & _ & _ & _ & Hi);
        [by rewrite Hinv|exact Hph|].
      split; [exact Hq|]. rewrite Hi, Hinv. cbn. eexists. split; [reflexivity|].
      split; [exact Hthen|]. by destruct ok.
    - exists w. unfold exec. cbn. unfold settle. unfold mbind, M_bind, get. cbn.
      rewrite Hinv. cbn. rewrite Hph. split; [reflexivity|]. split; [reflexivity|].
      exists inv. rewrite Hph. by repeat split.
    - exists w. unfold exec. cbn. unfold settle. unfold mbind, M_bind, get. cbn.
      rewrite Hinv. cbn. rewrite Hph. split; [reflexivity|]. split; [reflexivity|].
      exists inv. rewrite Hph. by repeat split. }
  change (run [Settle 0 ok; React 0] w) with (exec (React 0) (exec (Settle 0 ok) w)).
  rewrite Hw1.
  rewrite (react_release_unfold w1 0%nat inv1 id); [|by rewrite Hinv1|exact Hph1|exact Hthen1].
  rewrite on_finally_unfold, backlog__scheduleProcessing.
  unfold backlog. cbn. rewrite Hinv1, Hq1, Hinv. cbn. lia.
Qed.

Lemma owned_nothing_pending w : owned w → invocations w = [] → processing w = ∅.
Proof.
  intros [_ _ Htok] Hnone. apply set_eq. intros id. split.
  - intros Hin. apply Htok in Hin. rewrite Hnone in Hin. by apply elem_of_nil in Hin.
  - intros Hin. by apply not_elem_of_empty in Hin.
Qed.

Lemma backlog_worked_off ok n : ∀ w,
  owned w → pumped w → 1 ≤ concurrency w →
  backlog w = n → backlog (run (completions ok n) w) = 0%nat.
Proof.
  induction n as [|n IH]; intros w Hown Hpump Hc Hn; [exact Hn|].
  unfold completions. cbn [replicate concat]. rewrite run_app.
  assert (invocations w ≠ []) as Hne.
  { intros Hnone.
    assert (queue w ≠ []) as Hq
      by (unfold backlog in Hn; rewrite Hnone in Hn; destruct (queue w); [cbn in Hn; lia|done]).
    pose proof (owned_nothing_pending w Hown Hnone) as Hempty.
    assert (WebhookQueue.may_dispatch w = true) as Hgo
      by (apply may_dispatch_true; split; [rewrite Hempty, size_empty; lia|exact Hq]).
    unfold pumped in Hpump. congruence. }
  apply IH.
  - by apply (run_preserves_internal owned); [intros a; apply owned_perform|..].
  - apply run_preserves; [apply pumped_perform|exact Hpump].
  - by rewrite concurrency_run.
  - pose proof (backlog_completion ok w Hown Hne). lia.
Qed.

(** X5. When only the queue's own dispatch loop takes items and the limit is
    at least 1, the backlog is worked off by as many completions as it counts
    items, waiting or in flight, whether they succeed or fail, and whether or
    not two tokens were the same number: after them nothing waits, nothing is
    pending, every item admitted has settled, and [drain()] resolves. *)
Theorem backlog_is_worked_off_by_completions :
  ∀ e c t acts ok,
    forallb internal acts = true →
    let w := run acts (createWebhookQueue e c t) in
    1 ≤ concurrency w →
    let w' := run (completions ok (backlog w)) w in
    queue w' = [] ∧ invocations w' = [] ∧ processing w' = ∅ ∧
    settled (trace w') ≡ₚ admitted (trace w') ∧
    trace (exec Drain w') = trace w' ++ [DrainResolved].
Proof.
  intros e c t acts ok Hint w Hc w'.
  assert (owned w) as Hown by (by apply owned_run).
  assert (pumped w) as Hpump
    by (apply run_preserves; [apply pumped_perform|apply pumped_created]).
  pose proof (backlog_worked_off ok (backlog w) w Hown Hpump Hc eq_refl) as Hzero.
  fold w' in Hzero. unfold backlog in Hzero.
  assert (queue w' = []) as Hq by (apply length_zero_iff_nil; lia).
  assert (invocations w' = []) as Hi by (apply length_zero_iff_nil; lia).
  assert (w' = run (acts ++ completions ok (backlog w)) (createWebhookQueue e c t)) as Hw'
    by (by rewrite run_app).
  assert (owned w') as Hown'.
  { rewrite Hw'. apply owned_run. by rewrite forallb_app, Hint, completions_internal. }
  assert (processing w' = ∅) as Hp by (by apply owned_nothing_pending).
  split; [exact Hq|]. split; [exact Hi|]. split; [exact Hp|]. split.
  - assert (accounted w') as [H4 _]
      by (rewrite Hw'; apply run_preserves; [apply accounted_perform|by split]).
    rewrite Hi in H4. cbn in H4. rewrite app_nil_r in H4.
    rewrite H4, (owned_started w' Hown').
    pose proof (inv_fifo w' (run_preserves invariant _ invariant_perform w
                               (invariant_run e c t acts))) as Hfifo.
    rewrite Hq in Hfifo. cbn in Hfifo. rewrite app_nil_r in Hfifo. by rewrite Hfifo.
  - unfold exec. cbn [perform]. rewrite drain_idle; [reflexivity|].
    by apply idle_true.
Qed.

Lemma backlog_is_worked_off_by_completions_witness :
  let acts := [Enqueue (VString "a"); Enqueue (VString "b"); Enqueue (VString "c");
               Settle 0 true] in
  let w := run acts (createWebhookQueue steady (Some 2) (Some 10)) in
  let w' := run (completions false (backlog w)) w in
  forallb internal acts = true ∧ 1 ≤ concurrency w ∧
  backlog w = 3%nat ∧
  queue w' = [] ∧ invocations w' = [] ∧
  trace (exec Drain w') = trace w' ++ [DrainResolved].
Proof.
  intros acts w w'.
  assert (forallb internal acts = true) as Hint by reflexivity.
  assert (1 ≤ concurrency w) as Hc by (vm_compute; discriminate).
  split; [exact Hint|]. split; [exact Hc|].
  split; [vm_compute; reflexivity|].
  destruct (backlog_is_worked_off_by_completions steady (Some 2) (Some 10) acts false
              Hint Hc) as (Hq & Hi & _ & _ & Hd).
  split; [exact Hq|]. split; [exact Hi|exact Hd].
Defined.

(** ** Drain promises *)

#[local] Hint Extern 1 (preserves (unchanged _ _) (modify _)) =>
  apply preserves_modify; intros ? H; exact H : pres.
#[local] Hint Extern 1 (preserves (unchanged _ _) (emit _)) =>
  intros ? H; exact H : pres.
#[local] Hint Extern 1 (preserves (unchanged _ _) Date_now) =>
  intros ? H; exact H : pres.
#[local] Hint Extern 1 (preserves (unchanged _ _) Math_random) =>
  intros ? H; exact H : pres.

Lemma pollers_dequeue l : preserves (unchanged pollers l) WebhookQueue.dequeue.
Proof. unfold WebhookQueue.dequeue. unfold_sinks. preserve. Qed.

Lemma pollers_processItem l it next :
  preserves (unchanged pollers l) (WebhookQueue.processItem it next).
Proof. unfold WebhookQueue.processItem. preserve. Qed.

#[local] Hint Resolve pollers_dequeue pollers_processItem : pres.

Lemma pollers__scheduleProcessing l :
  preserves (unchanged pollers l) WebhookQueue._scheduleProcessing.
Proof.
  apply _scheduleProcessing_preserves. intros w _.
  assert (preserves (unchanged pollers l) WebhookQueue.dispatch_one) as H; [|exact (H w)].
  unfold WebhookQueue.dispatch_one. unfold_sinks. preserve.
Qed.

#[local] Hint Resolve pollers__scheduleProcessing : pres.

Lemma pollers_enqueue l it : preserves (unchanged pollers l) (WebhookQueue.enqueue it).
Proof. unfold WebhookQueue.enqueue. unfold_sinks. preserve. Qed.

Lemma pollers_on_finally l id : preserves (unchanged pollers l) (WebhookQueue.on_finally id).
Proof. unfold WebhookQueue.on_finally. unfold_sinks. preserve. Qed.

Lemma pollers_workerLoop l i : preserves (unchanged pollers l) (WorkerPool.workerLoop i).
Proof. unfold WorkerPool.workerLoop, WorkerPool.park. preserve. Qed.

#[local] Hint Resolve pollers_enqueue pollers_on_finally pollers_workerLoop : pres.

Lemma pollers_spawn l n : preserves (unchanged pollers l) (WorkerPool.spawn n).
Proof. induction n as [|n IH]; cbn; preserve. Qed.

#[local] Hint Resolve pollers_spawn : pres.

Lemma pollers_perform a w : drains a = false → pollers (exec a w) = pollers w.
Proof.
  intros Ha.
  assert (preserves (unchanged pollers (pollers w)) (perform a)) as H; [|by apply H].
  destruct a; try discriminate; cbn; unfold_actions; preserve.
Qed.

Lemma delete_beyond {A} (l : list A) (j : nat) : l !! j = None → delete j l = l.
Proof.
  revert j. induction l as [|x l IH]; intros [|j] Hj; try done.
  cbn in *. by rewrite IH.
Qed.

Lemma pollers_exec a w :
  pollers (exec a w) =
  match a with
  | Drain => if WebhookQueue.idle w then pollers w else pollers w ++ [false]
  | Shutdown => if WebhookQueue.idle w then pollers w else pollers w ++ [true]
  | IntervalTick j => if WebhookQueue.idle w then delete j (pollers w) else pollers w
  | _ => pollers w
  end.
Proof.
  destruct a as [it| | |k ok|k| | |j|opts| | |j|i]; try (by apply pollers_perform).
  - unfold exec. cbn [perform]. rewrite drain_unfold. by destruct (WebhookQueue.idle w).
  - unfold exec. cbn [perform]. rewrite shutdown_unfold, drain_unfold.
    change (WebhookQueue.idle (set_trace _ w)) with (WebhookQueue.idle w).
    by destruct (WebhookQueue.idle w).
  - unfold exec. cbn [perform]. rewrite checkQueue_unfold.
    destruct (pollers w !! j) as [b|] eqn:Hj.
    + by destruct (WebhookQueue.idle w).
    + rewrite delete_beyond by exact Hj. by destruct (WebhookQueue.idle w).
Qed.

(** X13. Every call of [drain()] or [shutdown()] has either been resolved,
    once, or still has its interval timer running: the resolutions so far and
    the timers pending add up to the calls made. *)
Theorem every_drain_call_is_resolved_once_or_pending :
  ∀ e c t acts,
    let w := run acts (createWebhookQueue e c t) in
    (count_event is_DrainResolved (trace w) + length (pollers w))%nat =
    length (List.filter asks_drain acts).
Proof.
  intros e c t acts w. subst w.
  induction acts as [|a acts IH] using rev_ind; [reflexivity|].
  rewrite run_snoc, List.filter_app, length_app, <- IH. clear IH.
  set (w := run acts (createWebhookQueue e c t)).
  destruct (since_exec a w) as (cs & Hs & Hcs).
  rewrite (count_event_since is_DrainResolved _ _ _ ltac:(by intros []) Hs).
  rewrite pollers_exec.
  destruct a as [it| | |k ok|k| | |j|opts| | |j|i]; subst cs; cbn; try lia.
  - destruct (WebhookQueue.enqueue it w).1; cbn; lia.
  - destruct (invocations w !! k) as [[? ? ? []]|]; cbn; try lia. destruct ok; cbn; lia.
  - destruct (WebhookQueue.idle w); cbn; rewrite ?length_app; cbn; lia.
  - destruct (WebhookQueue.idle w); cbn; rewrite ?length_app; cbn; lia.
  - destruct (WebhookQueue.idle w); cbn; [|lia].
    destruct (pollers w !! j) as [b|] eqn:Hj; cbn.
    + rewrite length_delete by (by rewrite Hj). apply lookup_lt_Some in Hj. lia.
    + rewrite delete_beyond by exact Hj. lia.
Qed.

(** ** The times observed *)

Lemma past_later e w w' z : (reads w ≤ reads w')%nat → past e w z → past e w' z.
Proof. intros Hr Hz m Hm. apply Hz. lia. Qed.

Lemma past_now e w w' :
  monotone e → (reads w < reads w')%nat → past e w' (clock e (reads w)).
Proof. intros Hmono Hr m Hm. apply Hmono. lia. Qed.

Lemma timely_frame e w w' :
  env w' = env w → (reads w ≤ reads w')%nat → queue w' = queue w →
  invocations w' = invocations w → trace w' = trace w →
  timely e w → timely e w'.
Proof.
  intros He Hr Hq Hi Ht [H1 H2 H3 H4]. split; rewrite ?He, ?Hq, ?Hi, ?Ht; try assumption.
  - eapply Forall_impl; [exact H2|]. intros en. by apply past_later.
  - eapply Forall_impl; [exact H3|]. intros inv. by apply past_later.
Qed.

Lemma timely_appended e d w :
  Forall time_not_negative d → timely e w → timely e (set_trace (trace w ++ d) w).
Proof.
  intros Hd [H1 H2 H3 H4]. split; try assumption. cbn. by apply Forall_app.
Qed.

#[local] Hint Extern 1 (preserves (timely _) (emit _)) =>
  intros ? ?; apply timely_appended; [by repeat constructor|assumption] : pres.
#[local] Hint Extern 1 (preserves (timely _) (modify _)) =>
  apply preserves_modify; intros ? ?; eapply timely_frame; [..|eassumption];
  reflexivity : pres.
#[local] Hint Extern 1 (preserves (timely _) Date_now) =>
  intros ? ?; eapply timely_frame; [..|eassumption]; cbn; reflexivity || lia : pres.
#[local] Hint Extern 1 (preserves (timely _) Math_random) =>
  intros ? ?; eapply timely_frame; [..|eassumption]; cbn; reflexivity || lia : pres.

Lemma timely_dequeue e : preserves (timely e) WebhookQueue.dequeue.
Proof.
  intros w Hw. rewrite dequeue_unfold.
  destruct (queue w) as [|first rest] eqn:Hq; [exact Hw|].
  destruct Hw as [H1 H2 H3 H4]. rewrite Hq in H2.
  apply Forall_cons in H2 as [Hfirst Hrest]. split; cbn.
  - exact H1.
  - eapply Forall_impl; [exact Hrest|]. intros en. apply past_later. cbn. lia.
  - eapply Forall_impl; [exact H3|]. intros inv. apply past_later. cbn. lia.
  - apply Forall_app. split; [exact H4|].
    repeat constructor. cbn. rewrite H1. specialize (Hfirst (reads w)). lia.
Qed.

Lemma timely_processItem e it next :
  monotone e → preserves (timely e) (WebhookQueue.processItem it next).
Proof.
  intros Hmono w [H1 H2 H3 H4]. unfold WebhookQueue.processItem. unfold_monad. cbn.
  split; cbn.
  - exact H1.
  - eapply Forall_impl; [exact H2|]. intros en. apply past_later. cbn. lia.
  - apply Forall_app. split.
    + eapply Forall_impl; [exact H3|]. intros inv. apply past_later. cbn. lia.
    + apply Forall_singleton. cbn. rewrite H1. apply (past_now e w); [exact Hmono|cbn; lia].
  - apply Forall_app. split; [exact H4|]. by repeat constructor.
Qed.

#[local] Hint Resolve timely_dequeue : pres.
#[local] Hint Extern 1 (preserves (timely _) (WebhookQueue.processItem _ _)) =>
  apply timely_processItem; assumption : pres.

Lemma timely__scheduleProcessing e :
  monotone e → preserves (timely e) WebhookQueue._scheduleProcessing.
Proof.
  intros Hmono. apply _scheduleProcessing_preserves. intros w _.
  assert (preserves (timely e) WebhookQueue.dispatch_one) as H; [|exact (H w)].
  unfold WebhookQueue.dispatch_one. unfold_sinks. preserve.
Qed.

#[local] Hint Extern 1 (preserves (timely _) WebhookQueue._scheduleProcessing) =>
  apply timely__scheduleProcessing; assumption : pres.

Lemma timely_enqueue e it : monotone e → preserves (timely e) (WebhookQueue.enqueue it).
Proof.
  intros Hmono w Hw. rewrite enqueue_unfold. destruct (bool_decide _); cbn.
  - apply timely_appended; [by repeat constructor|exact Hw].
  - apply timely__scheduleProcessing; [exact Hmono|].
    destruct Hw as [H1 H2 H3 H4]. unfold stored. split; cbn.
    + exact H1.
    + apply Forall_app. split.
      * eapply Forall_impl; [exact H2|]. intros en. apply past_later. cbn. lia.
      * apply Forall_singleton. cbn. rewrite H1.
        apply (past_now e w); [exact Hmono|cbn; lia].
    + eapply Forall_impl; [exact H3|]. intros inv. apply past_later. cbn. lia.
    + apply Forall_app. split; [exact H4|]. by repeat constructor.
Qed.

Lemma timely_on_finally e id :
  monotone e → preserves (timely e) (WebhookQueue.on_finally id).
Proof. intros Hmono. unfold WebhookQueue.on_finally. unfold_sinks. preserve. Qed.

Lemma timely_workerLoop e i :
  monotone e → preserves (timely e) (WorkerPool.workerLoop i).
Proof. intros Hmono. unfold WorkerPool.workerLoop, WorkerPool.park. preserve. Qed.

#[local] Hint Extern 1 (preserves (timely _) (WebhookQueue.enqueue _)) =>
  apply timely_enqueue; assumption : pres.
#[local] Hint Extern 1 (preserves (timely _) (WebhookQueue.on_finally _)) =>
  apply timely_on_finally; assumption : pres.
#[local] Hint Extern 1 (preserves (timely _) (WorkerPool.workerLoop _)) =>
  apply timely_workerLoop; assumption : pres.

Lemma timely_spawn e n : monotone e → preserves (timely e) (WorkerPool.spawn n).
Proof. intros Hmono. induction n as [|n IH]; cbn; preserve. Qed.

#[local] Hint Extern 1 (preserves (timely _) (WorkerPool.spawn _)) =>
  apply timely_spawn; assumption : pres.

Lemma timely_settle e k ok : preserves (timely e) (settle k ok).
Proof.
  intros w Hw. unfold settle. unfold mbind at 1, M_bind, get. cbn.
  destruct (invocations w !! k) as [inv|] eqn:Hk; [|exact Hw].
  destruct (inv_phase inv) eqn:Hph; [|exact Hw..].
  destruct Hw as [H1 H2 H3 H4].
  assert (past e w (inv_startTime inv)) as Hinv.
  { rewrite Forall_forall in H3. apply H3. by eapply list_elem_of_lookup_2. }
  assert (∀ ph w', (reads w ≤ reads w')%nat →
            Forall (λ inv, past e w' (inv_startTime inv))
              (<[ k := set_phase ph inv ]> (invocations w))) as Hins.
  { intros ph w' Hr. apply Forall_insert.
    - eapply Forall_impl; [exact H3|]. intros inv'. by apply past_later.
    - cbn. by apply (past_later e w). }
  unfold WebhookQueue.processItem_resume. destruct ok; unfold_monad; cbn.
  - split; cbn.
    + exact H1.
    + eapply Forall_impl; [exact H2|]. intros en. apply past_later. cbn. lia.
    + apply Hins. cbn. lia.
    + rewrite !Forall_app. repeat split; try exact H4; repeat constructor.
      cbn. rewrite H1. specialize (Hinv (reads w)). lia.
  - split; cbn.
    + exact H1.
    + exact H2.
    + by apply Hins.
    + apply Forall_app. split; [exact H4|]. by repeat constructor.
Qed.

Lemma timely_react e k : monotone e → preserves (timely e) (react k).
Proof.
  intros Hmono w Hw. unfold react. unfold mbind at 1, M_bind, get.
  cbn -[WorkerPool.workerLoop_resume WebhookQueue.on_finally].
  destruct (invocations w !! k) as [inv|] eqn:Hk; [|exact Hw].
  assert (timely e (set_invocations (delete k (invocations w)) w)) as Hdel.
  { destruct Hw as [H1 H2 H3 H4]. split; try assumption. cbn. by apply Forall_delete. }
  assert (∀ i ph, preserves (timely e) (WorkerPool.workerLoop_resume i ph)) as Hres
    by (intros i ph; unfold WorkerPool.workerLoop_resume; unfold_sinks; preserve).
  destruct (inv_phase inv) eqn:Hph; [exact Hw|..];
    unfold mbind, M_bind, modify;
    cbn -[WorkerPool.workerLoop_resume WebhookQueue.on_finally];
    (destruct (inv_then inv) as [id|i];
     [by apply timely_on_finally|by apply Hres]).
Qed.

#[local] Hint Resolve timely_settle : pres.
#[local] Hint Extern 1 (preserves (timely _) (react _)) =>
  apply timely_react; assumption : pres.

Lemma timely_perform e a : monotone e → preserves (timely e) (perform a).
Proof.
  intros Hmono.
  destruct a; cbn -[settle react];
    unfold WebhookQueue.processNext, WebhookQueue.shutdown, WebhookQueue.drain,
      WebhookQueue.checkQueue, WorkerPool.constructor, WorkerPool.start,
      WorkerPool.stop, WorkerPool.stop_resume, worker_wake;
    unfold_sinks; preserve.
Qed.

(** X14. With a clock that never goes back, no negative time is ever reported
    to the two histograms: every queue time observed by [dequeue] and every
    processing time observed by [processItem] is at least 0, after any
    schedule. *)
Theorem observed_times_are_not_negative :
  ∀ e c t acts,
    monotone e →
    let w := run acts (createWebhookQueue e c t) in
    Forall time_not_negative (trace w).
Proof.
  intros e c t acts Hmono w.
  assert (timely e w) as [_ _ _ H4]; [|exact H4].
  apply run_preserves; [intros a; by apply timely_perform|].
  split; cbn; constructor.
Qed.

Lemma steady_monotone : monotone steady.
Proof. intros n m Hnm. cbn. lia. Qed.

Lemma observed_times_are_not_negative_witness :
  let acts := [Enqueue (VString "a"); Enqueue (VString "b"); Settle 0 true; React 0] in
  let w := run acts (createWebhookQueue steady (Some 1) (Some 5)) in
  monotone steady ∧
  In (ObserveProcessingTime 2) (trace w) ∧
  Forall time_not_negative (trace w).
Proof.
  intros acts w. split; [exact steady_monotone|]. split.
  - vm_compute. tauto.
  - exact (observed_times_are_not_negative steady (Some 1) (Some 5) acts steady_monotone).
Defined.

(** ** What the workers of the pool hold *)

Lemma manned_frame w w' :
  invocations w' = invocations w → coroutines w' = coroutines w → manned w → manned w'.
Proof. unfold manned, held. by intros -> ->. Qed.

Lemma coroutines_update_pool f w :
  (∀ p, wp_coroutines (f p) = wp_coroutines p) →
  coroutines (update_pool f w) = coroutines w.
Proof. intros Hf. unfold coroutines, update_pool. cbn. destruct (pool w); cbn; by rewrite ?Hf. Qed.

Lemma held_appended i w inv :
  held i (set_invocations (invocations w ++ [inv]) w) =
  (held i w + if held_by i inv then 1 else 0)%nat.
Proof.
  unfold held. cbn. rewrite List.filter_app, length_app. cbn. by destruct (held_by i inv).
Qed.

Lemma held_settled i w k inv ph :
  invocations w !! k = Some inv →
  held i (set_invocations (<[ k := set_phase ph inv ]> (invocations w)) w) = held i w.
Proof.
  intros Hk. unfold held. cbn.
  apply list_elem_of_split_length in Hk as (l1 & l2 & -> & ->).
  rewrite insert_app_r_alt by lia. rewrite Nat.sub_diag. cbn.
  rewrite !List.filter_app, !length_app. cbn.
  change (held_by i (set_phase ph inv)) with (held_by i inv).
  by destruct (held_by i inv).
Qed.

Lemma held_deleted i w k inv :
  invocations w !! k = Some inv →
  held i w =
  (held i (set_invocations (delete k (invocations w)) w) + if held_by i inv then 1 else 0)%nat.
Proof.
  intros Hk. unfold held. cbn.
  apply list_elem_of_split_length in Hk as (l1 & l2 & -> & ->).
  rewrite delete_middle, !List.filter_app, !length_app. cbn.
  destruct (held_by i inv); cbn; lia.
Qed.

#[local] Hint Extern 1 (preserves manned (modify (update_pool _))) =>
  apply preserves_modify; intros ? ?; eapply manned_frame; [| |eassumption];
  [reflexivity|apply coroutines_update_pool; intros; reflexivity] : pres.
#[local] Hint Extern 2 (preserves manned (modify _)) =>
  apply preserves_modify; intros ? ?; eapply manned_frame; [..|eassumption];
  reflexivity : pres.
#[local] Hint Extern 1 (preserves manned (emit _)) =>
  apply preserves_modify; intros ? ?; eapply manned_frame; [..|eassumption];
  reflexivity : pres.
#[local] Hint Extern 1 (preserves manned Date_now) =>
  intros ? ?; eapply manned_frame; [..|eassumption]; reflexivity : pres.
#[local] Hint Extern 1 (preserves manned Math_random) =>
  intros ? ?; eapply manned_frame; [..|eassumption]; reflexivity : pres.

Lemma manned_dequeue : preserves manned WebhookQueue.dequeue.
Proof. unfold WebhookQueue.dequeue. unfold_sinks. preserve. Qed.

Lemma manned_processItem it id :
  preserves manned (WebhookQueue.processItem it (ReleaseToken id)).
Proof.
  intros w Hw i. specialize (Hw i). unfold held, coroutines in *.
  unfold WebhookQueue.processItem. unfold_monad. cbn in *.
  rewrite List.filter_app, length_app. cbn. lia.
Qed.

#[local] Hint Resolve manned_dequeue manned_processItem : pres.

Lemma manned__scheduleProcessing : preserves manned WebhookQueue._scheduleProcessing.
Proof.
  apply _scheduleProcessing_preserves. intros w _.
  assert (preserves manned WebhookQueue.dispatch_one) as H; [|exact (H w)].
  unfold WebhookQueue.dispatch_one. unfold_sinks. preserve.
Qed.

#[local] Hint Resolve manned__scheduleProcessing : pres.

Lemma manned_enqueue it : preserves manned (WebhookQueue.enqueue it).
Proof. unfold WebhookQueue.enqueue. unfold_sinks. preserve. Qed.

Lemma manned_on_finally id : preserves manned (WebhookQueue.on_finally id).
Proof. unfold WebhookQueue.on_finally. unfold_sinks. preserve. Qed.

#[local] Hint Resolve manned_enqueue manned_on_finally : pres.

(** A trip round the loop of a worker that holds nothing. *)
Lemma manned_workerLoop i w :
  (∀ j, j ≠ i → held j w = load (coroutines w !! j)) →
  held i w = 0%nat → is_Some (coroutines w !! i) →
  manned (WorkerPool.workerLoop i w).2.
Proof.
  intros Hothers Hnone Hin.
  assert (∀ (s : worker) w', invocations w' = invocations w → coroutines w' = coroutines w →
            load (Some s) = 0%nat → manned (WorkerPool.park i s w').2) as Hpark.
  { intros s w' Hi Hc Hs j. unfold WorkerPool.park, modify, update_pool, coroutines, held. cbn.
    rewrite Hi. fold (held j w). unfold coroutines in Hc.
    destruct (pool w') as [p'|] eqn:Hp'; cbn in *.
    - rewrite Hc. fold (coroutines w). destruct (decide (j = i)) as [->|Hne].
      + rewrite list_lookup_insert_eq by (by apply lookup_lt_is_Some).
        rewrite Hnone. symmetry. exact Hs.
      + rewrite list_lookup_insert_ne by done. by apply Hothers.
    - fold (coroutines w) in Hc. rewrite <- Hc in Hin. cbn in Hin. by destruct Hin. }
  unfold WorkerPool.workerLoop. unfold mbind at 1, M_bind, get. cbn -[WorkerPool.park].
  destruct (pool w) as [p|] eqn:Hp.
  2:{ unfold coroutines in Hin. rewrite Hp in Hin. cbn in Hin. by destruct Hin. }
  destruct (wp_running p); [|by apply Hpark].
  unfold mbind at 1, M_bind. cbn -[WorkerPool.park].
  rewrite dequeue_unfold.
  destruct (queue w) as [|first rest] eqn:Hq; cbn -[WorkerPool.park]; [by apply Hpark|].
  destruct (loosely_null (item first)); [by apply Hpark|].
  intros j. unfold WebhookQueue.processItem, WorkerPool.park. unfold_monad.
  unfold update_pool, coroutines, held. cbn. rewrite Hp. cbn.
  rewrite List.filter_app, length_app. fold (held j w). cbn.
  destruct (decide (j = i)) as [->|Hne].
  - rewrite list_lookup_insert_eq.
    + rewrite Hnone, bool_decide_eq_true_2 by done. reflexivity.
    + apply lookup_lt_is_Some. unfold coroutines in Hin. by rewrite Hp in Hin.
  - rewrite list_lookup_insert_ne by done.
    rewrite bool_decide_eq_false_2 by done. cbn. rewrite Nat.add_0_r.
    rewrite (Hothers j Hne). unfold coroutines. by rewrite Hp.
Qed.

Lemma manned_spawn n : preserves manned (WorkerPool.spawn n).
Proof.
  induction n as [|n IH]; intros w Hw; [exact Hw|]. cbn.
  unfold mbind at 1 2 3, M_bind, get, modify. cbn. apply IH.
  destruct (pool w) as [p|] eqn:Hp.
  - apply manned_workerLoop.
    + intros j Hne. try rewrite Hp in Hne. cbn in Hne.
      unfold held, coroutines, update_pool. cbn. rewrite Hp. cbn.
      specialize (Hw j). unfold held, coroutines in Hw. rewrite Hp in Hw. cbn in Hw.
      rewrite Hw. destruct (decide (j < length (wp_coroutines p))%nat).
      * by rewrite lookup_app_l.
      * rewrite lookup_ge_None_2 by lia.
        rewrite lookup_app_r by lia.
        destruct (j - length (wp_coroutines p))%nat as [|[|?]] eqn:Hd; [lia|done..].
    + specialize (Hw (length (wp_coroutines p))). unfold held, coroutines in *.
      rewrite Hp in Hw. cbn in *. rewrite Hw. by rewrite lookup_ge_None_2.
    + unfold coroutines, update_pool. cbn. rewrite Hp. cbn.
      rewrite lookup_app_r, Nat.sub_diag by lia. by eexists.
  - unfold WorkerPool.workerLoop, update_pool. unfold mbind, M_bind, get. cbn.
    rewrite Hp. cbn.
    eapply manned_frame; [..|exact Hw]; [reflexivity|].
    unfold coroutines. cbn. by rewrite Hp.
Qed.

#[local] Hint Resolve manned_spawn : pres.

Lemma manned_settle k ok : preserves manned (settle k ok).
Proof.
  intros w Hw. unfold settle. unfold mbind at 1, M_bind, get. cbn.
  destruct (invocations w !! k) as [inv|] eqn:Hk; [|exact Hw].
  destruct (inv_phase inv) eqn:Hph; [|exact Hw..].
  unfold WebhookQueue.processItem_resume.
  destruct ok; unfold_monad; intros i; specialize (Hw i);
    unfold held, coroutines in *; cbn in *; rewrite <- Hw;
    exact (held_settled i w k inv _ Hk).
Qed.

Lemma manned_react k : preserves manned (react k).
Proof.
  intros w Hw. unfold react. unfold mbind at 1, M_bind, get.
  cbn -[WorkerPool.workerLoop_resume WebhookQueue.on_finally].
  destruct (invocations w !! k) as [inv|] eqn:Hk; [|exact Hw].
  set (w' := set_invocations (delete k (invocations w)) w).
  assert (∀ ph, inv_phase inv = ph → ph ≠ Awaiting →
            manned (match inv_then inv with
                    | ReleaseToken id => WebhookQueue.on_finally id
                    | ResumeWorker i => WorkerPool.workerLoop_resume i ph
                    end w').2) as Hnext.
  { assert (coroutines w' = coroutines w) as Hc by reflexivity.
    intros ph _ _. destruct (inv_then inv) as [id|i0] eqn:Hthen.
    - apply manned_on_finally. intros i. rewrite Hc, <- (Hw i).
      rewrite (held_deleted i w k inv Hk). fold w'. unfold held_by. rewrite Hthen. lia.
    - assert (held i0 w' = 0%nat ∧ is_Some (coroutines w !! i0)) as [Hnone Hin].
      { pose proof (held_deleted i0 w k inv Hk) as Hd. fold w' in Hd.
        unfold held_by in Hd. rewrite Hthen, bool_decide_eq_true_2 in Hd by done.
        rewrite (Hw i0) in Hd. destruct (coroutines w !! i0) as [[]|]; unfold load in Hd;
          try lia. split; [lia|by eexists]. }
      assert (∀ j, j ≠ i0 → held j w' = load (coroutines w' !! j)) as Hothers.
      { intros j Hne. pose proof (held_deleted j w k inv Hk) as Hd. fold w' in Hd.
        unfold held_by in Hd. rewrite Hthen, bool_decide_eq_false_2 in Hd by done.
        rewrite Hc, <- (Hw j). lia. }
      unfold WorkerPool.workerLoop_resume. unfold mbind, M_bind.
      destruct ph; unfold mret, M_ret; cbn -[WorkerPool.workerLoop];
        (apply manned_workerLoop; [assumption..|exact Hin]). }
  destruct (inv_phase inv) eqn:Hph; [exact Hw|..];
    unfold mbind, M_bind, modify;
    cbn -[WorkerPool.workerLoop_resume WebhookQueue.on_finally]; fold w';
    by apply Hnext.
Qed.

Lemma manned_worker_wake i : preserves manned (worker_wake i).
Proof.
  intros w Hw. unfold worker_wake. unfold mbind, M_bind, get. cbn -[WorkerPool.workerLoop].
  destruct (pool w) as [p|] eqn:Hp; [|exact Hw].
  destruct (wp_coroutines p !! i) as [[]|] eqn:Hi; try exact Hw.
  assert (coroutines w !! i = Some WSleeping) as Hc by (unfold coroutines; by rewrite Hp).
  apply manned_workerLoop.
  - intros j _. apply Hw.
  - by rewrite (Hw i), Hc.
  - by rewrite Hc.
Qed.

#[local] Hint Resolve manned_settle manned_react manned_worker_wake : pres.

Lemma manned_constructor opts w :
  pool w = None → manned w → manned (WorkerPool.constructor opts w).2.
Proof.
  intros Hp Hw. unfold WorkerPool.constructor. unfold_monad. cbn.
  destruct (default true (opt_disableQueueProcessing opts)); cbn;
    (eapply manned_frame; [..|exact Hw]; [reflexivity|]);
    unfold coroutines; cbn; by rewrite Hp.
Qed.

Lemma manned_perform a : preserves manned (perform a).
Proof.
  destruct a as [it| | |k ok|k| | |j|opts| | |j|i]; cbn -[settle react worker_wake];
    try (unfold WebhookQueue.processNext, WebhookQueue.shutdown, WebhookQueue.drain,
           WebhookQueue.checkQueue, WorkerPool.start, WorkerPool.stop,
           WorkerPool.stop_resume;
         unfold_sinks; preserve; fail).
  intros w Hw. unfold mbind, M_bind, get. cbn -[WorkerPool.constructor].
  destruct (pool w) eqn:Hp; [exact Hw|]. by apply manned_constructor.
Qed.

Lemma all_exited_lookup l lo hi i :
  WorkerPool.all_exited l lo hi = true → (lo ≤ i < hi)%nat → load (l !! i) = 0%nat.
Proof.
  unfold WorkerPool.all_exited. intros Hall Hi.
  destruct (l !! i) as [s|] eqn:Hl; [|reflexivity].
  rewrite forallb_forall in Hall.
  assert (In s (take (hi - lo) (drop lo l))) as Hin.
  { apply list_elem_of_In, (list_elem_of_lookup_2 _ (i - lo)).
    rewrite lookup_take_lt by lia. rewrite lookup_drop.
    by replace (lo + (i - lo))%nat with i by lia. }
  apply Hall in Hin. by destruct s.
Qed.

(** X15. After any schedule a worker of the pool waits for exactly one pending
    invocation while it is inside [await this.queue.processItem(item)], and for
    none while it sleeps or once it has left its loop.  So when the workers
    awaited by a call of [stop()] have all left their loops, none of them holds
    an item any more. *)
Theorem worker_holds_one_item_while_processing :
  ∀ e c t acts,
    let w := run acts (createWebhookQueue e c t) in
    (∀ i, held i w = load (coroutines w !! i)) ∧
    (∀ p j lo hi,
       pool w = Some p → wp_joins p !! j = Some (lo, hi) →
       WorkerPool.all_exited (wp_coroutines p) lo hi = true →
       ∀ i, (lo ≤ i < hi)%nat → held i w = 0%nat).
Proof.
  intros e c t acts w.
  assert (manned w) as Hw.
  { apply run_preserves; [apply manned_perform|]. intros i. by destruct i. }
  split; [exact Hw|].
  intros p j lo hi Hp _ Hall i Hi. rewrite (Hw i). unfold coroutines. rewrite Hp. cbn.
  by apply (all_exited_lookup _ lo hi).
Qed.

Lemma worker_holds_one_item_while_processing_witness :
  let acts := [PoolNew {| opt_concurrency := Some 1; opt_disableQueueProcessing := None |};
               PoolStart; Enqueue (VString "a"); Enqueue (VString "b"); WorkerWake 0;
               PoolStop; Settle 1 true; React 1] in
  let w := run acts (createWebhookQueue steady (Some 1) (Some 5)) in
  ∃ p, pool w = Some p ∧ wp_joins p !! 0%nat = Some (0%nat, 1%nat) ∧
       WorkerPool.all_exited (wp_coroutines p) 0 1 = true ∧ held 0 w = 0%nat.
Proof.
  intros acts w.
  destruct (pool w) as [p|] eqn:Hp; [|vm_compute in Hp; discriminate].
  assert (wp_joins p !! 0%nat = Some (0%nat, 1%nat)) as Hj
    by (vm_compute in Hp; injection Hp as <-; reflexivity).
  assert (WorkerPool.all_exited (wp_coroutines p) 0 1 = true) as Hall
    by (vm_compute in Hp; injection Hp as <-; reflexivity).
  exists p. split; [reflexivity|]. split; [exact Hj|]. split; [exact Hall|].
  exact (proj2 (worker_holds_one_item_while_processing steady (Some 1) (Some 5) acts)
           p 0%nat 0%nat 1%nat Hp Hj Hall 0%nat ltac:(lia)).
Defined.

(** ** The patch of [queue.processNext] and its undoing *)

Lemma patch_kept_frame w w' :
  processNext_slot w' = processNext_slot w → put_aside w' = put_aside w →
  patch_kept w → patch_kept w'.
Proof. unfold patch_kept. by intros -> ->. Qed.

Lemma put_aside_update_pool f w :
  (∀ p, wp_originalProcessNext (f p) = wp_originalProcessNext p) →
  put_aside (update_pool f w) = put_aside w.
Proof. intros Hf. unfold put_aside, update_pool. cbn. destruct (pool w); cbn; by rewrite ?Hf. Qed.

#[local] Hint Extern 1 (preserves patch_kept (modify (update_pool _))) =>
  apply preserves_modify; intros ? ?; eapply patch_kept_frame; [| |eassumption];
  [reflexivity|apply put_aside_update_pool; intros; reflexivity] : pres.
#[local] Hint Extern 2 (preserves patch_kept (modify _)) =>
  apply preserves_modify; intros ? ?; eapply patch_kept_frame; [..|eassumption];
  reflexivity : pres.
#[local] Hint Extern 1 (preserves patch_kept (emit _)) =>
  apply preserves_modify; intros ? ?; eapply patch_kept_frame; [..|eassumption];
  reflexivity : pres.
#[local] Hint Extern 1 (preserves patch_kept Date_now) =>
  intros ? ?; eapply patch_kept_frame; [..|eassumption]; reflexivity : pres.
#[local] Hint Extern 1 (preserves patch_kept Math_random) =>
  intros ? ?; eapply patch_kept_frame; [..|eassumption]; reflexivity : pres.

Lemma patch_kept__scheduleProcessing : preserves patch_kept WebhookQueue._scheduleProcessing.
Proof.
  apply _scheduleProcessing_preserves. intros w _.
  assert (preserves patch_kept WebhookQueue.dispatch_one) as H; [|exact (H w)].
  unfold WebhookQueue.dispatch_one, WebhookQueue.dequeue, WebhookQueue.processItem.
  unfold_sinks. preserve.
Qed.

#[local] Hint Resolve patch_kept__scheduleProcessing : pres.

Lemma patch_kept_spawn n : preserves patch_kept (WorkerPool.spawn n).
Proof.
  induction n as [|n IH]; cbn;
    unfold WorkerPool.workerLoop, WorkerPool.park, WebhookQueue.dequeue,
      WebhookQueue.processItem;
    unfold_sinks; preserve.
Qed.

#[local] Hint Resolve patch_kept_spawn : pres.

Lemma patch_kept_constructor opts w :
  pool w = None → patch_kept w → patch_kept (WorkerPool.constructor opts w).2.
Proof.
  unfold patch_kept, put_aside. intros Hp Hw. rewrite Hp in Hw. cbn in Hw.
  unfold WorkerPool.constructor. unfold_monad. cbn.
  by destruct (default true (opt_disableQueueProcessing opts)); cbn.
Qed.

Lemma stop_resume_slot j w p lo hi :
  pool w = Some p → wp_joins p !! j = Some (lo, hi) →
  WorkerPool.all_exited (wp_coroutines p) lo hi = true →
  processNext_slot (WorkerPool.stop_resume j w).2 =
  default (processNext_slot w) (wp_originalProcessNext p).
Proof.
  intros Hp Hj Hall. unfold WorkerPool.stop_resume. unfold_monad. cbn.
  rewrite Hp, Hj, Hall. by destruct (wp_originalProcessNext p).
Qed.

Lemma patch_kept_stop_resume j : preserves patch_kept (WorkerPool.stop_resume j).
Proof.
  intros w Hw. unfold WorkerPool.stop_resume. unfold mbind at 1, M_bind, get. cbn.
  destruct (pool w) as [p|] eqn:Hp; [|exact Hw].
  destruct (wp_joins p !! j) as [[lo hi]|]; [|exact Hw].
  destruct (WorkerPool.all_exited (wp_coroutines p) lo hi); [|exact Hw].
  unfold patch_kept, put_aside in *. rewrite Hp in Hw. cbn in Hw.
  unfold_monad. unfold update_pool. cbn. rewrite Hp. cbn.
  destruct (wp_originalProcessNext p) eqn:Ho; cbn; rewrite ?Hp; cbn; rewrite ?Ho; exact Hw.
Qed.

#[local] Hint Resolve patch_kept_stop_resume : pres.

Lemma patch_kept_perform a : preserves patch_kept (perform a).
Proof.
  destruct a as [it| | |k ok|k| | |j|opts| | |j|i]; cbn -[WorkerPool.stop_resume];
    try (unfold WebhookQueue.processNext, settle, react, WebhookQueue.shutdown,
           WebhookQueue.drain, WebhookQueue.checkQueue, WorkerPool.start,
           WorkerPool.stop, worker_wake, WorkerPool.workerLoop_resume,
           WebhookQueue.processItem_resume,
           WorkerPool.workerLoop, WorkerPool.park, WebhookQueue.enqueue,
           WebhookQueue.on_finally, WebhookQueue.dequeue, WebhookQueue.processItem;
         unfold_sinks; preserve; fail).
  intros w Hw. unfold mbind, M_bind, get. cbn -[WorkerPool.constructor].
  destruct (pool w) eqn:Hp; [exact Hw|]. by apply patch_kept_constructor.
Qed.

(** X16. The constructor of the pool is the only thing that replaces
    [queue.processNext], and it puts aside what it finds there.  For a queue
    with one pool, as in [src/index.js], that is the method of the prototype:
    while [queue.processNext] is the no-op the pool holds that method, and
    whenever a call of [stop()] runs to its end [queue.processNext] is that
    method again.  A pool constructed on a queue that is patched already puts
    the no-op aside. *)
Theorem stop_restores_processNext :
  (∀ e c t acts,
     (length (List.filter is_PoolNew acts) ≤ 1)%nat →
     let w := run acts (createWebhookQueue e c t) in
     (processNext_slot w = NoOp →
      ∃ p, pool w = Some p ∧ wp_originalProcessNext p = Some PrototypeProcessNext) ∧
     (∀ p j lo hi,
        pool w = Some p → wp_joins p !! j = Some (lo, hi) →
        WorkerPool.all_exited (wp_coroutines p) lo hi = true →
        processNext_slot (exec (PoolJoined j) w) = PrototypeProcessNext)) ∧
  (∀ opts w,
     default true (opt_disableQueueProcessing opts) = true →
     let w' := (WorkerPool.constructor opts w).2 in
     processNext_slot w' = NoOp ∧ put_aside w' = Some (processNext_slot w)).
Proof.
  split.
  - intros e c t acts _ w.
    assert (patch_kept w) as Hw
      by (apply run_preserves; [apply patch_kept_perform|reflexivity]).
    unfold patch_kept, put_aside in Hw. split.
    + intros Hno. destruct (pool w) as [p|]; cbn in Hw; [|congruence].
      exists p. split; [reflexivity|].
      destruct (wp_originalProcessNext p); [by rewrite Hw|congruence].
    + intros p j lo hi Hp Hj Hall. unfold exec. cbn [perform].
      rewrite (stop_resume_slot j w p lo hi Hp Hj Hall).
      rewrite Hp in Hw. cbn in Hw. by destruct (wp_originalProcessNext p).
  - intros opts w Hopt w'. subst w'.
    unfold WorkerPool.constructor, put_aside. unfold_monad. cbn. by rewrite Hopt.
Qed.

Lemma stop_restores_processNext_witness :
  let acts := [PoolNew default_options; PoolStart; PoolStop] in
  let patched := run acts (createWebhookQueue steady (Some 1) (Some 5)) in
  let acts' := acts ++ map WorkerWake (seq 0 10) in
  let w := run acts' (createWebhookQueue steady (Some 1) (Some 5)) in
  (length (List.filter is_PoolNew acts) ≤ 1)%nat ∧
  (length (List.filter is_PoolNew acts') ≤ 1)%nat ∧
  processNext_slot patched = NoOp ∧
  (∃ p, pool patched = Some p ∧ wp_originalProcessNext p = Some PrototypeProcessNext) ∧
  (∃ p, pool w = Some p ∧ wp_joins p !! 0%nat = Some (0%nat, 10%nat) ∧
        WorkerPool.all_exited (wp_coroutines p) 0 10 = true ∧
        processNext_slot (exec (PoolJoined 0) w) = PrototypeProcessNext) ∧
  put_aside (WorkerPool.constructor default_options patched).2 = Some NoOp.
Proof.
  intros acts patched acts' w.
  assert ((length (List.filter is_PoolNew acts) ≤ 1)%nat) as Hone by (cbn; lia).
  assert ((length (List.filter is_PoolNew acts') ≤ 1)%nat) as Hone' by (cbn; lia).
  assert (processNext_slot patched = NoOp) as Hno by (vm_compute; reflexivity).
  split; [exact Hone|]. split; [exact Hone'|]. split; [exact Hno|].
  split; [exact (proj1 (proj1 stop_restores_processNext steady (Some 1) (Some 5) acts Hone)
                   Hno)|].
  split.
  - destruct (pool w) as [p|] eqn:Hp; [|vm_compute in Hp; discriminate].
    assert (wp_joins p !! 0%nat = Some (0%nat, 10%nat)) as Hj
      by (vm_compute in Hp; injection Hp as <-; reflexivity).
    assert (WorkerPool.all_exited (wp_coroutines p) 0 10 = true) as Hall
      by (vm_compute in Hp; injection Hp as <-; reflexivity).
    exists p. split; [reflexivity|]. split; [exact Hj|]. split; [exact Hall|].
    exact (proj2 (proj1 stop_restores_processNext steady (Some 1) (Some 5) acts' Hone')
             p 0%nat 0%nat 10%nat Hp Hj Hall).
  - rewrite <- Hno.
    exact (proj2 (proj2 stop_restores_processNext default_options patched eq_refl)).
Defined.

(** ** The simulated processing delay *)




(** ** The route [POST /webhook] *)

Lemma exec_Enqueue it w : exec (Enqueue it) w = (WebhookQueue.enqueue it w).2.
Proof. reflexivity. Qed.

(** The dispatch loop admits nothing. *)
Lemma admitted__scheduleProcessing l :
  preserves (λ w, admitted (trace w) = l) WebhookQueue._scheduleProcessing.
Proof.
  apply _scheduleProcessing_preserves. intros w _.
  unfold WebhookQueue.dispatch_one, WebhookQueue.dequeue, WebhookQueue.processItem.
  unfold_monad. cbn. intros <-.
  destruct (queue w); cbn; rewrite !admitted_app; cbn; by rewrite !app_nil_r.
Qed.

Lemma enqueue_admits it w :
  admitted (trace (WebhookQueue.enqueue it w).2) =
  admitted (trace w) ++
  match (WebhookQueue.enqueue it w).1 with Returned _ => [it] | Thrown _ => [] end.
Proof.
  rewrite enqueue_unfold. destruct (bool_decide _); cbn.
  - rewrite admitted_app. cbn. reflexivity.
  - apply admitted__scheduleProcessing. unfold stored. cbn.
    rewrite admitted_app. reflexivity.
Qed.

Lemma post_webhook_unfold req s :
  post_webhook req s =
  let w := default_queue s in
  if bool_decide (hitCount s + 1 > OVERLOAD_THRESHOLD (env w)) then
    ({| status := 429; payload := json_error "Too Many Requests" |},
     {| hitCount := hitCount s + 1; default_queue := set_trace (trace w ++ [IncTooMany]) w |})
  else if valid req then
    (if bool_decide (WebhookQueue.totalItems w + 1 >= threshold w)
     then {| status := 429; payload := json_error "Too Many Requests" |}
     else {| status := 202; payload := VObject (OCons "status" (VString "Accepted") ONil) |},
     {| hitCount := hitCount s + 1;
        default_queue := (WebhookQueue.enqueue (body req) w).2 |})
  else
    ({| status := 400; payload := json_error "Invalid JSON payload" |},
     {| hitCount := hitCount s + 1; default_queue := w |}).
Proof.
  unfold post_webhook, rateLimitMiddleware. cbn.
  destruct (bool_decide (hitCount s + 1 > _)); [reflexivity|].
  unfold validateJson, valid. cbn.
  destruct (is_json req); cbn; [|reflexivity].
  destruct (String.eqb (typeof (body req)) "object"); cbn; [|reflexivity].
  unfold handler. cbn. rewrite enqueue_unfold. unfold WebhookQueue.totalItems.
  by destruct (bool_decide (_ >= threshold _)).
Qed.

Lemma hitCount_post_webhook req s : hitCount (post_webhook req s).2 = hitCount s + 1.
Proof.
  rewrite post_webhook_unfold. cbv zeta.
  destruct (bool_decide (hitCount s + 1 > _)); [reflexivity|].
  by destruct (valid req).
Qed.

(** X18. A [POST /webhook] whose body [express.json()] rejects is answered
    500 by the error handler, which logs it; the rate limiter does not see the
    request and the queue is not touched.  Any other is answered 429 when it
    is past the quota of the rate limiter, otherwise 400 when the body is not
    JSON or not an object, otherwise 429 when the queue is at its threshold,
    and 202 in all other cases.  A request answered 202 has been admitted to
    the queue; one answered 400 leaves the queue as it was but has used up
    quota. *)
Theorem post_webhook_answers :
  ∀ a s,
    let w := default_queue s in
    let r := app a s in
    status r.1 =
      match a with
      | Garbled => 500
      | Parsed req =>
          if bool_decide (hitCount s + 1 > OVERLOAD_THRESHOLD (env w)) then 429
          else if negb (valid req) then 400
          else if bool_decide (WebhookQueue.totalItems w + 1 >= threshold w) then 429
          else 202
      end ∧
    hitCount r.2 = hitCount s + (if counted (Arrives a) then 1 else 0) ∧
    (status r.1 = 500 →
     a = Garbled ∧
     default_queue r.2 = set_trace (trace w ++ [Log Error "Unhandled error" None]) w) ∧
    (status r.1 = 202 →
     ∃ req, a = Parsed req ∧
            admitted (trace (default_queue r.2)) = admitted (trace w) ++ [body req]) ∧
    (status r.1 = 400 → default_queue r.2 = w).
Proof.
  intros [|req] s; cbv zeta.
  { cbn. split; [reflexivity|]. split; [lia|]. by repeat split. }
  cbn [app counted]. rewrite post_webhook_unfold. cbv zeta.
  destruct (bool_decide (hitCount s + 1 > _)); cbn; [by repeat split|].
  destruct (valid req); cbn; [|by repeat split].
  pose proof (enqueue_admits (body req) (default_queue s)) as Hadm.
  rewrite enqueue_unfold in Hadm |- *. unfold WebhookQueue.totalItems in *.
  destruct (bool_decide (_ >= threshold _)); cbn in *; repeat split; try done.
  intros _. by exists req.
Qed.

Lemma post_webhook_answers_witness :
  let s := boot steady in
  let good := {| is_json := true; body := VObject (OCons "id" (VNumber 7) ONil) |} in
  let plain := {| is_json := false; body := VObject ONil |} in
  (status (app (Parsed good) s).1 = 202 ∧
   ∃ req, Parsed good = Parsed req ∧
          admitted (trace (default_queue (app (Parsed good) s).2)) =
            admitted (trace (default_queue s)) ++ [body req]) ∧
  (status (app (Parsed plain) s).1 = 400 ∧
   default_queue (app (Parsed plain) s).2 = default_queue s) ∧
  (status (app Garbled s).1 = 500 ∧ hitCount (app Garbled s).2 = 0).
Proof.
  intros s good plain. split; [|split].
  - assert (status (app (Parsed good) s).1 = 202) as H202 by (vm_compute; reflexivity).
    split; [exact H202|].
    exact (proj1 (proj2 (proj2 (proj2 (post_webhook_answers (Parsed good) s)))) H202).
  - assert (status (app (Parsed plain) s).1 = 400) as H400 by (vm_compute; reflexivity).
    split; [exact H400|].
    exact (proj2 (proj2 (proj2 (proj2 (post_webhook_answers (Parsed plain) s)))) H400).
  - split; [exact (proj1 (post_webhook_answers Garbled s))|].
    exact (proj1 (proj2 (post_webhook_answers Garbled s))).
Defined.

(** X19. Every answer 429 is counted once by the counter of rejections,
    whether the rate limiter or the queue gave it, and no other answer is.
    The counter of arrivals moves only for the requests that reach the queue:
    a request turned away by the rate limiter or by [validateJson] is not
    counted as received. *)
Theorem post_webhook_counts :
  ∀ req s,
    let w := default_queue s in
    let r := post_webhook req s in
    count_event is_IncTooMany (trace (default_queue r.2)) =
      (count_event is_IncTooMany (trace w) +
       if bool_decide (status r.1 = 429%Z) then 1 else 0)%nat ∧
    count_event is_IncReceived (trace (default_queue r.2)) =
      (count_event is_IncReceived (trace w) +
       if bool_decide (hitCount s + 1 > OVERLOAD_THRESHOLD (env w))%Z then 0
       else if valid req then 1 else 0)%nat.
Proof.
  intros req s. cbv zeta. rewrite post_webhook_unfold. cbv zeta.
  destruct (bool_decide (hitCount s + 1 > _));
    cbn [fst snd status default_queue trace set_trace].
  - rewrite !count_event_app. rewrite bool_decide_eq_true_2 by done. by split.
  - destruct (valid req); cbn [fst snd status default_queue].
    + rewrite <- exec_Enqueue, count_IncTooMany_exec, count_IncReceived_exec.
      rewrite enqueue_unfold. unfold WebhookQueue.totalItems.
      destruct (bool_decide (_ >= threshold _)); cbn [fst snd status];
        [rewrite bool_decide_eq_true_2 by done|rewrite bool_decide_eq_false_2 by done];
        by split.
    + rewrite bool_decide_eq_false_2 by done. split; lia.
Qed.

Lemma env_serve st s : env (default_queue (serve st s)) = env (default_queue s).
Proof.
  destruct st as [req|a]; cbn.
  - rewrite post_webhook_unfold. cbv zeta.
    destruct (bool_decide (hitCount s + 1 > _)); [reflexivity|].
    destruct (valid req); [|reflexivity]. cbn.
    rewrite <- exec_Enqueue. apply (env_run [Enqueue (body req)]).
  - apply (env_run [a]).
Qed.

Lemma serve_all_snoc sts st s : serve_all (sts ++ [st]) s = serve st (serve_all sts s).
Proof. unfold serve_all. by rewrite foldl_app. Qed.





(** ** How many requests the route ever admits *)

#[local] Hint Extern 1 (preserves (unchanged (λ w, admitted (trace w)) _) (emit _)) =>
  intros ? H; unfold unchanged in *; cbn; rewrite admitted_snoc; cbn;
  rewrite ?app_nil_r; exact H : pres.
#[local] Hint Extern 1 (preserves (unchanged (λ w, admitted (trace w)) _) (modify _)) =>
  apply preserves_modify; intros ? H; exact H : pres.
#[local] Hint Extern 1 (preserves (unchanged (λ w, admitted (trace w)) _) Date_now) =>
  intros ? H; exact H : pres.
#[local] Hint Extern 1 (preserves (unchanged (λ w, admitted (trace w)) _)
                          WebhookQueue._scheduleProcessing) =>
  apply admitted__scheduleProcessing : pres.

Lemma admitted_spawn l n :
  preserves (unchanged (λ w, admitted (trace w)) l) (WorkerPool.spawn n).
Proof.
  induction n as [|n IH]; cbn;
    unfold WorkerPool.workerLoop, WorkerPool.park, WebhookQueue.dequeue,
      WebhookQueue.processItem;
    unfold_sinks; preserve.
Qed.

#[local] Hint Resolve admitted_spawn : pres.

(** Nothing but [enqueue] admits an item. *)
Lemma admitted_exec a w :
  is_Enqueue a = false → admitted (trace (exec a w)) = admitted (trace w).
Proof.
  intros Ha.
  assert (preserves (unchanged (λ w, admitted (trace w)) (admitted (trace w))) (perform a))
    as H; [|by apply H].
  destruct a; try discriminate; cbn; unfold_actions;
    unfold WorkerPool.workerLoop, WorkerPool.park, WebhookQueue.on_finally,
      WebhookQueue.dequeue, WebhookQueue.processItem;
    unfold_sinks; preserve.
Qed.

Lemma admitted_post_webhook req s :
  admitted (trace (default_queue (post_webhook req s).2)) =
  admitted (trace (default_queue s)) ++
  (if bool_decide (status (post_webhook req s).1 = 202) then [body req] else []).
Proof.
  rewrite post_webhook_unfold. cbv zeta.
  destruct (bool_decide (hitCount s + 1 > _)); cbn [fst snd status default_queue].
  { rewrite bool_decide_eq_false_2 by done. cbn. by rewrite admitted_app. }
  destruct (valid req); cbn [fst snd status default_queue].
  2:{ rewrite bool_decide_eq_false_2 by done. by rewrite app_nil_r. }
  rewrite enqueue_admits, enqueue_unfold. unfold WebhookQueue.totalItems.
  destruct (bool_decide (_ >= threshold _)); cbn [fst snd status];
    [rewrite bool_decide_eq_false_2 by done|rewrite bool_decide_eq_true_2 by done];
    reflexivity.
Qed.

(** X21. Over the whole life of the server process the route admits at most
    [OVERLOAD_THRESHOLD] requests to the queue: as long as nothing but the
    route enqueues, the items admitted never number more than the requests
    counted, nor more than the threshold. *)
Theorem route_admits_at_most_threshold_requests :
  ∀ e sts,
    forallb (λ st, match st with Post _ => true | Job a => negb (is_Enqueue a) end) sts = true →
    0 ≤ OVERLOAD_THRESHOLD e →
    let s := serve_all sts (boot e) in
    Z.of_nat (length (admitted (trace (default_queue s)))) ≤
    Z.min (hitCount s) (OVERLOAD_THRESHOLD e).
Proof.
  intros e sts Hsts HT. cbv zeta.
  induction sts as [|st sts IH] using rev_ind; [cbn; lia|].
  rewrite forallb_app in Hsts. cbn in Hsts.
  apply andb_true_iff in Hsts as [Hsts Hst]. rewrite andb_true_r in Hst.
  specialize (IH Hsts). rewrite serve_all_snoc.
  set (s := serve_all sts (boot e)) in *.
  assert (env (default_queue s) = e) as Henv.
  { subst s. clear. induction sts as [|st sts IH] using rev_ind; [reflexivity|].
    by rewrite serve_all_snoc, env_serve. }
  destruct st as [req|a]; cbn [serve hitCount default_queue].
  - rewrite admitted_post_webhook, hitCount_post_webhook, length_app.
    pose proof (post_webhook_unfold req s) as Hu. cbv zeta in Hu. rewrite Henv in Hu.
    destruct (bool_decide (hitCount s + 1 > OVERLOAD_THRESHOLD e)) eqn:Hfull.
    + rewrite Hu. cbn [fst status]. rewrite bool_decide_eq_false_2 by done.
      apply bool_decide_eq_true in Hfull. cbn. lia.
    + apply bool_decide_eq_false in Hfull.
      destruct (bool_decide (status (post_webhook req s).1 = 202)); cbn; lia.
  - apply negb_true_iff in Hst. rewrite (admitted_exec a _ Hst). exact IH.
Qed.

Lemma route_admits_at_most_threshold_requests_witness :
  let e := {| clock := clock steady; random := random steady;
              CONCURRENCY := 10; OVERLOAD_THRESHOLD := 3 |} in
  let req := {| is_json := true; body := VObject ONil |} in
  let sts := [Post req; Post req; Job (Settle 0 true); Job (React 0); Post req; Post req] in
  let s := serve_all sts (boot e) in
  0 ≤ OVERLOAD_THRESHOLD e ∧
  hitCount s = 4 ∧
  length (admitted (trace (default_queue s))) = 3%nat ∧
  Z.of_nat (length (admitted (trace (default_queue s)))) ≤
  Z.min (hitCount s) (OVERLOAD_THRESHOLD e).
Proof.
  intros e req sts s.
  assert (0 ≤ OVERLOAD_THRESHOLD e) as HT by (vm_compute; discriminate).
  split; [exact HT|]. split; [vm_compute; reflexivity|]. split; [vm_compute; reflexivity|].
  exact (route_admits_at_most_threshold_requests e sts eq_refl HT).
Defined.
